(** * Clifford-steerable kernels: composed kernels and scalar shells

    A shallow embedding of [modules/conv/ckernel.py] and
    [modules/conv/shell.py].  Arrays are row-major tensors (a shape and a
    flat list of entries), Python exceptions are an error monad, and
    floating-point entries are idealised as real numbers. *)

From Stdlib Require Import List Arith PeanoNat Lia Bool ZArith.
From Stdlib Require Import Reals Lra.
From Stdlib Require Import Permutation Ring.
Import ListNotations.

Set Implicit Arguments.

(** ** Exceptions *)

Inductive exn : Type :=
| ValueError
| TypeError
| ZeroDivisionError.

Inductive result (A : Type) : Type :=
| Ok (a : A)
| Raise (e : exn).

Arguments Ok {A} a.
Arguments Raise {A} e.

Definition bind {A B : Type} (m : result A) (k : A -> result B) : result B :=
  match m with
  | Ok a => k a
  | Raise e => Raise e
  end.

Notation "x <- m ;; k" := (bind m (fun x => k))
  (at level 61, m at next level, right associativity).

Definition raises {A : Type} (m : result A) : Prop :=
  exists e, m = Raise e.

Definition returns {A : Type} (m : result A) : Prop :=
  exists a, m = Ok a.

Fixpoint mapM {A B : Type} (f : A -> result B) (l : list A) : result (list B) :=
  match l with
  | [] => Ok []
  | a :: l' => b <- f a ;; bs <- mapM f l' ;; Ok (b :: bs)
  end.

(** ** Row-major tensors *)

Section Tensor.

Variable T : Type.
Variable zero : T.

Record tensor : Type := mkTensor { shape : list nat; data : list T }.

Definition numel (sh : list nat) : nat := fold_right Nat.mul 1 sh.

Definition rank (t : tensor) : nat := length (shape t).

(** The array invariant: as many entries as the shape announces. *)
Definition wf_tensor (t : tensor) : Prop :=
  length (data t) = numel (shape t).

(** Position of a multi-index in the flat data. *)
Fixpoint offset (sh idx : list nat) : nat :=
  match sh, idx with
  | _ :: sh', i :: idx' => i * numel sh' + offset sh' idx'
  | _, _ => 0
  end.

Fixpoint in_range (sh idx : list nat) : bool :=
  match sh, idx with
  | [], [] => true
  | d :: sh', i :: idx' => (i <? d) && in_range sh' idx'
  | _, _ => false
  end.

Definition get (t : tensor) (idx : list nat) : T :=
  nth (offset (shape t) idx) (data t) zero.

(** Entries listed in row-major order from an index function. *)
Fixpoint tabulate_data (sh : list nat) (f : list nat -> T) : list T :=
  match sh with
  | [] => [f []]
  | d :: sh' =>
      flat_map (fun i => tabulate_data sh' (fun idx => f (i :: idx))) (seq 0 d)
  end.

Definition tabulate (sh : list nat) (f : list nat -> T) : tensor :=
  mkTensor sh (tabulate_data sh f).

Definition zeros (sh : list nat) : tensor := tabulate sh (fun _ => zero).

(** [block l size i] is the [i]-th run of [size] consecutive entries. *)
Definition block (l : list T) (size i : nat) : list T :=
  firstn size (skipn (i * size) l).

(** ** Array operations used by the kernels *)

(** [tensor.reshape(new_shape)]: a pure reinterpretation of the flat data;
    the total sizes must agree. *)
Definition reshape (new_shape : list nat) (t : tensor) : result tensor :=
  if numel new_shape =? numel (shape t)
  then Ok (mkTensor new_shape (data t))
  else Raise TypeError.

Fixpoint index_of (a : nat) (axes : list nat) : nat :=
  match axes with
  | [] => 0
  | b :: axes' => if a =? b then 0 else S (index_of a axes')
  end.

Definition is_permutation (axes : list nat) (n : nat) : bool :=
  (length axes =? n) && forallb (fun a => existsb (Nat.eqb a) axes) (seq 0 n).

(** [tensor.transpose(axes)]: axis [a] of the result is axis [axes[a]] of
    the argument. *)
Definition transpose (axes : list nat) (t : tensor) : result tensor :=
  if is_permutation axes (rank t)
  then Ok (tabulate (map (fun a => nth a (shape t) 0) axes)
             (fun idx =>
                get t (map (fun b => nth (index_of b axes) idx 0)
                         (seq 0 (rank t)))))
  else Raise ValueError.

(** The [i]-th slice along axis 0. *)
Definition slice0 (t : tensor) (i : nat) : tensor :=
  mkTensor (tl (shape t)) (block (data t) (numel (tl (shape t))) i).

(** [jax.vmap(f, in_axes=(0, 0))(t1, t2)]: [f] is traced once on abstract
    slices, which fixes the shape of the result, and is applied to every
    pair of slices along axis 0. *)
Definition vmap (f : tensor -> tensor -> result tensor) (t1 t2 : tensor)
  : result tensor :=
  match shape t1, shape t2 with
  | n1 :: s1, n2 :: s2 =>
      if n1 =? n2
      then proto <- f (zeros s1) (zeros s2) ;;
           rs <- mapM (fun i => f (slice0 t1 i) (slice0 t2 i)) (seq 0 n1) ;;
           Ok (mkTensor (n1 :: shape proto) (flat_map data rs))
      else Raise ValueError
  | _, _ => Raise ValueError
  end.

Variable add mul : T -> T -> T.

Definition sum_over (n : nat) (f : nat -> T) : T :=
  fold_right (fun i acc => add (f i) acc) zero (seq 0 n).

(** Total padding of a "SAME" convolution with unit stride along an axis
    convolved with a window of the given extent. *)
Definition same_pad_total (window : nat) : nat := window - 1.

Definition same_pad_lo (window : nat) : nat := same_pad_total window / 2.

(** Entry of the zero-padded image of channel [c] of batch item [n]. *)
Definition padded (lhs : tensor) (lo_h lo_w n c r s : nat) : T :=
  match shape lhs with
  | [_; _; h; w] =>
      if (lo_h <=? r) && (r <? lo_h + h) && (lo_w <=? s) && (s <? lo_w + w)
      then get lhs [n; c; r - lo_h; s - lo_w]
      else zero
  | _ => zero
  end.

(** [jax.lax.conv(lhs, rhs, window_strides=(1,1), padding="SAME")]:
    cross-correlation of an NCHW batch with an OIHW filter bank.  Both
    arguments need two spatial axes and the same channel count, and a
    window of extent zero is refused; an output extent is the padded extent
    minus the window plus one, and the lower padding is half of the total,
    rounded down. *)
Definition lax_conv_same (lhs rhs : tensor) : result tensor :=
  match shape lhs, shape rhs with
  | [bn; ch; h; w], [oc; ic; kh; kw] =>
      if (kh =? 0) || (kw =? 0) then Raise ValueError
      else if ch =? ic
      then Ok (tabulate
                 [bn; oc; h + same_pad_total kh + 1 - kh;
                          w + same_pad_total kw + 1 - kw]
                 (fun idx =>
                    match idx with
                    | [n; o; y; x] =>
                        sum_over ch (fun c =>
                          sum_over kh (fun dy =>
                            sum_over kw (fun dx =>
                              mul (padded lhs (same_pad_lo kh) (same_pad_lo kw)
                                     n c (y + dy) (x + dx))
                                  (get rhs [o; c; dy; dx]))))
                    | _ => zero
                    end))
      else Raise ValueError
  | _, _ => Raise TypeError
  end.

End Tensor.

Arguments mkTensor {T} shape data.
Arguments shape {T} t.
Arguments data {T} t.
Arguments rank {T} t.
Arguments wf_tensor {T} t.
Arguments reshape {T} new_shape t.
Arguments slice0 {T} t i.
Arguments block {T} l size i.

(** ** The algebra object *)

(** Modelled from the spec: the algebra object ([algebra/cliffordalgebra.py]
    is not among the sources).  It is a capability record exposing the blade
    count, the grade metadata, the quadratic form [q] and the grade embedding
    [embed_grade]; the last two act on the components of one multivector and
    are lifted to arrays along the last axis. *)
Record CliffordAlgebra : Type := mkAlgebra {
  dim : nat;
  n_blades : nat;
  n_subspaces : nat;
  subspaces : list nat;
  q_mv : list R -> R;
  embed_grade_mv : list R -> nat -> list R
}.

(** The contract of an algebra: [2^dim] blades partitioned by grade, an
    embedding of vectors into the full blade basis, and a quadratic form
    that vanishes on the embedding of the zero vector. *)
Record wf_algebra (a : CliffordAlgebra) : Prop := mkWfAlgebra {
  wf_n_blades : n_blades a = 2 ^ dim a;
  wf_n_subspaces : length (subspaces a) = n_subspaces a;
  wf_subspaces : list_sum (subspaces a) = n_blades a;
  wf_embed_length :
    forall v, length v = dim a ->
              length (embed_grade_mv a v 1) = n_blades a;
  wf_q_origin : q_mv a (embed_grade_mv a (repeat 0%R (dim a)) 1) = 0%R
}.

(** ** [ckernel.py] *)

Definition floordiv (a b : nat) : result nat :=
  if b =? 0 then Raise ZeroDivisionError else Ok (a / b).

Section CKernel.

Variable T : Type.
Variable zero : T.
Variable add mul : T -> T -> T.
Variable algebra : CliffordAlgebra.

Definition reshape_mv_tensor (t : tensor T) : result (tensor T) :=
  match shape t with
  | A :: B :: dims =>
      M <- floordiv A (n_blades algebra) ;;
      N <- floordiv B (n_blades algebra) ;;
      reshape (M :: n_blades algebra :: N :: n_blades algebra :: dims) t
  | _ => Raise ValueError
  end.

Definition reshape_back (t : tensor T) : result (tensor T) :=
  match shape t with
  | M :: _ :: N :: _ :: dims =>
      let A := M * n_blades algebra in
      let B := N * n_blades algebra in
      reshape (A :: B :: dims) t
  | _ => Raise ValueError
  end.

Definition _conv_kernel_11 (k1 k2 : tensor T) : result (tensor T) :=
  lax_conv_same zero add mul k1 k2.

Definition _conv_kernel_14 (k1 k2 : tensor T) : result (tensor T) :=
  vmap zero _conv_kernel_11 k1 k2.

Definition conv_kernel (k1 k2 : tensor T) : result (tensor T) :=
  r1 <- reshape_mv_tensor k1 ;;
  k1 <- transpose zero [0; 2; 1; 3; 4; 5] r1 ;;
  r2 <- reshape_mv_tensor k2 ;;
  k2 <- transpose zero [0; 2; 1; 3; 4; 5] r2 ;;
  k <- vmap zero _conv_kernel_14 k1 k2 ;;
  k <- transpose zero [0; 2; 1; 3; 4; 5] k ;;
  reshape_back k.

(** The attributes of [ComposedCliffordSteerableKernel]; the algebra is the
    section's. *)
Record kernel_params : Type := mkKernelParams {
  c_in : nat;
  c_out : nat;
  kernel_size : nat;
  num_layers : nat;
  hidden_dim : nat;
  bias_dims : list nat;
  product_paths_sum : nat
}.

(** [CliffordSteerableKernel] lives in [kernel.py], which is not among the
    sources: its evaluation on a set of learned variables is a parameter. *)
Variable variables : Type.
Variable CliffordSteerableKernel :
  kernel_params -> variables -> result (tensor T).

(** [ComposedCliffordSteerableKernel.__call__]: the two sub-kernels own
    independent variables. *)
Definition ComposedCliffordSteerableKernel_call
    (self : kernel_params) (vars1 vars2 : variables) : result (tensor T) :=
  k1 <- CliffordSteerableKernel self vars1 ;;
  k2 <- CliffordSteerableKernel self vars2 ;;
  conv_kernel k1 k2.

End CKernel.

(** ** [shell.py] *)

Section ArrayOps.

Variable T : Type.
Variable zero : T.

Definition tmap (f : T -> T) (t : tensor T) : tensor T :=
  mkTensor (shape t) (map f (data t)).

(** Broadcasting of two shapes: the shorter one is padded with leading
    1s, then the extents agree axis by axis or one of them is 1. *)
Definition pad_shape (n : nat) (s : list nat) : list nat :=
  repeat 1 (n - length s) ++ s.

Fixpoint broadcast_axes (s1 s2 : list nat) : result (list nat) :=
  match s1, s2 with
  | [], [] => Ok []
  | d1 :: r1, d2 :: r2 =>
      r <- broadcast_axes r1 r2 ;;
      if d1 =? d2 then Ok (d1 :: r)
      else if d1 =? 1 then Ok (d2 :: r)
      else if d2 =? 1 then Ok (d1 :: r)
      else Raise ValueError
  | _, _ => Raise ValueError
  end.

Definition broadcast_shapes (s1 s2 : list nat) : result (list nat) :=
  let n := Nat.max (length s1) (length s2) in
  broadcast_axes (pad_shape n s1) (pad_shape n s2).

(** Index into an operand of shape [sh] for the result index [idx]. *)
Definition clamp (sh idx : list nat) : list nat :=
  map (fun di => if fst di =? 1 then 0 else snd di) (combine sh idx).

Definition bindex (sh idx : list nat) : list nat :=
  clamp sh (skipn (length idx - length sh) idx).

Definition broadcast2 (op : T -> T -> T) (t1 t2 : tensor T)
  : result (tensor T) :=
  sh <- broadcast_shapes (shape t1) (shape t2) ;;
  Ok (tabulate sh (fun idx =>
        op (get zero t1 (bindex (shape t1) idx))
           (get zero t2 (bindex (shape t2) idx)))).

(** Apply [f] to every run of [in_len] entries along the last axis. *)
Definition along_last (in_len out_len : nat) (f : list T -> list T)
    (t : tensor T) : result (tensor T) :=
  match shape t with
  | [] => Raise ValueError
  | _ =>
      if last (shape t) 0 =? in_len
      then Ok (mkTensor (removelast (shape t) ++ [out_len])
                 (flat_map (fun i => f (block (data t) in_len i))
                    (seq 0 (numel (removelast (shape t))))))
      else Raise ValueError
  end.

Fixpoint repeat_items (items : list (list T)) (reps : list nat) : list T :=
  match items, reps with
  | it :: items', r :: reps' => concat (repeat it r) ++ repeat_items items' reps'
  | _, _ => []
  end.

Definition normalize_axis (axis : Z) (n : nat) : result nat :=
  if ((0 <=? axis) && (axis <? Z.of_nat n))%Z then Ok (Z.to_nat axis)
  else if ((- Z.of_nat n <=? axis) && (axis <? 0))%Z
       then Ok (Z.to_nat (axis + Z.of_nat n))
       else Raise ValueError.

(** [jnp.repeat(t, repeats, axis)]: entry [g] along [axis] is repeated
    [repeats[g]] times; a single repeat count is used for every entry. *)
Definition jnp_repeat (t : tensor T) (repeats : list nat) (axis : Z)
  : result (tensor T) :=
  a <- normalize_axis axis (rank t) ;;
  let n := nth a (shape t) 0 in
  let reps := if length repeats =? 1 then repeat (hd 0 repeats) n else repeats in
  if length reps =? n
  then
    let inner := numel (skipn (S a) (shape t)) in
    let outer := numel (firstn a (shape t)) in
    Ok (mkTensor (firstn a (shape t) ++ [list_sum reps] ++ skipn (S a) (shape t))
          (flat_map (fun o =>
                       repeat_items
                         (map (block (data t) inner) (seq (o * n) n)) reps)
             (seq 0 outer)))
  else Raise ValueError.

(** [t.reshape(pre, -1, post)]: the middle extent is inferred. *)
Definition reshape_infer (pre post : list nat) (t : tensor T)
  : result (tensor T) :=
  let known := numel pre * numel post in
  if known =? 0 then Raise TypeError
  else if numel (shape t) mod known =? 0
       then reshape (pre ++ [numel (shape t) / known] ++ post) t
       else Raise TypeError.

(** [self.param(name, init, shape)] on stored variables: the stored array
    must have the declared shape. *)
Definition flax_param (stored : tensor T) (declared : list nat)
  : result (tensor T) :=
  if list_eq_dec Nat.eq_dec (shape stored) declared then Ok stored
  else Raise ValueError.

End ArrayOps.

Section Shell.

Open Scope R_scope.

Variable algebra : CliffordAlgebra.

(** [algebra.embed_grade(v, grade)] and [algebra.q(mv)] on arrays. *)
Definition embed_grade (v : tensor R) (grade : nat) : result (tensor R) :=
  along_last (dim algebra) (n_blades algebra)
    (fun row => embed_grade_mv algebra row grade) v.

Definition q (mv : tensor R) : result (tensor R) :=
  along_last (n_blades algebra) 1 (fun row => [q_mv algebra row]) mv.

(** [jnp.where(x >= 0, 1, -1)] on one entry. *)
Definition where_ge0 (x : R) : R := if Rge_dec x 0 then 1 else -1.

(** [compute_scalar_shell], in exact arithmetic.  Entries are real
    numbers, so the model has neither the rounding of float32 nor its
    non-finite values: [exp] never underflows to zero here, and a division
    by a zero width, which the code answers with an infinity or a NaN, is
    whatever [Rdiv] gives.  What is proved of the values is proved of
    these real numbers. *)
Definition compute_scalar_shell (v sigma : tensor R) : result (tensor R) :=
  e <- embed_grade v 1 ;;
  q_v <- q e ;;
  let sgn := tmap where_ge0 q_v in
  arg <- broadcast2 0 Rdiv (tmap Ropp (tmap Rabs q_v))
           (tmap (Rmult 2) (tmap (fun s => s ^ 2) sigma)) ;;
  broadcast2 0 Rmult sgn (tmap exp arg).

Record shell_attrs : Type := mkShellAttrs {
  shell_c_in : nat;
  shell_c_out : nat
}.

(** Lines 50-61 of [ScalarShell.__call__]: the effective width array. *)
Definition ScalarShell_kernel_width (self : shell_attrs)
    (kernel_width_param : tensor R) : result (tensor R) :=
  p <- flax_param kernel_width_param
         [shell_c_out self; shell_c_in self; n_subspaces algebra] ;;
  let kernel_width := tmap (fun w => w + 0.4) p in
  kernel_width <- jnp_repeat kernel_width (subspaces algebra) (-1) ;;
  reshape_infer [1%nat] [(2 ^ dim algebra)%nat] kernel_width.

Definition ScalarShell_call (self : shell_attrs)
    (kernel_width_param x : tensor R) : result (tensor R) :=
  kernel_width <- ScalarShell_kernel_width self kernel_width_param ;;
  compute_scalar_shell x kernel_width.

(** The [print] of the result's shape leaves the returned array untouched
    and is not modelled. *)
Definition compute_composed_scalar_shell (v sigma : tensor R)
  : result (tensor R) :=
  e <- embed_grade v 1 ;;
  q_v <- q e ;;
  q_v <- reshape_infer [] [1; 1; 1; 1]%nat q_v ;;
  let sgn := tmap where_ge0 q_v in
  arg <- broadcast2 0 Rdiv (tmap Ropp (tmap Rabs q_v))
           (tmap (Rmult 2) (tmap (fun s => s ^ 2) sigma)) ;;
  broadcast2 0 Rmult sgn (tmap exp arg).

(** Lines 108-120 of [ComposedScalarShell.__call__]; the last step is
    [kernel_width[None, :, :, :, :]]. *)
Definition ComposedScalarShell_kernel_width (self : shell_attrs)
    (kernel_width_param : tensor R) : result (tensor R) :=
  p <- flax_param kernel_width_param
         [shell_c_out self; shell_c_in self;
          n_subspaces algebra; n_subspaces algebra] ;;
  let kernel_width := tmap (fun w => w + 0.4) p in
  kernel_width_out <- jnp_repeat kernel_width (subspaces algebra) (-2) ;;
  kernel_width <- jnp_repeat kernel_width_out (subspaces algebra) (-1) ;;
  Ok (mkTensor (1%nat :: shape kernel_width) (data kernel_width)).

Definition ComposedScalarShell_call (self : shell_attrs)
    (kernel_width_param x : tensor R) : result (tensor R) :=
  kernel_width <- ComposedScalarShell_kernel_width self kernel_width_param ;;
  compute_composed_scalar_shell x kernel_width.

End Shell.

(** ** The scalar shell as the specification words it *)

Section ShellSpec.

Open Scope R_scope.

(** The sign with the tie-break [sign 0 = +1]. *)
Definition sign_plus (x : R) : R :=
  if Rlt_dec x 0 then -1 else 1.

(** [sign(q) * exp(-|q| / (2*sigma^2))]. *)
Definition shell_value (qv sigma : R) : R :=
  sign_plus qv * exp (- Rabs qv / (2 * sigma ^ 2)).

(** The quadratic form of the grade-1 embedding of the [p]-th offset vector
    stored in [v]. *)
Definition q_at (algebra : CliffordAlgebra) (v : tensor R) (p : nat) : R :=
  q_mv algebra (embed_grade_mv algebra (block (data v) (dim algebra) p) 1).

End ShellSpec.

(** The grade of every blade, in blade order. *)
Definition blade_grades (reps : list nat) : list nat :=
  flat_map (fun g => repeat g (nth g reps 0)) (seq 0 (length reps)).

(** The grade of blade [b] when grade [g] spans [reps[g]] blades. *)
Fixpoint grade_of (reps : list nat) (b : nat) : nat :=
  match reps with
  | [] => 0
  | r :: reps' => if b <? r then 0 else S (grade_of reps' (b - r))
  end.

(** A width obtained from a raw parameter satisfying [P] by adding the
    floor 0.4. *)
Definition raised (P : R -> Prop) (w : R) : Prop :=
  exists r, P r /\ w = (r + 0.4)%R.

(** The spatial extents of a kernel array: [A, B, *dims = tensor.shape]. *)
Definition spatial_dims {T : Type} (t : tensor T) : list nat :=
  skipn 2 (shape t).

(** ** Symmetries of the sampling grid and their action on blades *)

(** A symmetry of the k-by-k sampling grid: an optional exchange of the two
    axes followed by optional reversals of either axis. *)
Record grid_sym : Type := mkGridSym {
  swap : bool;
  flip_y : bool;
  flip_x : bool
}.

Definition flip (b : bool) (k a : nat) : nat :=
  if b then k - 1 - a else a.

Definition act_y (g : grid_sym) (k y x : nat) : nat :=
  flip (flip_y g) k (if swap g then x else y).

Definition act_x (g : grid_sym) (k y x : nat) : nat :=
  flip (flip_x g) k (if swap g then y else x).

(** A kernel of shape (c_out*n_blades, c_in*n_blades, k, k) transforms
    consistently under the grid symmetry [g] acting on blades by the signed
    permutation ([s], [sigma]): moving the sampling point by [g] conjugates
    every blade block by the blade action. *)
Definition equivariant {T : Type} (zero : T) (mul : T -> T -> T)
    (nb co ci k : nat) (g : grid_sym) (sigma : nat -> nat) (s : nat -> T)
    (K : tensor T) : Prop :=
  forall m n i j y x,
    m < co -> n < ci -> i < nb -> j < nb -> y < k -> x < k ->
    get zero K [m * nb + i; n * nb + j; act_y g k y x; act_x g k y x]
    = mul (mul (s i) (s j))
          (get zero K [m * nb + sigma i; n * nb + sigma j; y; x]).

(** The blade action is a signed permutation of the blades. *)
Record blade_action {T : Type} (one : T) (mul : T -> T -> T) (nb : nat)
    (sigma : nat -> nat) (s : nat -> T) : Prop := mkBladeAction {
  sigma_range : forall i, i < nb -> sigma i < nb;
  sigma_inj : forall i j, i < nb -> j < nb -> sigma i = sigma j -> i = j;
  sign_square : forall i, i < nb -> mul (s i) (s i) = one
}.

(** ** [csresmnist.py] *)

(** Names of attributes read from a module object. *)
Inductive attr_name : Type :=
| out_features.

(** Outcome of a network call: a value, an exception raised inside a layer,
    or an [AttributeError] raised by reading an attribute that the module
    does not define. *)
Inductive outcome (A : Type) : Type :=
| Returned (a : A)
| LayerRaised (e : exn)
| AttributeError (name : attr_name).

Arguments Returned {A} a.
Arguments LayerRaised {A} e.
Arguments AttributeError {A} name.

Definition of_layer {A : Type} (r : result A) : outcome A :=
  match r with
  | Ok a => Returned a
  | Raise e => LayerRaised e
  end.

Definition obind {A B : Type} (m : outcome A) (k : A -> outcome B) : outcome B :=
  match m with
  | Returned a => k a
  | LayerRaised e => LayerRaised e
  | AttributeError n => AttributeError n
  end.

Notation "x <~ m ;; k" := (obind m (fun x => k))
  (at level 61, m at next level, right associativity).

Section CSResNet.

(** The arrays flowing through the network and the layers the network is
    assembled from ([convolution.py], [norm.py], [mvgelu.py] and
    [flax.linen.Dense] are not among the sources): parameters. *)
Variable X : Type.
Variable padding_mode_t : Type.
Variable same_padding : padding_mode_t.

Record conv_config : Type := mkConvConfig {
  cfg_algebra : CliffordAlgebra;
  cfg_num_layers : nat;
  cfg_hidden_dim : nat;
  cfg_kernel_size : nat;
  cfg_bias_dims : list nat;
  cfg_product_paths_sum : nat;
  cfg_padding_mode : padding_mode_t
}.

(** Keyword arguments of one [CliffordSteerableConv]; [None] is an argument
    left to the layer's default. *)
Record conv_args : Type := mkConvArgs {
  conv_c_in : nat;
  conv_c_out : nat;
  conv_stride : option nat;
  conv_padding : option bool;
  conv_bias : option bool;
  conv_cfg : conv_config
}.

Variable CliffordSteerableConv : conv_args -> X -> result X.
Variable MVLayerNorm : CliffordAlgebra -> X -> result X.
Variable MVGELU : X -> result X.
Variable GradeNorm : CliffordAlgebra -> X -> result X.
Variable field_add : X -> X -> result X.
Variable flatten_batch : X -> result X.
Variable Dense : nat -> X -> result X.

Record CSBasicBlock : Type := mkCSBasicBlock {
  blk_algebra : CliffordAlgebra;
  blk_in_channels : nat;
  blk_channels : nat;
  blk_product_paths_sum : nat;
  blk_norm : bool;
  blk_num_layers : nat;
  blk_hidden_dim : nat;
  blk_kernel_size : nat;
  blk_bias_dims : list nat;
  blk_stride : nat;
  blk_expansion : nat;
  blk_padding_mode : padding_mode_t
}.

Definition blk_conv_config (self : CSBasicBlock) : conv_config :=
  mkConvConfig (blk_algebra self) (blk_num_layers self) (blk_hidden_dim self)
    (blk_kernel_size self) (blk_bias_dims self) (blk_product_paths_sum self)
    (blk_padding_mode self).

Definition blk_norm_layer (self : CSBasicBlock) (x : X) : result X :=
  if blk_norm self then MVLayerNorm (blk_algebra self) x else Ok x.

(** The condition of the projection shortcut. *)
Definition needs_projection (self : CSBasicBlock) : bool :=
  negb (blk_stride self =? 1)
  || negb (blk_in_channels self =? blk_expansion self * blk_channels self).

Definition CSBasicBlock_call (self : CSBasicBlock) (x : X) : result X :=
  out <- CliffordSteerableConv
           (mkConvArgs (blk_in_channels self) (blk_channels self)
              (Some (blk_stride self)) None (Some true)
              (blk_conv_config self)) x ;;
  out <- blk_norm_layer self out ;;
  out <- MVGELU out ;;
  out <- CliffordSteerableConv
           (mkConvArgs (blk_channels self) (blk_channels self)
              (Some (blk_stride self)) (Some true) (Some true)
              (blk_conv_config self)) out ;;
  out <- blk_norm_layer self out ;;
  x <- (if needs_projection self
        then x <- CliffordSteerableConv
                    (mkConvArgs (blk_in_channels self)
                       (blk_expansion self * blk_channels self)
                       (Some (blk_stride self)) (Some true) (Some true)
                       (blk_conv_config self)) x ;;
             blk_norm_layer self x
        else Ok x) ;;
  out <- field_add out x ;;
  MVGELU out.

(** The fields of [CSResNetMnist]; the class declares no [out_features]. *)
Record CSResNetMnist : Type := mkCSResNetMnist {
  net_algebra : CliffordAlgebra;
  net_c_in : nat;
  net_c_out : nat;
  net_hidden_channels : nat;
  net_kernel_num_layers : nat;
  net_kernel_hidden_dim : nat;
  net_kernel_size : nat;
  net_bias_dims : list nat;
  net_product_paths_sum : nat;
  net_blocks : list nat;
  net_norm : bool;
  net_make_channels : bool;
  net_padding_mode : padding_mode_t
}.

(** [setup]: the embedding and output convolutions are 1-by-1. *)
Definition net_conv_config (self : CSResNetMnist) : conv_config :=
  mkConvConfig (net_algebra self) (net_kernel_num_layers self)
    (net_kernel_hidden_dim self) 1 (net_bias_dims self)
    (net_product_paths_sum self) (net_padding_mode self).

(** [setup]: every block maps [hidden_channels] to [hidden_channels]; the
    stride and the expansion keep their defaults of 1. *)
Definition net_block_config (self : CSResNetMnist) : CSBasicBlock :=
  mkCSBasicBlock (net_algebra self) (net_hidden_channels self)
    (net_hidden_channels self) (net_product_paths_sum self) (net_norm self)
    (net_kernel_num_layers self) (net_kernel_hidden_dim self)
    (net_kernel_size self) (net_bias_dims self) 1 1 (net_padding_mode self).

(** Reading an attribute of the network object: only declared fields
    exist. *)
Definition net_getattr (self : CSResNetMnist) (name : attr_name) : outcome nat :=
  match name with
  | out_features => AttributeError out_features
  end.

Fixpoint apply_blocks (block : X -> result X) (n : nat) (x : X) : result X :=
  match n with
  | 0 => Ok x
  | S n' => x <- block x ;; apply_blocks block n' x
  end.

Fixpoint apply_stages (block : X -> result X) (blocks : list nat) (x : X)
  : result X :=
  match blocks with
  | [] => Ok x
  | num_blocks :: rest =>
      x <- apply_blocks block num_blocks x ;; apply_stages block rest x
  end.

Definition CSResNetMnist_call (self : CSResNetMnist) (x : X) : outcome X :=
  let in_channels := if negb (net_make_channels self) then net_c_in self else 1 in
  let out_channels := if negb (net_make_channels self) then net_c_out self else 1 in
  let conv c_in c_out :=
    CliffordSteerableConv
      (mkConvArgs c_in c_out None None None (net_conv_config self)) in
  x <~ of_layer (conv in_channels (net_hidden_channels self) x) ;;
  x <~ of_layer (MVGELU x) ;;
  x <~ of_layer (conv (net_hidden_channels self) (net_hidden_channels self) x) ;;
  x <~ of_layer (MVGELU x) ;;
  x <~ of_layer (apply_stages (CSBasicBlock_call (net_block_config self))
                   (net_blocks self) x) ;;
  x <~ of_layer (conv (net_hidden_channels self) (net_hidden_channels self) x) ;;
  x <~ of_layer (MVGELU x) ;;
  x <~ of_layer (conv (net_hidden_channels self) out_channels x) ;;
  x <~ of_layer (GradeNorm (net_algebra self) x) ;;
  x <~ of_layer (flatten_batch x) ;;
  features <~ net_getattr self out_features ;;
  of_layer (Dense features x).

End CSResNet.

(** ** Concrete instances used to exercise the definitions *)

(** The Euclidean plane algebra Cl(2,0): blades [1, e1, e2, e12]. *)
Definition cl2 : CliffordAlgebra :=
  mkAlgebra 2 4 3 [1; 2; 1]
    (fun mv => fold_right (fun x acc => (x * x + acc)%R) 0%R mv)
    (fun v grade =>
       match grade with
       | 0 => firstn 1 v ++ [0; 0; 0]%R
       | 1 => [0%R] ++ v ++ [0%R]
       | _ => [0; 0; 0]%R ++ firstn 1 v
       end).

Definition ones_kernel (sh : list nat) : tensor R :=
  tabulate sh (fun _ => 1%R).

(** Two offset vectors, (0,0) and (1,2), and widths of one half. *)
Definition offsets_example : tensor R :=
  mkTensor [2; 1; 2] [0; 0; 1; 2]%R.

Definition sigma_example : tensor R :=
  tabulate [1; 1; 4] (fun _ => (1 / 2)%R).


(** Raw width parameters sitting on the lower end of the initializer's
    range. *)
Definition zero_width_param : tensor R :=
  mkTensor [1; 1; 3] [0; 0; 0]%R.

Definition zero_composed_width_param : tensor R :=
  mkTensor [1; 1; 3; 3] (repeat 0%R 9).

(** The kernel that multiplies by the scalar 1 at every sampling point,
    the point reflection of the grid, and the grade involution by which the
    reflection acts on the blades of Cl(2,0). *)
Definition identity_kernel {T : Type} (zero one : T) (k : nat) : tensor T :=
  tabulate [4; 4; k; k]
    (fun idx => if nth 0 idx 0 =? nth 1 idx 0 then one else zero).

Definition point_reflection : grid_sym := mkGridSym false true true.

Definition grade_involution {T : Type} (one minus_one : T) (i : nat) : T :=
  if (i =? 1) || (i =? 2) then minus_one else one.

(** The hyperbolic plane algebra Cl(1,1): blades [1, e1, e2, e12] with
    e1^2 = 1 and e2^2 = -1, so that the quadratic form of a multivector
    is x0^2 + x1^2 - x2^2 - x12^2; it takes both signs on vectors. *)
Definition cl11 : CliffordAlgebra :=
  mkAlgebra 2 4 3 [1; 2; 1]
    (fun mv => (nth 0%nat mv 0 * nth 0%nat mv 0
                + nth 1%nat mv 0 * nth 1%nat mv 0
                - nth 2%nat mv 0 * nth 2%nat mv 0
                - nth 3%nat mv 0 * nth 3%nat mv 0)%R)
    (fun v grade =>
       match grade with
       | 0 => firstn 1 v ++ [0; 0; 0]%R
       | 1 => [0%R] ++ v ++ [0%R]
       | _ => [0; 0; 0]%R ++ firstn 1 v
       end).

(** Two offset vectors on either side of the null cone of Cl(1,1), (1,0)
    and (0,1), and widths of one, wider than [sigma_example]. *)
Definition hyperbolic_offsets_example : tensor R :=
  mkTensor [2; 1; 2] [1; 0; 0; 1]%R.


(** A kernel of Cl(2,0) with one output and two input channels: 1 on the
    block of input channel 1 and [c] on the block of input channel 0. *)
Definition two_channel_kernel (c : R) : tensor R :=
  tabulate [4; 8; 3; 3] (fun idx => if nth 1 idx 0 <? 4 then c else 1%R).

(** Multi-index bounds from the bounds on the components in context. *)
Ltac solve_in_range :=
  cbn [in_range];
  repeat match goal with
         | |- context [?x <? ?y] =>
             rewrite (proj2 (Nat.ltb_lt x y)) by (assumption || lia)
         end;
  reflexivity.

Unset Implicit Arguments.

(** * Properties *)

(** ** Error monad *)

Lemma bind_ok {A B : Type} (m : result A) (k : A -> result B) (a : A) :
  m = Ok a -> bind m k = k a.
Proof. intros ->. reflexivity. Qed.

Lemma bind_raises {A B : Type} (m : result A) (k : A -> result B) :
  raises m -> raises (bind m k).
Proof. intros [e ->]. exists e. reflexivity. Qed.

Lemma bind_raises_k {A B : Type} (m : result A) (k : A -> result B) :
  (forall a, m = Ok a -> raises (k a)) -> raises (bind m k).
Proof.
  intros H. destruct m as [a|e]; simpl.
  - apply H. reflexivity.
  - exists e. reflexivity.
Qed.

Lemma raises_not_returns {A : Type} (m : result A) :
  raises m -> ~ returns m.
Proof. intros [e ->] [a H]. discriminate. Qed.

Lemma mapM_ok {A B : Type} (f : A -> result B) (g : A -> B) (l : list A) :
  (forall a, In a l -> f a = Ok (g a)) -> mapM f l = Ok (map g l).
Proof.
  induction l as [|a l IH]; intros H; simpl; [reflexivity|].
  rewrite (H a) by (left; reflexivity). simpl.
  rewrite IH by (intros; apply H; right; assumption). reflexivity.
Qed.

Lemma mapM_inv {A B : Type} (f : A -> result B) (l : list A) (rs : list B) :
  mapM f l = Ok rs ->
  length rs = length l /\
  forall i a b, i < length l -> f (nth i l a) = Ok (nth i rs b).
Proof.
  revert rs. induction l as [|x l IH]; intros rs H; simpl in H.
  - injection H as <-. split; [reflexivity|]. simpl. intros; lia.
  - destruct (f x) as [y|e] eqn:Hx; simpl in H; [|discriminate].
    destruct (mapM f l) as [ys|e] eqn:Hl; simpl in H; [|discriminate].
    injection H as <-. destruct (IH ys eq_refl) as [Hlen Hnth].
    split; [simpl; congruence|].
    intros [|i] a b Hi; simpl; [assumption|].
    apply Hnth. simpl in Hi. lia.
Qed.

(** ** Shapes of the array operations *)

Section ShapeFacts.

Variable T : Type.
Variable zero : T.

Lemma length_tabulate_data (sh : list nat) (f : list nat -> T) :
  length (tabulate_data sh f) = numel sh.
Proof.
  revert f. induction sh as [|d sh IH]; intros f; simpl; [reflexivity|].
  generalize 0 at 1. induction d as [|d IHd]; intros s; simpl; [reflexivity|].
  rewrite length_app, IH, IHd. reflexivity.
Qed.

Lemma wf_tabulate (sh : list nat) (f : list nat -> T) :
  wf_tensor (tabulate sh f).
Proof. apply length_tabulate_data. Qed.

Lemma reshape_inv (sh : list nat) (t r : tensor T) :
  reshape sh t = Ok r -> shape r = sh /\ data r = data t.
Proof.
  unfold reshape. destruct (numel sh =? numel (shape t)); [|discriminate].
  intros H. injection H as <-. split; reflexivity.
Qed.

Lemma reshape_wf (sh : list nat) (t r : tensor T) :
  wf_tensor t -> reshape sh t = Ok r -> wf_tensor r.
Proof.
  unfold reshape, wf_tensor.
  destruct (numel sh =? numel (shape t)) eqn:E; [|discriminate].
  intros Hw H. injection H as <-. simpl. apply Nat.eqb_eq in E. congruence.
Qed.

Lemma transpose_rank (axes : list nat) (t : tensor T) :
  length axes <> rank t -> transpose zero axes t = Raise ValueError.
Proof.
  intros H. unfold transpose, is_permutation.
  apply Nat.eqb_neq in H. rewrite H. reflexivity.
Qed.

Lemma transpose_021345 (t : tensor T) (a b c d e f : nat) :
  shape t = [a; b; c; d; e; f] ->
  exists r, transpose zero [0; 2; 1; 3; 4; 5] t = Ok r /\
            shape r = [a; c; b; d; e; f] /\ wf_tensor r /\
            r = tabulate [a; c; b; d; e; f]
                  (fun idx => get zero t
                     (map (fun x => nth (index_of x [0; 2; 1; 3; 4; 5]) idx 0)
                        (seq 0 6))).
Proof.
  intros Hs. unfold transpose, rank. rewrite Hs. simpl.
  eexists. split; [reflexivity|]. split; [reflexivity|].
  split; [apply wf_tabulate|]. reflexivity.
Qed.

Lemma lax_conv_same_shape (add mul : T -> T -> T) (lhs rhs : tensor T)
    (bn ch h w oc kh kw : nat) :
  shape lhs = [bn; ch; h; w] -> shape rhs = [oc; ch; kh; kw] ->
  0 < kh -> 0 < kw ->
  exists r, lax_conv_same zero add mul lhs rhs = Ok r /\
            shape r = [bn; oc; h; w] /\ wf_tensor r.
Proof.
  intros Hl Hr Hkh Hkw. unfold lax_conv_same. rewrite Hl, Hr.
  rewrite (proj2 (Nat.eqb_neq kh 0)), (proj2 (Nat.eqb_neq kw 0)) by lia.
  cbn [orb]. rewrite Nat.eqb_refl.
  eexists. split; [reflexivity|]. unfold same_pad_total. simpl.
  split; [|apply wf_tabulate].
  f_equal. f_equal. f_equal; [lia|]. f_equal. lia.
Qed.

Lemma shape_zeros (sh : list nat) : shape (zeros zero sh) = sh.
Proof. reflexivity. Qed.

Lemma length_flat_map_const {A B : Type} (f : A -> list B) (l : list A) (m : nat) :
  (forall a, In a l -> length (f a) = m) ->
  length (flat_map f l) = length l * m.
Proof.
  induction l as [|a l IH]; intros H; simpl; [reflexivity|].
  rewrite length_app, H, IH; [reflexivity| |left; reflexivity].
  intros; apply H; right; assumption.
Qed.

(** A function whose outcome is fixed by the shapes of its arguments maps
    over axis 0 to a result with one more leading axis. *)
Lemma vmap_shape (f : tensor T -> tensor T -> result (tensor T))
    (t1 t2 : tensor T) (n : nat) (s1 s2 so : list nat) :
  shape t1 = n :: s1 -> shape t2 = n :: s2 ->
  (forall a b, shape a = s1 -> shape b = s2 ->
     exists r, f a b = Ok r /\ shape r = so /\ wf_tensor r) ->
  exists r, vmap zero f t1 t2 = Ok r /\ shape r = n :: so /\ wf_tensor r.
Proof.
  intros H1 H2 Hf. unfold vmap. rewrite H1, H2, Nat.eqb_refl.
  destruct (Hf (zeros zero s1) (zeros zero s2) eq_refl eq_refl)
    as (p & Hp & Hps & _).
  rewrite Hp. simpl.
  destruct (mapM (fun i => f (slice0 t1 i) (slice0 t2 i)) (seq 0 n))
    as [rs|e] eqn:Hm.
  - simpl. eexists. split; [reflexivity|]. split; [simpl; congruence|].
    unfold wf_tensor. simpl.
    destruct (mapM_inv _ _ _ Hm) as [Hlen Hnth].
    rewrite length_seq in Hlen.
    rewrite (length_flat_map_const data rs (numel so)).
    + rewrite Hlen, Hps. reflexivity.
    + intros a Ha. destruct (In_nth _ _ a Ha) as (i & Hi & <-).
      rewrite length_seq in Hnth.
      specialize (Hnth i 0 a ltac:(lia)).
      destruct (Hf (slice0 t1 (nth i (seq 0 n) 0)) (slice0 t2 (nth i (seq 0 n) 0)))
        as (r & Hr & Hrs & Hrw).
      * unfold slice0. simpl. rewrite H1. reflexivity.
      * unfold slice0. simpl. rewrite H2. reflexivity.
      * rewrite Hr in Hnth. injection Hnth as <-. rewrite <- Hrs. apply Hrw.
  - exfalso.
    assert (Hall : forall i, In i (seq 0 n) ->
              exists r, f (slice0 t1 i) (slice0 t2 i) = Ok r).
    { intros i _.
      destruct (Hf (slice0 t1 i) (slice0 t2 i)) as (r & Hr & _).
      - unfold slice0. simpl. rewrite H1. reflexivity.
      - unfold slice0. simpl. rewrite H2. reflexivity.
      - exists r. exact Hr. }
    clear -Hm Hall. revert e Hm. generalize (seq 0 n) as l, Hall.
    induction l as [|x l IH]; intros Hall' e Hm; simpl in Hm; [discriminate|].
    destruct (Hall' x (or_introl eq_refl)) as [r Hr]. rewrite Hr in Hm.
    simpl in Hm.
    destruct (mapM (fun i => f (slice0 t1 i) (slice0 t2 i)) l) eqn:Hl;
      simpl in Hm; [discriminate|].
    eapply IH; [|reflexivity]. intros; apply Hall'; right; assumption.
Qed.

End ShapeFacts.

(** ** [ckernel.py]: reshapes and the composed kernel *)

Section CKernelFacts.

Variable T : Type.
Variable zero : T.
Variable add mul : T -> T -> T.
Variable algebra : CliffordAlgebra.

Let nb := n_blades algebra.

Lemma floordiv_mul (c b : nat) : 0 < b -> floordiv (c * b) b = Ok c.
Proof.
  intros Hb. unfold floordiv.
  destruct (b =? 0) eqn:E; [apply Nat.eqb_eq in E; lia|].
  rewrite Nat.div_mul by lia. reflexivity.
Qed.

Lemma reshape_mv_tensor_ok (t : tensor T) (co ci : nat) (dims : list nat) :
  0 < nb -> shape t = co * nb :: ci * nb :: dims ->
  reshape_mv_tensor algebra t
  = Ok (mkTensor (co :: nb :: ci :: nb :: dims) (data t)).
Proof.
  intros Hnb Hs. unfold reshape_mv_tensor. rewrite Hs. fold nb.
  rewrite !floordiv_mul by assumption. simpl. unfold reshape. rewrite Hs.
  replace (numel (co :: nb :: ci :: nb :: dims))
    with (numel (co * nb :: ci * nb :: dims)) by (simpl; ring).
  rewrite Nat.eqb_refl. reflexivity.
Qed.

Lemma reshape_mv_tensor_rank (t r : tensor T) :
  reshape_mv_tensor algebra t = Ok r -> rank r = rank t + 2.
Proof.
  unfold reshape_mv_tensor, rank.
  destruct (shape t) as [|A [|B dims]]; try discriminate.
  destruct (floordiv A (n_blades algebra)); [|discriminate].
  destruct (floordiv B (n_blades algebra)); [|discriminate].
  simpl. intros H. apply reshape_inv in H. destruct H as [-> _]. simpl. lia.
Qed.

Lemma reshape_back_ok (t : tensor T) (co ci x y : nat) (dims : list nat) :
  shape t = co :: x :: ci :: y :: dims -> x = nb -> y = nb ->
  reshape_back algebra t = Ok (mkTensor (co * nb :: ci * nb :: dims) (data t)).
Proof.
  intros Hs -> ->. unfold reshape_back. rewrite Hs. fold nb. unfold reshape.
  rewrite Hs.
  replace (numel (co * nb :: ci * nb :: dims))
    with (numel (co :: nb :: ci :: nb :: dims)) by (simpl; ring).
  rewrite Nat.eqb_refl. reflexivity.
Qed.

Lemma conv_kernel_11_shape (a b : tensor T) (k : nat) :
  0 < k -> shape a = [nb; nb; k; k] -> shape b = [nb; nb; k; k] ->
  exists r, _conv_kernel_11 zero add mul a b = Ok r /\
            shape r = [nb; nb; k; k] /\ wf_tensor r.
Proof.
  intros Hk Ha Hb. unfold _conv_kernel_11.
  eapply lax_conv_same_shape; eauto.
Qed.

Lemma conv_kernel_14_shape (a b : tensor T) (ci k : nat) :
  0 < k -> shape a = [ci; nb; nb; k; k] -> shape b = [ci; nb; nb; k; k] ->
  exists r, _conv_kernel_14 zero add mul a b = Ok r /\
            shape r = [ci; nb; nb; k; k] /\ wf_tensor r.
Proof.
  intros Hk Ha Hb. unfold _conv_kernel_14.
  eapply vmap_shape; eauto.
  intros; apply conv_kernel_11_shape; assumption.
Qed.

Lemma conv_kernel_shape (k1 k2 : tensor T) (co ci k : nat) :
  0 < nb -> 0 < k ->
  shape k1 = [co * nb; ci * nb; k; k] ->
  shape k2 = [co * nb; ci * nb; k; k] ->
  exists r, conv_kernel zero add mul algebra k1 k2 = Ok r /\
            shape r = [co * nb; ci * nb; k; k] /\ wf_tensor r.
Proof.
  intros Hnb Hk H1 H2. unfold conv_kernel.
  rewrite (reshape_mv_tensor_ok k1 co ci [k; k] Hnb H1). cbn [bind].
  destruct (transpose_021345 T zero
              (mkTensor [co; nb; ci; nb; k; k] (data k1)) _ _ _ _ _ _ eq_refl)
    as (t1 & Ht1 & Hs1 & _).
  rewrite Ht1. cbn [bind].
  rewrite (reshape_mv_tensor_ok k2 co ci [k; k] Hnb H2). cbn [bind].
  destruct (transpose_021345 T zero
              (mkTensor [co; nb; ci; nb; k; k] (data k2)) _ _ _ _ _ _ eq_refl)
    as (t2 & Ht2 & Hs2 & _).
  rewrite Ht2. cbn [bind].
  destruct (vmap_shape T zero (_conv_kernel_14 zero add mul) t1 t2 _ _ _
              [ci; nb; nb; k; k] Hs1 Hs2)
    as (v & Hv & Hvs & _).
  { intros; apply conv_kernel_14_shape; assumption. }
  rewrite Hv. cbn [bind].
  destruct (transpose_021345 T zero v _ _ _ _ _ _ Hvs) as (t3 & Ht3 & Hs3 & Hw3 & _).
  rewrite Ht3. cbn [bind].
  rewrite (reshape_back_ok t3 _ _ _ _ _ Hs3 eq_refl eq_refl).
  eexists. split; [reflexivity|]. split; [reflexivity|].
  unfold wf_tensor in *. simpl. rewrite Hw3, Hs3. simpl. ring.
Qed.

Lemma conv_kernel_rank (k1 k2 : tensor T) :
  rank k1 <> 4 \/ rank k2 <> 4 ->
  raises (conv_kernel zero add mul algebra k1 k2).
Proof.
  intros H. unfold conv_kernel.
  apply bind_raises_k. intros r1 Hr1.
  destruct (Nat.eq_dec (rank k1) 4) as [E1|E1].
  - apply bind_raises_k. intros t1 _.
    apply bind_raises_k. intros r2 Hr2.
    apply bind_raises. exists ValueError. apply transpose_rank.
    apply reshape_mv_tensor_rank in Hr2. simpl. lia.
  - apply bind_raises. exists ValueError. apply transpose_rank.
    apply reshape_mv_tensor_rank in Hr1. simpl. lia.
Qed.

(** Without a zero-length axis, a leading axis that is no multiple of the
    blade count makes the reshape fail on its size check. *)
Lemma reshape_mv_tensor_mismatch (t : tensor T) (A B : nat) (dims : list nat) :
  shape t = A :: B :: dims -> numel (shape t) <> 0 ->
  ~ Nat.divide nb A \/ ~ Nat.divide nb B ->
  raises (reshape_mv_tensor algebra t).
Proof.
  intros Hs Hne Hdiv. unfold reshape_mv_tensor. rewrite Hs. fold nb.
  unfold floordiv. destruct (nb =? 0) eqn:E.
  { exists ZeroDivisionError. reflexivity. }
  apply Nat.eqb_neq in E. simpl. unfold reshape. rewrite Hs.
  rewrite Hs in Hne. simpl in Hne.
  assert (HA : A / nb * nb <= A) by (rewrite Nat.mul_comm; apply Nat.Div0.mul_div_le).
  assert (HB : B / nb * nb <= B) by (rewrite Nat.mul_comm; apply Nat.Div0.mul_div_le).
  assert (Hlt : A / nb * nb < A \/ B / nb * nb < B).
  { destruct Hdiv as [H|H]; [left|right].
    - destruct (Nat.eq_dec (A / nb * nb) A) as [Eq|]; [|lia].
      exfalso. apply H. exists (A / nb). symmetry. exact Eq.
    - destruct (Nat.eq_dec (B / nb * nb) B) as [Eq|]; [|lia].
      exfalso. apply H. exists (B / nb). symmetry. exact Eq. }
  destruct (numel (A / nb :: nb :: B / nb :: nb :: dims)
            =? numel (A :: B :: dims)) eqn:En.
  - exfalso. apply Nat.eqb_eq in En. simpl in En.
    set (P := numel dims) in *.
    assert (HP : 0 < P) by (destruct P; [rewrite !Nat.mul_0_r in Hne; lia | lia]).
    assert (HA0 : 0 < A) by (destruct A; [simpl in Hne; lia | lia]).
    assert (HB0 : 0 < B)
      by (destruct B; [rewrite Nat.mul_0_l, Nat.mul_0_r in Hne; lia | lia]).
    assert (En' : (A / nb * nb) * (B / nb * nb) * P = A * B * P) by lia.
    apply Nat.mul_cancel_r in En'; [|lia].
    destruct Hlt as [Hlt|Hlt]; nia.
  - exists TypeError. reflexivity.
Qed.

End CKernelFacts.

(** C2. Reshape round-trip: for an algebra with a positive blade count and a
    tensor of shape (A, B, *dims) whose two leading extents are multiples of
    [n_blades], [reshape_back] after [reshape_mv_tensor] returns the very
    same tensor: same shape, same entries. *)
Theorem reshape_round_trip (T : Type) (algebra : CliffordAlgebra)
    (t : tensor T) (A B : nat) (dims : list nat) :
  0 < n_blades algebra ->
  shape t = A :: B :: dims ->
  Nat.divide (n_blades algebra) A ->
  Nat.divide (n_blades algebra) B ->
  (r <- reshape_mv_tensor algebra t ;; reshape_back algebra r) = Ok t.
Proof.
  intros Hnb Hs [co ->] [ci ->].
  rewrite (reshape_mv_tensor_ok T algebra t co ci dims Hnb Hs). cbn [bind].
  erewrite reshape_back_ok by reflexivity.
  destruct t as [sh d]. simpl in *. subst sh. reflexivity.
Qed.

Lemma reshape_round_trip_witness :
  (r <- reshape_mv_tensor cl2 (ones_kernel [4; 8; 3; 3]) ;; reshape_back cl2 r)
  = Ok (ones_kernel [4; 8; 3; 3]).
Proof.
  apply (reshape_round_trip R cl2 (ones_kernel [4; 8; 3; 3]) 4 8 [3; 3]).
  - simpl. lia.
  - reflexivity.
  - exists 1. reflexivity.
  - exists 2. reflexivity.
Defined.

(** C3. Composed-kernel shape: two kernels of shape
    (c_out*n_blades, c_in*n_blades, k, k), with k >= 1 and a positive blade
    count, compose under [conv_kernel] to a well-formed tensor of exactly
    that shape; hence [ComposedCliffordSteerableKernel.__call__] returns that
    shape whenever its two sub-kernels have it. *)
Theorem conv_kernel_preserves_shape (T : Type) (zero : T) (add mul : T -> T -> T)
    (algebra : CliffordAlgebra) (k1 k2 : tensor T) (co ci k : nat) :
  0 < n_blades algebra -> 0 < k ->
  shape k1 = [co * n_blades algebra; ci * n_blades algebra; k; k] ->
  shape k2 = [co * n_blades algebra; ci * n_blades algebra; k; k] ->
  (exists r, conv_kernel zero add mul algebra k1 k2 = Ok r /\
             shape r = [co * n_blades algebra; ci * n_blades algebra; k; k] /\
             wf_tensor r) /\
  (forall (variables : Type)
          (CliffordSteerableKernel : kernel_params -> variables -> result (tensor T))
          (self : kernel_params) (vars1 vars2 : variables),
      CliffordSteerableKernel self vars1 = Ok k1 ->
      CliffordSteerableKernel self vars2 = Ok k2 ->
      exists r,
        ComposedCliffordSteerableKernel_call zero add mul algebra
          CliffordSteerableKernel self vars1 vars2 = Ok r /\
        shape r = [co * n_blades algebra; ci * n_blades algebra; k; k]).
Proof.
  intros Hnb Hk H1 H2.
  destruct (conv_kernel_shape T zero add mul algebra k1 k2 co ci k Hnb Hk H1 H2)
    as (r & Hr & Hs & Hw).
  split.
  - exists r. auto.
  - intros variables CSK self v1 v2 E1 E2.
    exists r. unfold ComposedCliffordSteerableKernel_call.
    rewrite E1, E2. cbn [bind]. auto.
Qed.

Lemma conv_kernel_preserves_shape_witness :
  exists r, conv_kernel 0%R Rplus Rmult cl2
              (ones_kernel [4; 8; 3; 3]) (ones_kernel [4; 8; 3; 3]) = Ok r /\
            shape r = [4; 8; 3; 3] /\ wf_tensor r.
Proof.
  apply (conv_kernel_preserves_shape R 0%R Rplus Rmult cl2
           (ones_kernel [4; 8; 3; 3]) (ones_kernel [4; 8; 3; 3]) 1 2 3).
  - simpl. lia.
  - lia.
  - reflexivity.
  - reflexivity.
Defined.

(** C8, as stated, fails on an empty array: with four blades, an array of
    shape (5, 4, 0) has a leading extent that is no multiple of the blade
    count, and [reshape_mv_tensor] returns an array of shape (1,4,1,4,0). *)
Lemma reshape_mv_tensor_empty_returns :
  ~ Nat.divide (n_blades cl2) 5 /\
  reshape_mv_tensor cl2 (mkTensor [5; 4; 0] (@nil R))
  = Ok (mkTensor [1; 4; 1; 4; 0] (@nil R)).
Proof.
  split.
  - intros [c Hc]. simpl in Hc. lia.
  - reflexivity.
Qed.

(** C8, amended. For an array without a zero-length axis whose leading
    extents are not both multiples of [n_blades], [reshape_mv_tensor] raises
    and returns no tensor; so does [conv_kernel] when either kernel is such
    an array, and so does [ComposedCliffordSteerableKernel.__call__] when
    either sub-kernel is. *)
Theorem shape_mismatch_raises (T : Type) (zero : T) (add mul : T -> T -> T)
    (algebra : CliffordAlgebra) (t : tensor T) (A B : nat) (dims : list nat) :
  shape t = A :: B :: dims ->
  numel (shape t) <> 0 ->
  ~ Nat.divide (n_blades algebra) A \/ ~ Nat.divide (n_blades algebra) B ->
  raises (reshape_mv_tensor algebra t) /\
  (forall k, raises (conv_kernel zero add mul algebra t k)) /\
  (forall k, raises (conv_kernel zero add mul algebra k t)) /\
  (forall (variables : Type)
          (CliffordSteerableKernel : kernel_params -> variables -> result (tensor T))
          (self : kernel_params) (vars1 vars2 : variables),
      CliffordSteerableKernel self vars1 = Ok t \/
      CliffordSteerableKernel self vars2 = Ok t ->
      raises (ComposedCliffordSteerableKernel_call zero add mul algebra
                CliffordSteerableKernel self vars1 vars2)).
Proof.
  intros Hs Hne Hdiv.
  pose proof (reshape_mv_tensor_mismatch T algebra t A B dims Hs Hne Hdiv) as Hr.
  assert (Hl : forall k, raises (conv_kernel zero add mul algebra t k)).
  { intros k. unfold conv_kernel. apply bind_raises. exact Hr. }
  assert (Hrt : forall k, raises (conv_kernel zero add mul algebra k t)).
  { intros k. unfold conv_kernel.
    apply bind_raises_k. intros r1 _. apply bind_raises_k. intros t1 _.
    apply bind_raises. exact Hr. }
  repeat split; auto.
  intros variables CSK self v1 v2 [E|E];
    unfold ComposedCliffordSteerableKernel_call.
  - rewrite E. cbn [bind]. apply bind_raises_k. intros k2 _. apply Hl.
  - apply bind_raises_k. intros k1 _. rewrite E. cbn [bind]. apply Hrt.
Qed.

Lemma shape_mismatch_raises_witness :
  raises (reshape_mv_tensor cl2 (ones_kernel [5; 4; 3; 3])).
Proof.
  apply (shape_mismatch_raises R 0%R Rplus Rmult cl2
           (ones_kernel [5; 4; 3; 3]) 5 4 [3; 3]).
  - reflexivity.
  - simpl. lia.
  - left. intros [c Hc]. simpl in Hc. lia.
Defined.

(** C9. [conv_kernel] is defined for two spatial dimensions only: when
    either kernel has a spatial rank other than 2, the call raises and no
    composed kernel is returned. *)
Theorem conv_kernel_needs_2d (T : Type) (zero : T) (add mul : T -> T -> T)
    (algebra : CliffordAlgebra) (k1 k2 : tensor T) :
  length (spatial_dims k1) <> 2 \/ length (spatial_dims k2) <> 2 ->
  raises (conv_kernel zero add mul algebra k1 k2) /\
  ~ returns (conv_kernel zero add mul algebra k1 k2).
Proof.
  intros H.
  assert (Hr : raises (conv_kernel zero add mul algebra k1 k2)).
  { apply conv_kernel_rank. unfold spatial_dims, rank in *.
    rewrite !length_skipn in H. lia. }
  split; [exact Hr|]. apply raises_not_returns. exact Hr.
Qed.

Lemma conv_kernel_needs_2d_witness :
  raises (conv_kernel 0%R Rplus Rmult cl2
            (ones_kernel [4; 4; 3; 3; 3]) (ones_kernel [4; 4; 3; 3; 3])).
Proof.
  apply (conv_kernel_needs_2d R 0%R Rplus Rmult cl2
           (ones_kernel [4; 4; 3; 3; 3]) (ones_kernel [4; 4; 3; 3; 3])).
  left. simpl. lia.
Defined.

(** ** Indexing facts *)

Section IndexFacts.

Variable T : Type.
Variable zero : T.

Lemma nth_flat_map_uniform (f : nat -> list T) (m n s i j : nat) (d : T) :
  (forall x, s <= x < s + n -> length (f x) = m) ->
  i < n -> j < m ->
  nth (i * m + j) (flat_map f (seq s n)) d = nth j (f (s + i)) d.
Proof.
  revert s i. induction n as [|n IH]; intros s i Hlen Hi Hj; [lia|].
  simpl. destruct i as [|i].
  - rewrite app_nth1 by (rewrite Hlen; lia). simpl.
    rewrite Nat.add_0_r. reflexivity.
  - rewrite app_nth2 by (rewrite Hlen; lia).
    rewrite Hlen by lia.
    replace (S i * m + j - m) with (i * m + j) by lia.
    rewrite IH; [|intros; apply Hlen; lia|lia|lia].
    f_equal. f_equal. lia.
Qed.

Lemma length_flat_map_seq (f : nat -> list T) (m s n : nat) :
  (forall x, s <= x < s + n -> length (f x) = m) ->
  length (flat_map f (seq s n)) = n * m.
Proof.
  intros H. rewrite (length_flat_map_const f (seq s n) m).
  - rewrite length_seq. reflexivity.
  - intros a Ha. apply in_seq in Ha. apply H. lia.
Qed.

Lemma skipn_flat_map_uniform (f : nat -> list T) (m n s i : nat) :
  (forall x, s <= x < s + n -> length (f x) = m) ->
  i <= n ->
  skipn (i * m) (flat_map f (seq s n)) = flat_map f (seq (s + i) (n - i)).
Proof.
  revert s i. induction n as [|n IH]; intros s i Hlen Hi.
  - assert (i = 0) by lia. subst. reflexivity.
  - destruct i as [|i].
    + simpl. rewrite Nat.add_0_r. reflexivity.
    + change (flat_map f (seq s (S n)))
        with (f s ++ flat_map f (seq (S s) n)).
      rewrite skipn_app.
      rewrite skipn_all2 by (rewrite Hlen; lia).
      rewrite Hlen by lia. cbn [app].
      replace (S i * m - m) with (i * m) by lia.
      rewrite IH; [|intros; apply Hlen; lia|lia].
      f_equal. f_equal; lia.
Qed.

Lemma block_flat_map_uniform (f : nat -> list T) (m n i : nat) :
  (forall x, x < n -> length (f x) = m) ->
  i < n ->
  block (flat_map f (seq 0 n)) m i = f i.
Proof.
  intros Hlen Hi. unfold block.
  rewrite skipn_flat_map_uniform; [|intros; apply Hlen; lia|lia].
  destruct (n - i) as [|k] eqn:E; [lia|].
  simpl. rewrite firstn_app.
  rewrite Hlen by lia. rewrite Nat.sub_diag. simpl.
  rewrite app_nil_r. rewrite <- (Hlen i Hi) at 1. apply firstn_all.
Qed.

Lemma length_block (l : list T) (m i : nat) :
  i * m + m <= length l -> length (block l m i) = m.
Proof.
  intros H. unfold block. rewrite length_firstn, length_skipn. lia.
Qed.

Lemma nth_block (l : list T) (m i j : nat) (d : T) :
  j < m -> nth j (block l m i) d = nth (i * m + j) l d.
Proof.
  intros Hj. unfold block.
  rewrite nth_firstn. destruct (j <? m) eqn:E.
  - rewrite nth_skipn. reflexivity.
  - apply Nat.ltb_ge in E. lia.
Qed.

Lemma in_range_length (sh idx : list nat) :
  in_range sh idx = true -> length idx = length sh.
Proof.
  revert idx. induction sh as [|d sh IH]; intros [|i idx] H; simpl in *;
    try discriminate; [reflexivity|].
  apply andb_prop in H. destruct H as [_ H]. f_equal. apply IH. exact H.
Qed.

Lemma offset_lt (sh idx : list nat) :
  in_range sh idx = true -> offset sh idx < numel sh.
Proof.
  revert idx. induction sh as [|d sh IH]; intros [|i idx] H; simpl in *;
    try discriminate; [lia|].
  apply andb_prop in H. destruct H as [Hi H]. apply Nat.ltb_lt in Hi.
  specialize (IH idx H). nia.
Qed.

Lemma nth_tabulate_data (sh idx : list nat) (f : list nat -> T) (d : T) :
  in_range sh idx = true ->
  nth (offset sh idx) (tabulate_data sh f) d = f idx.
Proof.
  revert idx f. induction sh as [|n sh IH]; intros [|i idx] f H; simpl in *;
    try discriminate; [reflexivity|].
  apply andb_prop in H. destruct H as [Hi H]. apply Nat.ltb_lt in Hi.
  rewrite (nth_flat_map_uniform _ (numel sh)).
  - simpl. exact (IH idx (fun idx0 => f (i :: idx0)) H).
  - intros. apply length_tabulate_data.
  - exact Hi.
  - apply offset_lt. exact H.
Qed.

Lemma get_tabulate (sh idx : list nat) (f : list nat -> T) :
  in_range sh idx = true -> get zero (tabulate sh f) idx = f idx.
Proof. intros H. unfold get. simpl. apply nth_tabulate_data. exact H. Qed.

Lemma get_tmap (f : T -> T) (t : tensor T) (idx : list nat) :
  wf_tensor t -> in_range (shape t) idx = true ->
  get zero (tmap f t) idx = f (get zero t idx).
Proof.
  intros Hw Hr. unfold get, tmap. simpl.
  rewrite (nth_indep _ zero (f zero)).
  - apply map_nth.
  - rewrite length_map, Hw. apply offset_lt. exact Hr.
Qed.

Lemma wf_tmap (f : T -> T) (t : tensor T) :
  wf_tensor t -> wf_tensor (tmap f t).
Proof. unfold wf_tensor, tmap. simpl. rewrite length_map. auto. Qed.

(** *** Broadcasting *)

Lemma bindex_clamp (sh idx : list nat) :
  bindex sh idx = clamp sh (skipn (length idx - length sh) idx).
Proof. reflexivity. Qed.

Lemma broadcast_axes_clamp (s1 s2 sh idx : list nat) :
  broadcast_axes s1 s2 = Ok sh -> in_range sh idx = true ->
  in_range s1 (clamp s1 idx) = true /\ in_range s2 (clamp s2 idx) = true.
Proof.
  revert s2 sh idx.
  induction s1 as [|d1 r1 IH]; intros [|d2 r2] sh idx H Hr; simpl in H;
    try discriminate.
  - injection H as <-. destruct idx; [|discriminate]. split; reflexivity.
  - destruct (broadcast_axes r1 r2) as [r|] eqn:Hb; simpl in H; [|discriminate].
    assert (Hcase : exists d, sh = d :: r /\
                      (d1 = d \/ d1 = 1) /\ (d2 = d \/ d2 = 1)).
    { destruct (d1 =? d2) eqn:E12.
      - apply Nat.eqb_eq in E12. injection H as <-. exists d1. auto.
      - destruct (d1 =? 1) eqn:E1.
        + apply Nat.eqb_eq in E1. injection H as <-. exists d2. auto.
        + destruct (d2 =? 1) eqn:E2; [|discriminate].
          apply Nat.eqb_eq in E2. injection H as <-. exists d1. auto. }
    destruct Hcase as (d & -> & Hd1 & Hd2).
    destruct idx as [|i idx]; [discriminate|]. simpl in Hr.
    apply andb_prop in Hr. destruct Hr as [Hi Hr]. apply Nat.ltb_lt in Hi.
    destruct (IH r2 r idx Hb Hr) as [H1 H2].
    unfold clamp in *. simpl. rewrite H1, H2.
    split; apply andb_true_intro; split; try reflexivity; apply Nat.ltb_lt.
    + destruct (d1 =? 1) eqn:E; [apply Nat.eqb_eq in E; lia|].
      apply Nat.eqb_neq in E. destruct Hd1; [lia|contradiction].
    + destruct (d2 =? 1) eqn:E; [apply Nat.eqb_eq in E; lia|].
      apply Nat.eqb_neq in E. destruct Hd2; [lia|contradiction].
Qed.

Lemma broadcast_axes_length (s1 s2 sh : list nat) :
  broadcast_axes s1 s2 = Ok sh -> length sh = length s1.
Proof.
  revert s2 sh. induction s1 as [|d1 r1 IH]; intros [|d2 r2] sh H; simpl in H;
    try discriminate.
  - injection H as <-. reflexivity.
  - destruct (broadcast_axes r1 r2) as [r|] eqn:Hb; simpl in H; [|discriminate].
    specialize (IH r2 r Hb).
    destruct (d1 =? d2); [injection H as <-; simpl; congruence|].
    destruct (d1 =? 1); [injection H as <-; simpl; congruence|].
    destruct (d2 =? 1); [injection H as <-; simpl; congruence|discriminate].
Qed.

Lemma in_range_pad (k : nat) (s idx : list nat) :
  length idx = k + length s ->
  in_range (repeat 1 k ++ s) (clamp (repeat 1 k ++ s) idx) = true ->
  in_range s (clamp s (skipn k idx)) = true.
Proof.
  revert idx. induction k as [|k IH]; intros idx Hl H; simpl in *; [exact H|].
  destruct idx as [|i idx]; [simpl in Hl; lia|].
  unfold clamp in H. simpl in H. apply IH; [simpl in Hl; lia|exact H].
Qed.

Lemma broadcast_shapes_bindex (s1 s2 sh idx : list nat) :
  broadcast_shapes s1 s2 = Ok sh -> in_range sh idx = true ->
  in_range s1 (bindex s1 idx) = true /\ in_range s2 (bindex s2 idx) = true.
Proof.
  unfold broadcast_shapes, pad_shape. intros Hb Hr.
  pose proof (broadcast_axes_length _ _ _ Hb) as Hlen.
  pose proof (in_range_length _ _ Hr) as Hidx.
  rewrite length_app, repeat_length in Hlen.
  destruct (broadcast_axes_clamp _ _ _ _ Hb Hr) as [H1 H2].
  rewrite !bindex_clamp. split.
  - replace (length idx - length s1)
      with (Nat.max (length s1) (length s2) - length s1) by lia.
    apply in_range_pad; [lia|exact H1].
  - replace (length idx - length s2)
      with (Nat.max (length s1) (length s2) - length s2) by lia.
    apply in_range_pad; [lia|exact H2].
Qed.

Lemma get_broadcast2 (op : T -> T -> T) (t1 t2 r : tensor T) (idx : list nat) :
  broadcast2 zero op t1 t2 = Ok r -> in_range (shape r) idx = true ->
  get zero r idx
  = op (get zero t1 (bindex (shape t1) idx)) (get zero t2 (bindex (shape t2) idx)).
Proof.
  unfold broadcast2. destruct (broadcast_shapes (shape t1) (shape t2)) as [sh|];
    simpl; [|discriminate].
  intros H. injection H as <-. simpl. intros Hr.
  rewrite get_tabulate by exact Hr. reflexivity.
Qed.

Lemma broadcast2_ok (op : T -> T -> T) (t1 t2 : tensor T) (sh : list nat) :
  broadcast_shapes (shape t1) (shape t2) = Ok sh ->
  exists r, broadcast2 zero op t1 t2 = Ok r /\ shape r = sh /\ wf_tensor r.
Proof.
  intros H. unfold broadcast2. rewrite H. simpl.
  eexists. split; [reflexivity|]. split; [reflexivity|apply wf_tabulate].
Qed.

End IndexFacts.

(** ** The scalar shell on reals *)

Section ShellReal.

Open Scope R_scope.

Lemma where_ge0_sign_plus (x : R) : where_ge0 x = sign_plus x.
Proof.
  unfold where_ge0, sign_plus.
  destruct (Rge_dec x 0), (Rlt_dec x 0); try reflexivity; lra.
Qed.

Lemma sign_plus_cases (x : R) :
  (0 <= x /\ sign_plus x = 1) \/ (x < 0 /\ sign_plus x = -1).
Proof. unfold sign_plus. destruct (Rlt_dec x 0); [right|left]; split; lra. Qed.

Lemma pow2_pos (s : R) : s <> 0 -> 0 < s ^ 2.
Proof.
  intros H. simpl. rewrite Rmult_1_r. apply (Rsqr_pos_lt s H).
Qed.

Lemma shell_exponent_nonpos (qv sigma : R) :
  sigma <> 0 -> - Rabs qv / (2 * sigma ^ 2) <= 0.
Proof.
  intros Hs. pose proof (Rabs_pos qv) as Hq.
  assert (Hd : 0 < 2 * sigma ^ 2).
  { pose proof (pow2_pos sigma Hs). lra. }
  unfold Rdiv. apply Rinv_0_lt_compat in Hd. nra.
Qed.

Lemma exp_le_1 (x : R) : x <= 0 -> exp x <= 1.
Proof.
  intros [H|H].
  - rewrite <- exp_0. left. apply exp_increasing. exact H.
  - subst. rewrite exp_0. lra.
Qed.

Lemma shell_value_abs (qv sigma : R) :
  Rabs (shell_value qv sigma) = exp (- Rabs qv / (2 * sigma ^ 2)).
Proof.
  unfold shell_value. rewrite Rabs_mult.
  rewrite (Rabs_pos_eq (exp _)) by (left; apply exp_pos).
  destruct (sign_plus_cases qv) as [[_ ->]|[_ ->]].
  - rewrite Rabs_R1. ring.
  - rewrite (Rabs_left (-1)) by lra. ring.
Qed.


Lemma shell_value_bounds (qv sigma : R) :
  sigma <> 0 ->
  -1 <= shell_value qv sigma <= 1 /\
  shell_value qv sigma <> 0 /\
  (0 < shell_value qv sigma <-> qv >= 0).
Proof.
  intros Hs.
  pose proof (exp_pos (- Rabs qv / (2 * sigma ^ 2))) as Hp.
  pose proof (exp_le_1 _ (shell_exponent_nonpos qv sigma Hs)) as H1.
  unfold shell_value.
  destruct (sign_plus_cases qv) as [[Hq ->]|[Hq ->]].
  - repeat split; try lra.
  - repeat split; try lra.
Qed.


End ShellReal.

(** ** Arrays of quadratic forms *)

Section AlongLast.

Variable T : Type.
Variable zero : T.

Lemma numel_app (s1 s2 : list nat) : numel (s1 ++ s2) = numel s1 * numel s2.
Proof.
  induction s1 as [|d s1 IH]; simpl; [lia|]. rewrite IH. ring.
Qed.

Lemma along_last_ok (outer : list nat) (l m : nat) (f : list T -> list T)
    (t : tensor T) :
  shape t = outer ++ [l] ->
  along_last l m f t
  = Ok (mkTensor (outer ++ [m])
          (flat_map (fun i => f (block (data t) l i)) (seq 0 (numel outer)))).
Proof.
  intros Hs. unfold along_last. rewrite Hs.
  rewrite last_last, removelast_last, Nat.eqb_refl.
  destruct outer; reflexivity.
Qed.

Lemma flat_map_singleton {A : Type} (g : A -> T) (l : list A) :
  flat_map (fun i => [g i]) l = map g l.
Proof. induction l as [|a l IH]; simpl; [reflexivity|]. rewrite IH. reflexivity. Qed.

Lemma clamp_id (sh idx : list nat) :
  in_range sh idx = true -> clamp sh idx = idx.
Proof.
  revert idx. induction sh as [|d sh IH]; intros [|i idx] H; simpl in H;
    try discriminate; [reflexivity|].
  apply andb_prop in H. destruct H as [Hi H]. apply Nat.ltb_lt in Hi.
  unfold clamp in *. simpl. rewrite (IH idx H).
  destruct (d =? 1) eqn:E; [|reflexivity].
  apply Nat.eqb_eq in E. f_equal. lia.
Qed.

Lemma bindex_id (sh idx : list nat) :
  in_range sh idx = true -> bindex sh idx = idx.
Proof.
  intros H. unfold bindex. rewrite (in_range_length _ _ H), Nat.sub_diag.
  simpl. apply clamp_id. exact H.
Qed.

Lemma broadcast_axes_absorb (s1 s2 sh : list nat) :
  broadcast_axes s1 s2 = Ok sh -> broadcast_axes s1 sh = Ok sh.
Proof.
  revert s2 sh. induction s1 as [|d1 r1 IH]; intros [|d2 r2] sh H; simpl in H;
    try discriminate.
  - injection H as <-. reflexivity.
  - destruct (broadcast_axes r1 r2) as [r|] eqn:Hb; simpl in H; [|discriminate].
    specialize (IH r2 r Hb).
    destruct (d1 =? d2) eqn:E12.
    + injection H as <-. simpl. rewrite IH. simpl. rewrite Nat.eqb_refl.
      reflexivity.
    + destruct (d1 =? 1) eqn:E1.
      * injection H as <-. simpl. rewrite IH. simpl. rewrite E12, E1.
        reflexivity.
      * destruct (d2 =? 1); [|discriminate].
        injection H as <-. simpl. rewrite IH. simpl. rewrite Nat.eqb_refl.
        reflexivity.
Qed.

Lemma broadcast_shapes_absorb (s1 s2 sh : list nat) :
  broadcast_shapes s1 s2 = Ok sh -> broadcast_shapes s1 sh = Ok sh.
Proof.
  unfold broadcast_shapes. intros H.
  pose proof (broadcast_axes_length _ _ _ H) as Hlen.
  unfold pad_shape in Hlen. rewrite length_app, repeat_length in Hlen.
  apply broadcast_axes_absorb in H.
  replace (Nat.max (length s1) (length sh))
    with (Nat.max (length s1) (length s2)) by lia.
  unfold pad_shape at 2.
  replace (Nat.max (length s1) (length s2) - length sh) with 0%nat by lia.
  exact H.
Qed.

Lemma get_tmap0 (f : T -> T) (t : tensor T) (idx : list nat) :
  f zero = zero -> get zero (tmap f t) idx = f (get zero t idx).
Proof.
  intros H. unfold get, tmap. simpl.
  transitivity (nth (offset (shape t) idx) (map f (data t)) (f zero)).
  - f_equal. symmetry. exact H.
  - apply map_nth.
Qed.

End AlongLast.

Section ShellEntries.

Open Scope R_scope.

Variable a : CliffordAlgebra.
Hypothesis Hwf : wf_algebra a.

Lemma get_map_seq (f : nat -> R) (sh idx : list nat) :
  in_range sh idx = true ->
  get 0 (mkTensor sh (map f (seq 0 (numel sh)))) idx = f (offset sh idx).
Proof.
  intros Hr. unfold get. simpl.
  pose proof (offset_lt _ _ Hr) as Hlt.
  rewrite (nth_indep _ 0 (f 0%nat)) by (rewrite length_map, length_seq; exact Hlt).
  rewrite map_nth, seq_nth by exact Hlt. reflexivity.
Qed.

(** The tail shared by both shell functions, entry by entry. *)
Lemma shell_core (qv sigma : tensor R) (sh : list nat) :
  wf_tensor qv ->
  broadcast_shapes (shape qv) (shape sigma) = Ok sh ->
  exists out,
    (arg <- broadcast2 0 Rdiv (tmap Ropp (tmap Rabs qv))
              (tmap (Rmult 2) (tmap (fun s => s ^ 2) sigma)) ;;
     broadcast2 0 Rmult (tmap where_ge0 qv) (tmap exp arg)) = Ok out /\
    shape out = sh /\ wf_tensor out /\
    forall idx, in_range sh idx = true ->
      get 0 out idx
      = shell_value (get 0 qv (bindex (shape qv) idx))
                    (get 0 sigma (bindex (shape sigma) idx)).
Proof.
  intros Hw Hb.
  destruct (broadcast2_ok R 0 Rdiv (tmap Ropp (tmap Rabs qv))
              (tmap (Rmult 2) (tmap (fun s => s ^ 2) sigma)) sh Hb)
    as (arg & Ha & Has & Haw).
  rewrite Ha. cbn [bind].
  destruct (broadcast2_ok R 0 Rmult (tmap where_ge0 qv) (tmap exp arg) sh)
    as (out & Ho & Hos & How).
  { simpl. rewrite Has. eapply broadcast_shapes_absorb. exact Hb. }
  exists out. repeat split; try assumption.
  intros idx Hr.
  destruct (broadcast_shapes_bindex _ _ _ _ Hb Hr) as [Hq Hs].
  rewrite (get_broadcast2 R 0 Rmult _ _ _ idx Ho) by (rewrite Hos; exact Hr).
  simpl shape. rewrite Has, (bindex_id sh idx Hr).
  rewrite (get_tmap R 0 where_ge0 qv _ Hw Hq).
  rewrite (get_tmap R 0 exp arg idx Haw) by (rewrite Has; exact Hr).
  rewrite (get_broadcast2 R 0 Rdiv _ _ _ idx Ha) by (rewrite Has; exact Hr).
  simpl shape.
  rewrite (get_tmap R 0 Ropp (tmap Rabs qv) _ (wf_tmap R Rabs qv Hw) Hq).
  rewrite (get_tmap R 0 Rabs qv _ Hw Hq).
  rewrite (get_tmap0 R 0 (Rmult 2)) by ring.
  rewrite (get_tmap0 R 0 (fun s => s ^ 2)) by ring.
  unfold shell_value. rewrite where_ge0_sign_plus. reflexivity.
Qed.

Lemma block_in_bounds (v : tensor R) (outer : list nat) (p : nat) :
  wf_tensor v -> shape v = outer ++ [dim a] -> (p < numel outer)%nat ->
  length (block (data v) (dim a) p) = dim a.
Proof.
  intros Hw Hs Hp. apply length_block. rewrite Hw, Hs, numel_app. simpl. nia.
Qed.

Lemma q_of_embed (v : tensor R) (outer : list nat) :
  wf_tensor v -> shape v = outer ++ [dim a] ->
  exists e, embed_grade a v 1 = Ok e /\
            q a e = Ok (mkTensor (outer ++ [1%nat])
                          (map (q_at a v) (seq 0 (numel outer)))).
Proof.
  intros Hw Hs. unfold embed_grade.
  rewrite (along_last_ok R outer _ _ _ v Hs).
  eexists. split; [reflexivity|]. unfold q.
  rewrite (along_last_ok R outer) by reflexivity.
  f_equal. f_equal. simpl data. rewrite flat_map_singleton.
  apply map_ext_in. intros i Hi. apply in_seq in Hi.
  unfold q_at. f_equal.
  apply (block_flat_map_uniform R
           (fun i => embed_grade_mv a (block (data v) (dim a) i) 1)
           (n_blades a) (numel outer) i); [|lia].
  intros x Hx. apply (wf_embed_length Hwf).
  apply (block_in_bounds v outer x Hw Hs Hx).
Qed.

Lemma compute_scalar_shell_entries (v sigma : tensor R) (outer sh : list nat) :
  wf_tensor v -> shape v = outer ++ [dim a] ->
  broadcast_shapes (outer ++ [1%nat]) (shape sigma) = Ok sh ->
  exists out,
    compute_scalar_shell a v sigma = Ok out /\
    shape out = sh /\ wf_tensor out /\
    forall idx, in_range sh idx = true ->
      (offset (outer ++ [1%nat]) (bindex (outer ++ [1%nat]) idx)
       < numel outer)%nat /\
      get 0 out idx
      = shell_value
          (q_at a v (offset (outer ++ [1%nat]) (bindex (outer ++ [1%nat]) idx)))
          (get 0 sigma (bindex (shape sigma) idx)).
Proof.
  intros Hw Hs Hb.
  destruct (q_of_embed v outer Hw Hs) as (e & He & Hq).
  unfold compute_scalar_shell. rewrite He. cbn [bind]. rewrite Hq. cbn [bind].
  set (qv := mkTensor (outer ++ [1%nat]) (map (q_at a v) (seq 0 (numel outer)))).
  assert (Hqw : wf_tensor qv).
  { unfold wf_tensor, qv. simpl. rewrite length_map, length_seq, numel_app.
    simpl. lia. }
  destruct (shell_core qv sigma sh Hqw Hb) as (out & Ho & Hos & How & Hent).
  exists out. repeat split; try assumption.
  - destruct (broadcast_shapes_bindex _ _ _ _ Hb H) as [Hr _].
    apply offset_lt in Hr. rewrite numel_app in Hr. simpl in Hr. lia.
  - rewrite (Hent idx H). f_equal. simpl shape.
    destruct (broadcast_shapes_bindex _ _ _ _ Hb H) as [Hr _].
    unfold qv.
    replace (numel outer) with (numel (outer ++ [1%nat]))
      by (rewrite numel_app; simpl; lia).
    apply get_map_seq. exact Hr.
Qed.

End ShellEntries.

Section ComposedShellEntries.

Open Scope R_scope.

Variable a : CliffordAlgebra.
Hypothesis Hwf : wf_algebra a.

Lemma reshape_infer_column (outer : list nat) (d : list R) :
  reshape_infer [] [1; 1; 1; 1]%nat (mkTensor (outer ++ [1%nat]) d)
  = Ok (mkTensor [numel outer; 1; 1; 1; 1]%nat d).
Proof.
  unfold reshape_infer, reshape. simpl shape.
  replace (numel (outer ++ [1%nat])) with (numel outer)
    by (rewrite numel_app; simpl; lia).
  change (numel [] * numel [1; 1; 1; 1])%nat with 1%nat.
  rewrite Nat.mod_1_r, Nat.div_1_r. cbn [Nat.eqb app].
  replace (numel [numel outer; 1; 1; 1; 1]%nat) with (numel outer)
    by (simpl; lia).
  rewrite Nat.eqb_refl. reflexivity.
Qed.


End ComposedShellEntries.

Lemma Forall_block {T : Type} (P : T -> Prop) (l : list T) (m i : nat) :
  Forall P l -> Forall P (block l m i).
Proof.
  intros H. unfold block.
  assert (Hs : Forall P (skipn (i * m) l)).
  { rewrite <- (firstn_skipn (i * m) l) in H. apply Forall_app in H. tauto. }
  rewrite <- (firstn_skipn m (skipn (i * m) l)) in Hs.
  apply Forall_app in Hs. tauto.
Qed.


Lemma cl2_wf : wf_algebra cl2.
Proof.
  constructor; try reflexivity.
  - intros v Hv. change (length v = 2) in Hv.
    change (n_blades cl2) with 4.
    simpl. rewrite length_app. simpl. lia.
  - simpl. lra.
Qed.

Lemma cl11_wf : wf_algebra cl11.
Proof.
  constructor; try reflexivity.
  - intros v Hv. change (length v = 2) in Hv.
    change (n_blades cl11) with 4.
    simpl. rewrite length_app. simpl. lia.
  - simpl. lra.
Qed.

(** ** [shell.py]: the scalar shell *)

Section ShellClaims.

Open Scope R_scope.







End ShellClaims.

(** ** [jnp.repeat] along an axis *)

Section RepeatFacts.

Variable T : Type.
Variable zero : T.

Lemma offset_app (s1 s2 i1 i2 : list nat) :
  length i1 = length s1 ->
  offset (s1 ++ s2) (i1 ++ i2) = offset s1 i1 * numel s2 + offset s2 i2.
Proof.
  revert i1. induction s1 as [|d s1 IH]; intros [|i i1] Hl; simpl in *;
    try discriminate; [reflexivity|].
  rewrite IH by lia. rewrite numel_app. ring.
Qed.

Lemma in_range_app (s1 s2 i1 i2 : list nat) :
  in_range s1 i1 = true -> in_range s2 i2 = true ->
  in_range (s1 ++ s2) (i1 ++ i2) = true.
Proof.
  revert i1. induction s1 as [|d s1 IH]; intros [|i i1] H1 H2; simpl in *;
    try discriminate; [exact H2|].
  apply andb_prop in H1. destruct H1 as [Hi H1].
  rewrite Hi. simpl. apply IH; assumption.
Qed.

Lemma length_concat_repeat (it : list T) (r : nat) :
  length (concat (repeat it r)) = r * length it.
Proof. induction r as [|r IH]; simpl; [reflexivity|]. rewrite length_app, IH. reflexivity. Qed.

Lemma nth_concat_repeat (it : list T) (r b j : nat) (d : T) :
  b < r -> j < length it ->
  nth (b * length it + j) (concat (repeat it r)) d = nth j it d.
Proof.
  revert b. induction r as [|r IH]; intros b Hb Hj; [lia|].
  simpl. destruct b as [|b].
  - simpl. apply app_nth1. exact Hj.
  - rewrite app_nth2 by (simpl; lia).
    replace (S b * length it + j - length it) with (b * length it + j)
      by (simpl; lia).
    apply IH; lia.
Qed.

Lemma length_repeat_items (items : list (list T)) (reps : list nat) (inner : nat) :
  Forall (fun it => length it = inner) items ->
  length items = length reps ->
  length (repeat_items items reps) = list_sum reps * inner.
Proof.
  revert reps. induction items as [|it items IH]; intros [|r reps] Hall Hl;
    simpl in *; try discriminate; [reflexivity|].
  inversion Hall as [|? ? Hit Hrest]; subst.
  rewrite length_app, length_concat_repeat, (IH reps Hrest) by lia. ring.
Qed.

Lemma grade_of_lt (reps : list nat) (b : nat) :
  b < list_sum reps -> grade_of reps b < length reps.
Proof.
  revert b. induction reps as [|r reps IH]; intros b Hb; simpl in *; [lia|].
  destruct (b <? r) eqn:E; [lia|].
  apply Nat.ltb_ge in E. specialize (IH (b - r)). lia.
Qed.

Lemma nth_repeat_items (items : list (list T)) (reps : list nat)
    (inner b j : nat) (d : T) :
  Forall (fun it => length it = inner) items ->
  length items = length reps ->
  b < list_sum reps -> j < inner ->
  nth (b * inner + j) (repeat_items items reps) d
  = nth j (nth (grade_of reps b) items []) d.
Proof.
  revert reps b. induction items as [|it items IH]; intros [|r reps] b Hall Hl Hb Hj;
    simpl in *; try discriminate; try lia.
  inversion Hall as [|? ? Hit Hrest]; subst.
  destruct (b <? r) eqn:E.
  - apply Nat.ltb_lt in E.
    rewrite app_nth1 by (rewrite length_concat_repeat; nia).
    apply nth_concat_repeat; assumption.
  - apply Nat.ltb_ge in E.
    rewrite app_nth2 by (rewrite length_concat_repeat; nia).
    rewrite length_concat_repeat.
    replace (b * length it + j - r * length it) with ((b - r) * length it + j)
      by nia.
    apply IH; try assumption; lia.
Qed.

Lemma Forall_repeat_items (P : T -> Prop) (items : list (list T)) (reps : list nat) :
  Forall (Forall P) items -> Forall P (repeat_items items reps).
Proof.
  revert reps. induction items as [|it items IH]; intros [|r reps] H; simpl;
    try constructor.
  inversion H as [|? ? Hit Hrest]; subst.
  apply Forall_app. split; [|apply IH; exact Hrest].
  apply Forall_concat. apply Forall_forall. intros x Hx.
  apply repeat_spec in Hx. subst. exact Hit.
Qed.

Lemma reps_single (l : list nat) (n : nat) :
  length l = n -> (if length l =? 1 then repeat (hd 0 l) n else l) = l.
Proof.
  intros <-. destruct l as [|x [|y l]]; reflexivity.
Qed.

(** Entry by entry: position [b] along the repeated axis reads the entry of
    its grade. *)
Lemma jnp_repeat_spec (t : tensor T) (reps pre post : list nat) (axis : Z) :
  wf_tensor t ->
  shape t = pre ++ [length reps] ++ post ->
  normalize_axis axis (rank t) = Ok (length pre) ->
  exists r,
    jnp_repeat t reps axis = Ok r /\
    shape r = pre ++ [list_sum reps] ++ post /\
    wf_tensor r /\
    (forall P : T -> Prop, Forall P (data t) -> Forall P (data r)) /\
    forall ipre b ipost,
      in_range pre ipre = true -> b < list_sum reps ->
      in_range post ipost = true ->
      get zero r (ipre ++ [b] ++ ipost)
      = get zero t (ipre ++ [grade_of reps b] ++ ipost).
Proof.
  intros Hw Hs Hax. unfold jnp_repeat. rewrite Hax. cbn [bind].
  assert (Hn : nth (length pre) (shape t) 0 = length reps).
  { rewrite Hs, app_nth2, Nat.sub_diag by lia. reflexivity. }
  rewrite Hn, (reps_single reps (length reps) eq_refl), Nat.eqb_refl.
  assert (Hpre : firstn (length pre) (shape t) = pre).
  { rewrite Hs, firstn_app, Nat.sub_diag, firstn_all. simpl.
    apply app_nil_r. }
  assert (Hpost : skipn (S (length pre)) (shape t) = post).
  { rewrite Hs, skipn_app, skipn_all2 by lia.
    replace (S (length pre) - length pre) with 1 by lia. reflexivity. }
  rewrite Hpre, Hpost.
  set (n := length reps). set (inner := numel post). set (outer := numel pre).
  set (items := fun o => map (block (data t) inner) (seq (o * n) n)).
  assert (Hlen : length (data t) = outer * (n * inner)).
  { rewrite Hw, Hs, !numel_app. simpl. unfold outer, n, inner. ring. }
  assert (Hitems : forall o, o < outer ->
            Forall (fun it => length it = inner) (items o)).
  { intros o Ho. unfold items. apply Forall_map, Forall_forall.
    intros g Hg. apply in_seq in Hg. apply length_block. rewrite Hlen.
    assert (H1 : (o + 1) * n <= outer * n) by (apply Nat.mul_le_mono_r; lia).
    assert (H2 : S g * inner <= (outer * n) * inner)
      by (apply Nat.mul_le_mono_r; lia).
    simpl in H2. lia. }
  assert (Hblk : forall o, 0 <= o < 0 + outer ->
            length (repeat_items (items o) reps) = list_sum reps * inner).
  { intros o Ho. apply length_repeat_items.
    - apply Hitems. lia.
    - unfold items. rewrite length_map, length_seq. reflexivity. }
  eexists. split; [reflexivity|]. split; [reflexivity|].
  unfold items in Hblk.
  split; [|split].
  - unfold wf_tensor. simpl shape. simpl data.
    rewrite (length_flat_map_seq T _ (list_sum reps * inner) 0 outer Hblk).
    rewrite !numel_app. simpl. fold outer inner. ring.
  - intros P HP. simpl data. apply Forall_flat_map, Forall_forall.
    intros o _. apply Forall_repeat_items. apply Forall_map, Forall_forall.
    intros g _. apply Forall_block. exact HP.
  - intros ipre b ipost Hr1 Hb Hr2. unfold get. simpl shape. simpl data.
    rewrite Hs.
    rewrite !offset_app by (apply in_range_length; assumption).
    pose proof (offset_lt _ _ Hr1) as Ho. fold outer in Ho.
    pose proof (offset_lt _ _ Hr2) as Hj. fold inner in Hj.
    set (o := offset pre ipre) in *. set (j := offset post ipost) in *.
    cbn [app offset].
    change (numel (list_sum reps :: post)) with (list_sum reps * inner).
    change (numel (length reps :: post)) with (n * inner).
    fold inner j.
    pose proof (grade_of_lt reps b Hb) as Hg. fold n in Hg.
    rewrite (nth_flat_map_uniform T _ (list_sum reps * inner) outer 0 o
               (b * inner + j) zero Hblk Ho) by nia.
    cbn beta. rewrite Nat.add_0_l. fold (items o).
    rewrite (nth_repeat_items (items o) reps inner b j zero); try assumption.
    + unfold items.
      rewrite (nth_indep _ [] (block (data t) inner 0))
        by (rewrite length_map, length_seq; exact Hg).
      rewrite map_nth, seq_nth by exact Hg.
      rewrite nth_block by exact Hj. f_equal. fold n. ring.
    + apply Hitems. exact Ho.
    + unfold items. rewrite length_map, length_seq. reflexivity.
Qed.

Lemma seq_shift_add (s n : nat) : seq s n = map (fun x => x + s) (seq 0 n).
Proof.
  revert s. induction n as [|n IH]; intros s; simpl; [reflexivity|].
  f_equal. rewrite (IH (S s)), (IH 1), map_map.
  apply map_ext. intros x. lia.
Qed.

Lemma map_const_seq {A : Type} (f : nat -> A) (c : A) (s r : nat) :
  (forall k, s <= k < s + r -> f k = c) -> map f (seq s r) = repeat c r.
Proof.
  revert s. induction r as [|r IH]; intros s H; simpl; [reflexivity|].
  rewrite H by lia. f_equal. apply IH. intros k Hk. apply H. lia.
Qed.

(** Listing the entries along a repeated axis is listing every grade
    [reps[g]] times. *)
Lemma map_grade_of {A : Type} (F : nat -> A) (reps : list nat) :
  map (fun b => F (grade_of reps b)) (seq 0 (list_sum reps))
  = flat_map (fun g => repeat (F g) (nth g reps 0)) (seq 0 (length reps)).
Proof.
  revert F. induction reps as [|r reps IH]; intros F; [reflexivity|].
  cbn [list_sum length fold_right]. rewrite seq_app, map_app.
  change (seq 0 (S (length reps))) with (0 :: seq 1 (length reps)).
  cbn [flat_map nth]. f_equal.
  - apply map_const_seq. intros k Hk. simpl.
    destruct (k <? r) eqn:E; [reflexivity|]. apply Nat.ltb_ge in E. lia.
  - simpl Nat.add. rewrite (seq_shift_add r), map_map.
    rewrite (seq_shift_add 1 (length reps)), flat_map_concat_map, map_map.
    rewrite <- flat_map_concat_map.
    transitivity (flat_map (fun g => repeat (F (S g)) (nth g reps 0))
                    (seq 0 (length reps))).
    2: { apply flat_map_ext. intros x. rewrite Nat.add_1_r. reflexivity. }
    rewrite <- (IH (fun g => F (S g))).
    apply map_ext. intros x. simpl.
    destruct (x + r <? r) eqn:E; [apply Nat.ltb_lt in E; lia|].
    replace (x + r - r) with x by lia. reflexivity.
Qed.

End RepeatFacts.

(** ** Effective kernel widths *)

Section KernelWidth.

Open Scope R_scope.

Variable a : CliffordAlgebra.
Hypothesis Hwf : wf_algebra a.

Let nb := n_blades a.
Let ns := n_subspaces a.

Lemma reshape_infer_rows (t : tensor R) (x y K : nat) :
  shape t = [x; y; K] -> (0 < K)%nat ->
  reshape_infer [1%nat] [K] t = Ok (mkTensor [1; x * y; K]%nat (data t)).
Proof.
  intros Hs HK. unfold reshape_infer, reshape. rewrite Hs.
  replace (numel [1%nat] * numel [K])%nat with K by (simpl; lia).
  replace (numel [x; y; K]) with (x * y * K)%nat by (simpl; ring).
  destruct (K =? 0)%nat eqn:E; [apply Nat.eqb_eq in E; lia|].
  rewrite Nat.Div0.mod_mul, Nat.div_mul by lia. cbn [Nat.eqb app].
  replace (numel [1; x * y; K]%nat) with (x * y * K)%nat by (simpl; ring).
  rewrite Nat.eqb_refl. reflexivity.
Qed.

Lemma blades_positive : (0 < 2 ^ dim a)%nat.
Proof.
  assert (2 ^ dim a <> 0)%nat by (apply Nat.pow_nonzero; lia). lia.
Qed.

Lemma ScalarShell_kernel_width_spec (self : shell_attrs) (p : tensor R) :
  wf_tensor p ->
  shape p = [shell_c_out self; shell_c_in self; ns] ->
  exists kw,
    ScalarShell_kernel_width a self p = Ok kw /\
    shape kw = [1%nat; (shell_c_out self * shell_c_in self)%nat; nb] /\
    (forall P, Forall P (data p) -> Forall (raised P) (data kw)) /\
    forall o i b,
      (o < shell_c_out self)%nat -> (i < shell_c_in self)%nat -> (b < nb)%nat ->
      get 0 kw [0%nat; (o * shell_c_in self + i)%nat; b]
      = get 0 p [o; i; grade_of (subspaces a) b] + 0.4.
Proof.
  intros Hw Hs. unfold ScalarShell_kernel_width, flax_param. fold ns.
  destruct (list_eq_dec Nat.eq_dec (shape p)
              [shell_c_out self; shell_c_in self; ns]) as [_|Hne];
    [|contradiction].
  cbn [bind].
  set (co := shell_c_out self) in *. set (ci := shell_c_in self) in *.
  set (kw0 := tmap (fun w => w + 0.4) p).
  pose proof (wf_n_subspaces Hwf) as Hlen. fold ns in Hlen.
  pose proof (wf_subspaces Hwf) as Hsum. fold nb in Hsum.
  destruct (jnp_repeat_spec R 0 kw0 (subspaces a) [co; ci] [] (-1)%Z)
    as (kr & Hk & Hks & Hkw & HkP & Hkget).
  { apply wf_tmap. exact Hw. }
  { simpl. rewrite Hs, Hlen. reflexivity. }
  { unfold rank. simpl shape. rewrite Hs. reflexivity. }
  rewrite Hk. cbn [bind]. rewrite Hsum in Hks. simpl in Hks.
  rewrite (reshape_infer_rows kr co ci (2 ^ dim a)).
  2: { rewrite Hks. unfold nb. rewrite (wf_n_blades Hwf). reflexivity. }
  2: { apply blades_positive. }
  rewrite <- (wf_n_blades Hwf). fold nb.
  eexists. split; [reflexivity|]. split; [reflexivity|]. split.
  - intros P HP. simpl data. apply HkP. unfold kw0, tmap. simpl data.
    apply Forall_map. eapply Forall_impl; [|exact HP].
    intros r Hr. exists r. split; [exact Hr|reflexivity].
  - intros o i b Ho Hi Hb.
    transitivity (get 0 kr ([o; i] ++ [b] ++ [])).
    + unfold get. simpl shape. rewrite Hks. f_equal.
      cbn [app offset numel fold_right]. ring.
    + rewrite Hkget; [| solve_in_range | lia | reflexivity].
      cbn [app]. unfold kw0. apply get_tmap; [exact Hw|].
      rewrite Hs.
      pose proof (grade_of_lt (subspaces a) b ltac:(lia)) as Hg.
      rewrite Hlen in Hg. solve_in_range.
Qed.

Lemma ComposedScalarShell_kernel_width_spec (self : shell_attrs) (p : tensor R) :
  wf_tensor p ->
  shape p = [shell_c_out self; shell_c_in self; ns; ns] ->
  exists kw,
    ComposedScalarShell_kernel_width a self p = Ok kw /\
    shape kw = [1%nat; shell_c_out self; shell_c_in self; nb; nb] /\
    (forall P, Forall P (data p) -> Forall (raised P) (data kw)) /\
    forall o i b1 b2,
      (o < shell_c_out self)%nat -> (i < shell_c_in self)%nat ->
      (b1 < nb)%nat -> (b2 < nb)%nat ->
      get 0 kw [0%nat; o; i; b1; b2]
      = get 0 p [o; i; grade_of (subspaces a) b1; grade_of (subspaces a) b2]
        + 0.4.
Proof.
  intros Hw Hs. unfold ComposedScalarShell_kernel_width, flax_param. fold ns.
  destruct (list_eq_dec Nat.eq_dec (shape p)
              [shell_c_out self; shell_c_in self; ns; ns]) as [_|Hne];
    [|contradiction].
  cbn [bind].
  set (co := shell_c_out self) in *. set (ci := shell_c_in self) in *.
  set (kw0 := tmap (fun w => w + 0.4) p).
  pose proof (wf_n_subspaces Hwf) as Hlen. fold ns in Hlen.
  pose proof (wf_subspaces Hwf) as Hsum. fold nb in Hsum.
  destruct (jnp_repeat_spec R 0 kw0 (subspaces a) [co; ci] [ns] (-2)%Z)
    as (k1 & Hk1 & Hks1 & Hkw1 & HkP1 & Hkget1).
  { apply wf_tmap. exact Hw. }
  { simpl. rewrite Hs, Hlen. reflexivity. }
  { unfold rank. simpl shape. rewrite Hs. reflexivity. }
  rewrite Hk1. cbn [bind]. rewrite Hsum in Hks1. simpl in Hks1.
  destruct (jnp_repeat_spec R 0 k1 (subspaces a) [co; ci; nb] [] (-1)%Z)
    as (k2 & Hk2 & Hks2 & Hkw2 & HkP2 & Hkget2).
  { exact Hkw1. }
  { simpl. rewrite Hks1, Hlen. reflexivity. }
  { unfold rank. rewrite Hks1. reflexivity. }
  rewrite Hk2. cbn [bind]. rewrite Hsum in Hks2. simpl in Hks2.
  eexists. split; [reflexivity|]. split; [simpl; rewrite Hks2; reflexivity|].
  split.
  - intros P HP. simpl data. apply HkP2, HkP1. unfold kw0, tmap. simpl data.
    apply Forall_map. eapply Forall_impl; [|exact HP].
    intros r Hr. exists r. split; [exact Hr|reflexivity].
  - intros o i b1 b2 Ho Hi Hb1 Hb2.
    pose proof (grade_of_lt (subspaces a) b1 ltac:(lia)) as Hg1.
    pose proof (grade_of_lt (subspaces a) b2 ltac:(lia)) as Hg2.
    rewrite Hlen in Hg1, Hg2.
    transitivity (get 0 k2 ([o; i; b1] ++ [b2] ++ [])).
    + unfold get. simpl shape. rewrite Hks2.
      f_equal; cbn [app offset numel fold_right]; ring.
    + rewrite Hkget2; [| solve_in_range | lia | reflexivity].
      change ([o; i; b1] ++ [grade_of (subspaces a) b2] ++ [])
        with ([o; i] ++ [b1] ++ [grade_of (subspaces a) b2]).
      rewrite Hkget1; [| solve_in_range | lia | solve_in_range].
      cbn [app]. unfold kw0. apply get_tmap; [exact Hw|].
      rewrite Hs. solve_in_range.
Qed.

End KernelWidth.

Section WidthClaims.

Open Scope R_scope.

(** C6, as stated, fails at the lower end of the initializer's range: a raw
    draw of 0 lies in [0, 0.2) and gives a width of exactly 0.4, which is
    not strictly greater than 0.4. *)
Lemma kernel_width_floor_attained :
  Forall (fun r => 0 <= r < 0.2) (data zero_width_param) /\
  exists kw,
    ScalarShell_kernel_width cl2 (mkShellAttrs 1 1) zero_width_param = Ok kw /\
    ~ Forall (fun w => w > 0.4) (data kw).
Proof.
  split.
  - unfold zero_width_param. simpl. repeat constructor; lra.
  - exists (mkTensor [1; 1; 4]%nat [0 + 0.4; 0 + 0.4; 0 + 0.4; 0 + 0.4]).
    split; [reflexivity|].
    simpl. intros H. inversion H as [|x l Hx _]. lra.
Qed.

(** C6, amended. Right after initialization, for every raw draw in
    [0, 0.2), every entry of the effective width array of [ScalarShell] and
    of [ComposedScalarShell] is at least 0.4 and below 0.6, and it is
    strictly greater than 0.4 when no raw draw is zero. *)
Theorem kernel_width_floor (a : CliffordAlgebra) (self : shell_attrs)
    (p pc : tensor R) :
  wf_algebra a ->
  wf_tensor p ->
  shape p = [shell_c_out self; shell_c_in self; n_subspaces a] ->
  Forall (fun r => 0 <= r < 0.2) (data p) ->
  wf_tensor pc ->
  shape pc = [shell_c_out self; shell_c_in self;
              n_subspaces a; n_subspaces a] ->
  Forall (fun r => 0 <= r < 0.2) (data pc) ->
  (exists kw,
     ScalarShell_kernel_width a self p = Ok kw /\
     Forall (fun w => 0.4 <= w < 0.6) (data kw) /\
     (Forall (fun r => r <> 0) (data p) ->
      Forall (fun w => 0.4 < w) (data kw))) /\
  (exists kw,
     ComposedScalarShell_kernel_width a self pc = Ok kw /\
     Forall (fun w => 0.4 <= w < 0.6) (data kw) /\
     (Forall (fun r => r <> 0) (data pc) ->
      Forall (fun w => 0.4 < w) (data kw))).
Proof.
  intros Hwf Hw Hs Hp Hwc Hsc Hpc. split.
  - destruct (ScalarShell_kernel_width_spec a Hwf self p Hw Hs)
      as (kw & Hk & _ & HP & _).
    exists kw. split; [exact Hk|]. split.
    + eapply Forall_impl; [|apply (HP _ Hp)].
      intros w (r & Hr & ->). lra.
    + intros Hnz. eapply Forall_impl; [|apply (HP _ (Forall_and Hp Hnz))].
      intros w (r & [Hr Hr0] & ->). lra.
  - destruct (ComposedScalarShell_kernel_width_spec a Hwf self pc Hwc Hsc)
      as (kw & Hk & _ & HP & _).
    exists kw. split; [exact Hk|]. split.
    + eapply Forall_impl; [|apply (HP _ Hpc)].
      intros w (r & Hr & ->). lra.
    + intros Hnz. eapply Forall_impl; [|apply (HP _ (Forall_and Hpc Hnz))].
      intros w (r & [Hr Hr0] & ->). lra.
Qed.

Lemma kernel_width_floor_witness :
  (exists kw,
     ScalarShell_kernel_width cl2 (mkShellAttrs 1 1) zero_width_param = Ok kw /\
     Forall (fun w => 0.4 <= w < 0.6) (data kw)) /\
  (exists kw,
     ComposedScalarShell_kernel_width cl2 (mkShellAttrs 1 1)
       zero_composed_width_param = Ok kw /\
     Forall (fun w => 0.4 <= w < 0.6) (data kw)).
Proof.
  assert (Hz : Forall (fun r => 0 <= r < 0.2) (data zero_width_param)).
  { simpl. repeat constructor; lra. }
  assert (Hzc : Forall (fun r => 0 <= r < 0.2) (data zero_composed_width_param)).
  { simpl. repeat constructor; lra. }
  destruct (kernel_width_floor cl2 (mkShellAttrs 1 1) zero_width_param
              zero_composed_width_param cl2_wf eq_refl eq_refl Hz
              eq_refl eq_refl Hzc)
    as [(kw & Hk & Hf & _) (kwc & Hkc & Hfc & _)].
  split; [exists kw|exists kwc]; split; assumption.
Defined.

(** C7. Per-grade width broadcast: the effective width array of
    [ScalarShell] has shape (1, c_out*c_in, n_blades) with
    n_blades = sum(subspaces), and along its last axis the width
    raw + 0.4 of grade g appears exactly [subspaces[g]] times, grade after
    grade; [ComposedScalarShell] repeats in the same way along both of its
    last two axes, giving a (1, c_out, c_in, n_blades, n_blades) array. *)
Theorem kernel_width_per_grade (a : CliffordAlgebra) (self : shell_attrs)
    (p pc : tensor R) :
  wf_algebra a ->
  wf_tensor p ->
  shape p = [shell_c_out self; shell_c_in self; n_subspaces a] ->
  wf_tensor pc ->
  shape pc = [shell_c_out self; shell_c_in self;
              n_subspaces a; n_subspaces a] ->
  n_blades a = list_sum (subspaces a) /\
  (exists kw,
     ScalarShell_kernel_width a self p = Ok kw /\
     shape kw = [1%nat; (shell_c_out self * shell_c_in self)%nat; n_blades a] /\
     forall o i, (o < shell_c_out self)%nat -> (i < shell_c_in self)%nat ->
       map (fun b => get 0 kw [0%nat; (o * shell_c_in self + i)%nat; b])
           (seq 0 (n_blades a))
       = flat_map (fun g => repeat (get 0 p [o; i; g] + 0.4)
                                   (nth g (subspaces a) 0%nat))
                  (seq 0 (n_subspaces a))) /\
  (exists kw,
     ComposedScalarShell_kernel_width a self pc = Ok kw /\
     shape kw = [1%nat; shell_c_out self; shell_c_in self;
                 n_blades a; n_blades a] /\
     forall o i, (o < shell_c_out self)%nat -> (i < shell_c_in self)%nat ->
       map (fun b1 =>
              map (fun b2 => get 0 kw [0%nat; o; i; b1; b2])
                  (seq 0 (n_blades a)))
           (seq 0 (n_blades a))
       = flat_map
           (fun g1 =>
              repeat
                (flat_map (fun g2 => repeat (get 0 pc [o; i; g1; g2] + 0.4)
                                            (nth g2 (subspaces a) 0%nat))
                          (seq 0 (n_subspaces a)))
                (nth g1 (subspaces a) 0%nat))
           (seq 0 (n_subspaces a))).
Proof.
  intros Hwf Hw Hs Hwc Hsc.
  pose proof (wf_subspaces Hwf) as Hsum.
  pose proof (wf_n_subspaces Hwf) as Hlen.
  split; [symmetry; exact Hsum|]. split.
  - destruct (ScalarShell_kernel_width_spec a Hwf self p Hw Hs)
      as (kw & Hk & Hks & _ & Hget).
    exists kw. split; [exact Hk|]. split; [exact Hks|].
    intros o i Ho Hi.
    rewrite <- Hlen, <- (map_grade_of (fun g => get 0 p [o; i; g] + 0.4)).
    rewrite Hsum. apply map_ext_in. intros b Hb. apply in_seq in Hb.
    apply Hget; lia.
  - destruct (ComposedScalarShell_kernel_width_spec a Hwf self pc Hwc Hsc)
      as (kw & Hk & Hks & _ & Hget).
    exists kw. split; [exact Hk|]. split; [exact Hks|].
    intros o i Ho Hi.
    rewrite <- Hlen.
    rewrite <- (map_grade_of
                  (fun g1 => flat_map
                     (fun g2 => repeat (get 0 pc [o; i; g1; g2] + 0.4)
                                       (nth g2 (subspaces a) 0%nat))
                     (seq 0 (length (subspaces a))))).
    rewrite Hsum. apply map_ext_in. intros b1 Hb1. apply in_seq in Hb1.
    rewrite <- (map_grade_of
                  (fun g2 => get 0 pc [o; i; grade_of (subspaces a) b1; g2] + 0.4)).
    rewrite Hsum. apply map_ext_in. intros b2 Hb2. apply in_seq in Hb2.
    apply Hget; lia.
Qed.

Lemma kernel_width_per_grade_witness :
  exists kw,
    ScalarShell_kernel_width cl2 (mkShellAttrs 1 1) zero_width_param = Ok kw /\
    shape kw = [1; 1; 4]%nat.
Proof.
  destruct (kernel_width_per_grade cl2 (mkShellAttrs 1 1) zero_width_param
              zero_composed_width_param cl2_wf eq_refl eq_refl eq_refl eq_refl)
    as (_ & (kw & Hk & Hs & _) & _).
  exists kw. split; assumption.
Defined.

End WidthClaims.

(** ** Entries of the composed kernel *)

Section VmapEntries.

Variable T : Type.
Variable zero : T.

Lemma nth_flat_map_list {A : Type} (g : A -> list T) (l : list A) (m i j : nat)
    (d0 : A) (d : T) :
  (forall x, In x l -> length (g x) = m) ->
  i < length l -> j < m ->
  nth (i * m + j) (flat_map g l) d = nth j (g (nth i l d0)) d.
Proof.
  revert i. induction l as [|x l IH]; intros i Hlen Hi Hj; simpl in *; [lia|].
  destruct i as [|i].
  - apply app_nth1. rewrite Hlen by (left; reflexivity). exact Hj.
  - rewrite app_nth2 by (rewrite Hlen by (left; reflexivity); simpl; lia).
    rewrite Hlen by (left; reflexivity).
    replace (S i * m + j - m) with (i * m + j) by (simpl; lia).
    apply IH; [intros; apply Hlen; right; assumption|lia|exact Hj].
Qed.

Lemma get_slice0 (t : tensor T) (n : nat) (s idx : list nat) (i : nat) :
  shape t = n :: s -> in_range s idx = true ->
  get zero (slice0 t i) idx = get zero t (i :: idx).
Proof.
  intros Hs Hr. unfold get, slice0. simpl shape. simpl data. rewrite Hs.
  cbn [tl offset]. apply nth_block. apply offset_lt. exact Hr.
Qed.

Lemma shape_slice0 (t : tensor T) (n : nat) (s : list nat) (i : nat) :
  shape t = n :: s -> shape (slice0 t i) = s.
Proof. intros Hs. unfold slice0. simpl. rewrite Hs. reflexivity. Qed.

Lemma vmap_entries (f : tensor T -> tensor T -> result (tensor T))
    (t1 t2 : tensor T) (n : nat) (s1 s2 so : list nat) :
  shape t1 = n :: s1 -> shape t2 = n :: s2 ->
  (forall a b, shape a = s1 -> shape b = s2 ->
     exists r, f a b = Ok r /\ shape r = so /\ wf_tensor r) ->
  exists r,
    vmap zero f t1 t2 = Ok r /\ shape r = n :: so /\ wf_tensor r /\
    forall i idx, i < n -> in_range so idx = true ->
      exists ri, f (slice0 t1 i) (slice0 t2 i) = Ok ri /\
                 get zero r (i :: idx) = get zero ri idx.
Proof.
  intros H1 H2 Hf.
  destruct (vmap_shape T zero f t1 t2 n s1 s2 so H1 H2 Hf)
    as (r & Hr & Hrs & Hrw).
  exists r. repeat split; try assumption.
  intros i idx Hi Hidx.
  unfold vmap in Hr. rewrite H1, H2, Nat.eqb_refl in Hr.
  destruct (f (zeros zero s1) (zeros zero s2)) as [p|]; [|discriminate].
  cbn [bind] in Hr.
  destruct (mapM (fun i => f (slice0 t1 i) (slice0 t2 i)) (seq 0 n))
    as [rs|] eqn:Hm; [|discriminate].
  cbn [bind] in Hr. injection Hr as <-.
  destruct (mapM_inv _ _ _ Hm) as [Hlen Hnth].
  rewrite length_seq in Hlen, Hnth.
  destruct (Hf (slice0 t1 i) (slice0 t2 i)
              (shape_slice0 t1 n s1 i H1) (shape_slice0 t2 n s2 i H2))
    as (ri & Hri & Hris & Hriw).
  exists ri. split; [exact Hri|].
  assert (Hrs_i : forall x, In x rs -> length (data x) = numel so).
  { intros x Hx. destruct (In_nth _ _ x Hx) as (j & Hj & <-).
    specialize (Hnth j 0 x ltac:(lia)).
    rewrite seq_nth in Hnth by lia. simpl in Hnth.
    destruct (Hf (slice0 t1 j) (slice0 t2 j)
                (shape_slice0 t1 n s1 j H1) (shape_slice0 t2 n s2 j H2))
      as (rj & Hrj & Hrjs & Hrjw).
    rewrite Hrj in Hnth. injection Hnth as <-. rewrite <- Hrjs. exact Hrjw. }
  specialize (Hnth i 0 ri ltac:(lia)).
  rewrite seq_nth in Hnth by lia. simpl in Hnth.
  rewrite Hri in Hnth. injection Hnth as Hnth.
  unfold get. simpl shape. simpl data. cbn [offset].
  simpl in Hrs. injection Hrs as Hps. rewrite Hps.
  rewrite (nth_flat_map_list data rs (numel so) i (offset so idx) ri zero
             Hrs_i) by (try lia; apply offset_lt; exact Hidx).
  rewrite <- Hnth, Hris. reflexivity.
Qed.

Lemma sum_over_ext (add : T -> T -> T) (n : nat) (f g : nat -> T) :
  (forall i, i < n -> f i = g i) -> sum_over zero add n f = sum_over zero add n g.
Proof.
  intros H. unfold sum_over.
  assert (Hin : forall i, In i (seq 0 n) -> f i = g i)
    by (intros i Hi; apply in_seq in Hi; apply H; lia).
  clear H. induction (seq 0 n) as [|x l IH]; simpl; [reflexivity|].
  rewrite Hin by (left; reflexivity). f_equal.
  apply IH. intros; apply Hin; right; assumption.
Qed.

Lemma lax_conv_same_entries (add mul : T -> T -> T) (lhs rhs : tensor T)
    (bn ch h w oc kh kw : nat) :
  shape lhs = [bn; ch; h; w] -> shape rhs = [oc; ch; kh; kw] ->
  0 < kh -> 0 < kw ->
  exists r,
    lax_conv_same zero add mul lhs rhs = Ok r /\
    shape r = [bn; oc; h; w] /\ wf_tensor r /\
    forall n o y x, n < bn -> o < oc -> y < h -> x < w ->
      get zero r [n; o; y; x]
      = sum_over zero add ch (fun c =>
          sum_over zero add kh (fun dy =>
            sum_over zero add kw (fun dx =>
              mul (padded zero lhs (same_pad_lo kh) (same_pad_lo kw)
                     n c (y + dy) (x + dx))
                  (get zero rhs [o; c; dy; dx])))).
Proof.
  intros Hl Hr Hkh Hkw. unfold lax_conv_same. rewrite Hl, Hr.
  rewrite (proj2 (Nat.eqb_neq kh 0)), (proj2 (Nat.eqb_neq kw 0)) by lia.
  cbn [orb]. rewrite Nat.eqb_refl.
  replace (h + same_pad_total kh + 1 - kh) with h
    by (unfold same_pad_total; lia).
  replace (w + same_pad_total kw + 1 - kw) with w
    by (unfold same_pad_total; lia).
  eexists. split; [reflexivity|]. split; [reflexivity|].
  split; [apply wf_tabulate|].
  intros n o y x Hn Ho Hy Hx.
  rewrite get_tabulate by solve_in_range. reflexivity.
Qed.

End VmapEntries.

Section ConvKernelEntries.

Variable T : Type.
Variable zero : T.
Variable add mul : T -> T -> T.
Variable algebra : CliffordAlgebra.

Let nb := n_blades algebra.

Variables co ci k : nat.
Hypothesis Hnb : 0 < nb.
Hypothesis Hk : 0 < k.

(** The blade-expanded view of a kernel after reshape and transpose. *)
Lemma expanded_view (k1 t1 : tensor T) :
  shape k1 = [co * nb; ci * nb; k; k] ->
  transpose zero [0; 2; 1; 3; 4; 5]
    (mkTensor [co; nb; ci; nb; k; k] (data k1)) = Ok t1 ->
  shape t1 = [co; ci; nb; nb; k; k] /\
  forall m n i j y x,
    m < co -> n < ci -> i < nb -> j < nb -> y < k -> x < k ->
    get zero (slice0 (slice0 t1 m) n) [i; j; y; x]
    = get zero k1 [m * nb + i; n * nb + j; y; x].
Proof.
  intros H1 Ht.
  destruct (transpose_021345 T zero
              (mkTensor [co; nb; ci; nb; k; k] (data k1)) _ _ _ _ _ _ eq_refl)
    as (t & Ht' & Hs & _ & Heq).
  rewrite Ht in Ht'. injection Ht' as <-.
  split; [exact Hs|].
  intros m n i j y x Hm Hn Hi Hj Hy Hx.
  rewrite (get_slice0 T zero (slice0 t1 m) ci [nb; nb; k; k])
    by (try solve_in_range; apply (shape_slice0 T t1 co); exact Hs).
  rewrite (get_slice0 T zero t1 co [ci; nb; nb; k; k])
    by (try solve_in_range; exact Hs).
  rewrite Heq, get_tabulate by solve_in_range.
  cbn [map seq index_of Nat.eqb nth].
  unfold get. simpl shape. simpl data. rewrite H1. f_equal.
  cbn [offset numel fold_right]. ring.
Qed.

Lemma padded_expanded (k1 t1 : tensor T) (m n i j r s : nat) :
  shape k1 = [co * nb; ci * nb; k; k] ->
  shape t1 = [co; ci; nb; nb; k; k] ->
  (forall y x, y < k -> x < k ->
     get zero (slice0 (slice0 t1 m) n) [i; j; y; x]
     = get zero k1 [m * nb + i; n * nb + j; y; x]) ->
  padded zero (slice0 (slice0 t1 m) n) (same_pad_lo k) (same_pad_lo k) i j r s
  = padded zero k1 (same_pad_lo k) (same_pad_lo k)
      (m * nb + i) (n * nb + j) r s.
Proof.
  intros H1 Hs Hget. unfold padded.
  rewrite (shape_slice0 T (slice0 t1 m) ci [nb; nb; k; k] n)
    by (apply (shape_slice0 T t1 co); exact Hs).
  rewrite H1.
  destruct ((same_pad_lo k <=? r) && (r <? same_pad_lo k + k) &&
            (same_pad_lo k <=? s) && (s <? same_pad_lo k + k)) eqn:E;
    [|reflexivity].
  apply andb_prop in E. destruct E as [E E4].
  apply andb_prop in E. destruct E as [E E3].
  apply andb_prop in E. destruct E as [E1 E2].
  apply Nat.leb_le in E1, E3. apply Nat.ltb_lt in E2, E4.
  apply Hget; lia.
Qed.

(** Every entry of the composed kernel is, for its channel pair, the
    SAME-padded cross-correlation of the two kernels summed over the shared
    input blade. *)
Lemma conv_kernel_entries (k1 k2 : tensor T) :
  shape k1 = [co * nb; ci * nb; k; k] ->
  shape k2 = [co * nb; ci * nb; k; k] ->
  exists r,
    conv_kernel zero add mul algebra k1 k2 = Ok r /\
    shape r = [co * nb; ci * nb; k; k] /\
    forall m n i i' y x,
      m < co -> n < ci -> i < nb -> i' < nb -> y < k -> x < k ->
      get zero r [m * nb + i; n * nb + i'; y; x]
      = sum_over zero add nb (fun j =>
          sum_over zero add k (fun dy =>
            sum_over zero add k (fun dx =>
              mul (padded zero k1 (same_pad_lo k) (same_pad_lo k)
                     (m * nb + i) (n * nb + j) (y + dy) (x + dx))
                  (get zero k2 [m * nb + i'; n * nb + j; dy; dx])))).
Proof.
  intros H1 H2. unfold conv_kernel.
  rewrite (reshape_mv_tensor_ok T algebra k1 co ci [k; k] Hnb H1). cbn [bind].
  fold nb.
  destruct (transpose_021345 T zero
              (mkTensor [co; nb; ci; nb; k; k] (data k1)) _ _ _ _ _ _ eq_refl)
    as (t1 & Ht1 & _).
  rewrite Ht1. cbn [bind].
  rewrite (reshape_mv_tensor_ok T algebra k2 co ci [k; k] Hnb H2). cbn [bind].
  fold nb.
  destruct (transpose_021345 T zero
              (mkTensor [co; nb; ci; nb; k; k] (data k2)) _ _ _ _ _ _ eq_refl)
    as (t2 & Ht2 & _).
  rewrite Ht2. cbn [bind].
  destruct (expanded_view k1 t1 H1 Ht1) as [Hs1 Hv1].
  destruct (expanded_view k2 t2 H2 Ht2) as [Hs2 Hv2].
  destruct (vmap_entries T zero (_conv_kernel_14 zero add mul) t1 t2 co
              [ci; nb; nb; k; k] [ci; nb; nb; k; k] [ci; nb; nb; k; k] Hs1 Hs2)
    as (v & Hv & Hvs & Hvw & Hvget).
  { intros; apply conv_kernel_14_shape; assumption. }
  rewrite Hv. cbn [bind].
  destruct (transpose_021345 T zero v _ _ _ _ _ _ Hvs)
    as (t3 & Ht3 & Hs3 & Hw3 & Heq3).
  rewrite Ht3. cbn [bind].
  rewrite (reshape_back_ok T algebra t3 _ _ _ _ _ Hs3 eq_refl eq_refl).
  eexists. split; [reflexivity|]. split; [reflexivity|].
  intros m n i i' y x Hm Hn Hi Hi' Hy Hx.
  (* back through the reshape and the transpose *)
  transitivity (get zero t3 [m; i; n; i'; y; x]).
  { unfold get. simpl shape. simpl data. rewrite Hs3. f_equal. fold nb.
    cbn [offset numel fold_right]. ring. }
  rewrite Heq3, get_tabulate by solve_in_range.
  cbn [map seq index_of Nat.eqb nth].
  (* through the two vmaps *)
  destruct (Hvget m [n; i; i'; y; x] Hm ltac:(solve_in_range))
    as (vm & Hvm & ->).
  unfold _conv_kernel_14 in Hvm.
  destruct (vmap_entries T zero (_conv_kernel_11 zero add mul)
              (slice0 t1 m) (slice0 t2 m) ci
              [nb; nb; k; k] [nb; nb; k; k] [nb; nb; k; k]
              (shape_slice0 T t1 co _ m Hs1) (shape_slice0 T t2 co _ m Hs2))
    as (vm' & Hvm' & _ & _ & Hvmget).
  { intros; apply conv_kernel_11_shape; assumption. }
  rewrite Hvm in Hvm'. injection Hvm' as <-.
  destruct (Hvmget n [i; i'; y; x] Hn ltac:(solve_in_range))
    as (c & Hc & ->).
  (* the convolution itself *)
  unfold _conv_kernel_11 in Hc.
  destruct (lax_conv_same_entries T zero add mul
              (slice0 (slice0 t1 m) n) (slice0 (slice0 t2 m) n)
              nb nb k k nb k k)
    as (c' & Hc' & _ & _ & Hcget); try assumption.
  { apply (shape_slice0 T (slice0 t1 m) ci).
    apply (shape_slice0 T t1 co). exact Hs1. }
  { apply (shape_slice0 T (slice0 t2 m) ci).
    apply (shape_slice0 T t2 co). exact Hs2. }
  rewrite Hc in Hc'. injection Hc' as <-.
  rewrite (Hcget i i' y x Hi Hi' Hy Hx).
  apply sum_over_ext. intros j Hj.
  apply sum_over_ext. intros dy Hdy.
  apply sum_over_ext. intros dx Hdx.
  rewrite (padded_expanded k1 t1 m n i j (y + dy) (x + dx) H1 Hs1)
    by (intros; apply Hv1; assumption).
  rewrite (Hv2 m n i' j dy dx) by assumption.
  reflexivity.
Qed.

End ConvKernelEntries.

(** ** Sums over a commutative ring *)

Lemma perm_of_bijection (g : nat -> nat) (n : nat) :
  (forall i, i < n -> g i < n) ->
  (forall i j, i < n -> j < n -> g i = g j -> i = j) ->
  Permutation (map g (seq 0 n)) (seq 0 n).
Proof.
  intros Hr Hi. apply NoDup_Permutation_bis.
  - apply NoDup_map_NoDup_ForallPairs; [|apply seq_NoDup].
    intros x y Hx Hy. apply in_seq in Hx, Hy. apply Hi; lia.
  - rewrite length_map. lia.
  - intros x Hx. apply in_map_iff in Hx. destruct Hx as (y & <- & Hy).
    apply in_seq in Hy. apply in_seq. specialize (Hr y). lia.
Qed.

Lemma flip_range (b : bool) (k a : nat) : a < k -> flip b k a < k.
Proof. unfold flip. destruct b; lia. Qed.

Lemma flip_inj (b : bool) (k a a' : nat) :
  a < k -> a' < k -> flip b k a = flip b k a' -> a = a'.
Proof. unfold flip. destruct b; lia. Qed.

Lemma act_range (g : grid_sym) (k y x : nat) :
  y < k -> x < k -> act_y g k y x < k /\ act_x g k y x < k.
Proof.
  intros Hy Hx. unfold act_y, act_x.
  split; apply flip_range; destruct (swap g); assumption.
Qed.

Section Sums.

Variable T : Type.
Variables (zero one : T) (add mul sub : T -> T -> T) (opp : T -> T).
Hypothesis Rth : ring_theory zero one add mul sub opp (@eq T).

Add Ring Tring : Rth.

Local Abbreviation lsum f l := (fold_right (fun i acc => add (f i) acc) zero l).
Local Abbreviation sum n f := (sum_over zero add n f).

Lemma lsum_perm (f : nat -> T) (l l' : list nat) :
  Permutation l l' -> lsum f l = lsum f l'.
Proof.
  induction 1 as [|x l l' _ IH|x y l|l l' l'' _ IH1 _ IH2]; simpl.
  - reflexivity.
  - rewrite IH. reflexivity.
  - ring.
  - congruence.
Qed.

Lemma lsum_map (f : nat -> T) (g : nat -> nat) (l : list nat) :
  lsum f (map g l) = lsum (fun i => f (g i)) l.
Proof. induction l as [|x l IH]; simpl; [reflexivity|]. rewrite IH. reflexivity. Qed.

Lemma lsum_scale (c : T) (f : nat -> T) (l : list nat) :
  lsum (fun i => mul c (f i)) l = mul c (lsum f l).
Proof. induction l as [|x l IH]; simpl; [ring|]. rewrite IH. ring. Qed.

Lemma lsum_add (f h : nat -> T) (l : list nat) :
  lsum (fun i => add (f i) (h i)) l = add (lsum f l) (lsum h l).
Proof. induction l as [|x l IH]; simpl; [ring|]. rewrite IH. ring. Qed.

Lemma lsum_zero (l : list nat) : lsum (fun _ => zero) l = zero.
Proof. induction l as [|x l IH]; simpl; [reflexivity|]. rewrite IH. ring. Qed.

Lemma lsum_swap (f : nat -> nat -> T) (l1 l2 : list nat) :
  lsum (fun i => lsum (fun j => f i j) l2) l1
  = lsum (fun j => lsum (fun i => f i j) l1) l2.
Proof.
  induction l1 as [|a l1 IH]; simpl.
  - symmetry. apply lsum_zero.
  - rewrite IH. symmetry. apply lsum_add.
Qed.

Lemma sum_over_scale (c : T) (n : nat) (f : nat -> T) :
  sum n (fun i => mul c (f i)) = mul c (sum n f).
Proof. apply lsum_scale. Qed.

Lemma sum_over_swap (n m : nat) (f : nat -> nat -> T) :
  sum n (fun i => sum m (fun j => f i j))
  = sum m (fun j => sum n (fun i => f i j)).
Proof. apply lsum_swap. Qed.

Lemma sum_over_reindex (g : nat -> nat) (n : nat) (f : nat -> T) :
  (forall i, i < n -> g i < n) ->
  (forall i j, i < n -> j < n -> g i = g j -> i = j) ->
  sum n (fun i => f (g i)) = sum n f.
Proof.
  intros Hr Hi. unfold sum_over. rewrite <- lsum_map.
  apply lsum_perm. apply perm_of_bijection; assumption.
Qed.

Lemma sum_over_flip (b : bool) (k : nat) (f : nat -> T) :
  sum k (fun i => f (flip b k i)) = sum k f.
Proof.
  apply sum_over_reindex.
  - intros. apply flip_range. assumption.
  - intros i j. apply flip_inj.
Qed.

(** Summing over the window in the order given by a grid symmetry. *)
Lemma window_reindex (g : grid_sym) (k : nat) (f : nat -> nat -> T) :
  sum k (fun ey => sum k (fun ex => f (act_y g k ey ex) (act_x g k ey ex)))
  = sum k (fun dy => sum k (fun dx => f dy dx)).
Proof.
  unfold act_y, act_x. destruct (swap g).
  - rewrite sum_over_swap.
    rewrite (sum_over_flip (flip_y g) k
               (fun a => sum k (fun ey => f a (flip (flip_x g) k ey)))).
    apply sum_over_ext. intros dy _.
    apply (sum_over_flip (flip_x g) k (fun b => f dy b)).
  - rewrite (sum_over_flip (flip_y g) k
               (fun a => sum k (fun ex => f a (flip (flip_x g) k ex)))).
    apply sum_over_ext. intros dy _.
    apply (sum_over_flip (flip_x g) k (fun b => f dy b)).
Qed.

End Sums.

(** ** Equivariance of the composed kernel *)

Section PaddedFacts.

Variable T : Type.
Variable zero : T.

Lemma padded_in (lhs : tensor T) (a b h w lo_h lo_w n c r s : nat) :
  shape lhs = [a; b; h; w] ->
  lo_h <= r < lo_h + h -> lo_w <= s < lo_w + w ->
  padded zero lhs lo_h lo_w n c r s = get zero lhs [n; c; r - lo_h; s - lo_w].
Proof.
  intros Hs Hr Hc. unfold padded. rewrite Hs.
  rewrite (proj2 (Nat.leb_le lo_h r)) by lia.
  rewrite (proj2 (Nat.ltb_lt r (lo_h + h))) by lia.
  rewrite (proj2 (Nat.leb_le lo_w s)) by lia.
  rewrite (proj2 (Nat.ltb_lt s (lo_w + w))) by lia.
  reflexivity.
Qed.

Lemma padded_out (lhs : tensor T) (a b h w lo_h lo_w n c r s : nat) :
  shape lhs = [a; b; h; w] ->
  ~ (lo_h <= r < lo_h + h /\ lo_w <= s < lo_w + w) ->
  padded zero lhs lo_h lo_w n c r s = zero.
Proof.
  intros Hs Hn. unfold padded. rewrite Hs.
  destruct ((lo_h <=? r) && (r <? lo_h + h) &&
            (lo_w <=? s) && (s <? lo_w + w)) eqn:E; [|reflexivity].
  exfalso. apply Hn.
  apply andb_prop in E. destruct E as [E E4].
  apply andb_prop in E. destruct E as [E E3].
  apply andb_prop in E. destruct E as [E1 E2].
  apply Nat.leb_le in E1, E3. apply Nat.ltb_lt in E2, E4. lia.
Qed.

End PaddedFacts.

Lemma same_pad_lo_odd (p : nat) : same_pad_lo (2 * p + 1) = p.
Proof.
  unfold same_pad_lo, same_pad_total.
  replace (2 * p + 1 - 1) with (p * 2) by lia. apply Nat.div_mul. lia.
Qed.

Lemma flip_add (b : bool) (k a1 a2 : nat) :
  a1 < k -> a2 < k ->
  flip b k a1 + flip b k a2 = flip b (2 * k - 1) (a1 + a2).
Proof. unfold flip. destruct b; lia. Qed.

(** With an odd extent the zero padding is centred: a reversal of the
    padded axis maps the unpadded window onto itself. *)
Lemma flip_window (b : bool) (p r : nat) :
  r < 2 * (2 * p + 1) - 1 ->
  (p <= flip b (2 * (2 * p + 1) - 1) r < p + (2 * p + 1)
   <-> p <= r < p + (2 * p + 1)) /\
  (p <= r < p + (2 * p + 1) ->
   flip b (2 * (2 * p + 1) - 1) r - p = flip b (2 * p + 1) (r - p)).
Proof. unfold flip. destruct b; lia. Qed.

Section Equivariance.

Variable T : Type.
Variables (zero one : T) (add mul sub : T -> T -> T) (opp : T -> T).
Hypothesis Rth : ring_theory zero one add mul sub opp (@eq T).

Add Ring Tring' : Rth.

Variable algebra : CliffordAlgebra.
Let nb := n_blades algebra.

Variables co ci p : nat.
Let k := 2 * p + 1.

Variable g : grid_sym.
Variable sigma : nat -> nat.
Variable s : nat -> T.
Hypothesis Hact : blade_action one mul nb sigma s.
Hypothesis Hnb : 0 < nb.

Lemma sum_over_scale2 (c : T) (h : nat -> nat -> T) (n : nat) :
  sum_over zero add n (fun a => sum_over zero add n (fun b => mul c (h a b)))
  = mul c (sum_over zero add n (fun a => sum_over zero add n (fun b => h a b))).
Proof.
  rewrite <- (sum_over_scale T zero one add mul sub opp Rth).
  apply sum_over_ext. intros a _.
  apply (sum_over_scale T zero one add mul sub opp Rth).
Qed.

Lemma padded_equivariant (k1 : tensor T) (m n i j y x ey ex : nat) :
  shape k1 = [co * nb; ci * nb; k; k] ->
  equivariant zero mul nb co ci k g sigma s k1 ->
  m < co -> n < ci -> i < nb -> j < nb ->
  y < k -> x < k -> ey < k -> ex < k ->
  padded zero k1 p p (m * nb + i) (n * nb + j)
    (act_y g k y x + act_y g k ey ex) (act_x g k y x + act_x g k ey ex)
  = mul (mul (s i) (s j))
        (padded zero k1 p p (m * nb + sigma i) (n * nb + sigma j)
           (y + ey) (x + ex)).
Proof.
  intros H1 Heq Hm Hn Hi Hj Hy Hx Hey Hex.
  set (r := y + ey). set (t := x + ex).
  assert (Hry : act_y g k y x + act_y g k ey ex
                = flip (flip_y g) (2 * k - 1) (if swap g then t else r)).
  { unfold act_y. rewrite flip_add by (destruct (swap g); assumption).
    destruct (swap g); reflexivity. }
  assert (Hrx : act_x g k y x + act_x g k ey ex
                = flip (flip_x g) (2 * k - 1) (if swap g then r else t)).
  { unfold act_x. rewrite flip_add by (destruct (swap g); assumption).
    destruct (swap g); reflexivity. }
  rewrite Hry, Hrx.
  assert (Hr : r < 2 * k - 1) by (unfold r; lia).
  assert (Ht : t < 2 * k - 1) by (unfold t; lia).
  pose proof (flip_window (flip_y g) p r Hr) as [Wyr Dyr].
  pose proof (flip_window (flip_y g) p t Ht) as [Wyt Dyt].
  pose proof (flip_window (flip_x g) p r Hr) as [Wxr Dxr].
  pose proof (flip_window (flip_x g) p t Ht) as [Wxt Dxt].
  fold k in Wyr, Dyr, Wyt, Dyt, Wxr, Dxr, Wxt, Dxt.
  destruct (le_lt_dec p r) as [Hpr|Hpr];
    [destruct (le_lt_dec (p + k) r) as [Hpr'|Hpr']|];
    try (rewrite (padded_out T zero k1 _ _ _ _ p p _ _ r t H1) by lia;
         rewrite (padded_out T zero k1 _ _ _ _ p p _ _ _ _ H1)
           by (destruct (swap g); lia);
         ring).
  destruct (le_lt_dec p t) as [Hpt|Hpt];
    [destruct (le_lt_dec (p + k) t) as [Hpt'|Hpt']|];
    try (rewrite (padded_out T zero k1 _ _ _ _ p p _ _ r t H1) by lia;
         rewrite (padded_out T zero k1 _ _ _ _ p p _ _ _ _ H1)
           by (destruct (swap g); lia);
         ring).
  rewrite (padded_in T zero k1 _ _ _ _ p p _ _ r t H1) by lia.
  rewrite (padded_in T zero k1 _ _ _ _ p p _ _ _ _ H1)
    by (destruct (swap g); lia).
  rewrite <- (Heq m n i j (r - p) (t - p)) by (try assumption; lia).
  unfold act_y, act_x.
  destruct (swap g).
  - rewrite Dyt, Dxr by lia. reflexivity.
  - rewrite Dyr, Dxt by lia. reflexivity.
Qed.

(** Composition of two equivariant kernels of odd size is equivariant. *)
Lemma composed_equivariant (k1 k2 : tensor T) :
  shape k1 = [co * nb; ci * nb; k; k] ->
  shape k2 = [co * nb; ci * nb; k; k] ->
  equivariant zero mul nb co ci k g sigma s k1 ->
  equivariant zero mul nb co ci k g sigma s k2 ->
  exists r,
    conv_kernel zero add mul algebra k1 k2 = Ok r /\
    shape r = [co * nb; ci * nb; k; k] /\
    equivariant zero mul nb co ci k g sigma s r.
Proof.
  intros H1 H2 E1 E2.
  assert (Hk : 0 < k) by (unfold k; lia).
  destruct (conv_kernel_entries T zero add mul algebra co ci k Hnb Hk k1 k2
              H1 H2) as (r & Hr & Hrs & Hent).
  fold nb in Hent, Hrs.
  exists r. split; [exact Hr|]. split; [exact Hrs|].
  intros m n i i' y x Hm Hn Hi Hi' Hy Hx.
  destruct (act_range g k y x Hy Hx) as [Hay Hax].
  rewrite (Hent m n i i' _ _ Hm Hn Hi Hi' Hay Hax).
  rewrite (Hent m n (sigma i) (sigma i') y x Hm Hn
             (sigma_range Hact Hi) (sigma_range Hact Hi') Hy Hx).
  assert (Hlo : same_pad_lo k = p) by (unfold k; apply same_pad_lo_odd).
  rewrite !Hlo.
  rewrite <- (sum_over_reindex T zero one add mul sub opp Rth sigma nb
                (fun j =>
                   sum_over zero add k (fun dy =>
                     sum_over zero add k (fun dx =>
                       mul (padded zero k1 p p (m * nb + sigma i) (n * nb + j)
                              (y + dy) (x + dx))
                           (get zero k2 [m * nb + sigma i'; n * nb + j; dy; dx])))))
    by (intros; first [ apply (sigma_range Hact); assumption
                      | apply (sigma_inj Hact); assumption ]).
  rewrite <- (sum_over_scale T zero one add mul sub opp Rth).
  apply sum_over_ext. intros j Hj.
  rewrite <- sum_over_scale2.
  rewrite <- (window_reindex T zero one add mul sub opp Rth g k
                (fun dy dx =>
                   mul (padded zero k1 p p (m * nb + i) (n * nb + j)
                          (act_y g k y x + dy) (act_x g k y x + dx))
                       (get zero k2 [m * nb + i'; n * nb + j; dy; dx]))).
  apply sum_over_ext. intros ey Hey.
  apply sum_over_ext. intros ex Hex.
  rewrite (padded_equivariant k1 m n i j y x ey ex H1 E1) by assumption.
  rewrite (E2 m n i' j ey ex) by assumption.
  pose proof (sign_square Hact Hj) as Hsq.
  transitivity
    (mul (mul (mul (s i) (s i')) (mul (s j) (s j)))
         (mul (padded zero k1 p p (m * nb + sigma i) (n * nb + sigma j)
                 (y + ey) (x + ex))
              (get zero k2 [m * nb + sigma i'; n * nb + sigma j; ey; ex]))).
  - ring.
  - rewrite Hsq. ring.
Qed.

End Equivariance.

Section IdentityKernel.

Variable T : Type.
Variables (zero one : T) (add mul sub : T -> T -> T) (opp : T -> T).
Hypothesis Rth : ring_theory zero one add mul sub opp (@eq T).

Add Ring Tring'' : Rth.

Lemma identity_kernel_equivariant (k : nat) (g : grid_sym) (s : nat -> T) :
  (forall i, i < 4 -> mul (s i) (s i) = one) ->
  equivariant zero mul 4 1 1 k g (fun i => i) s (identity_kernel zero one k).
Proof.
  intros Hs m n i j y x Hm Hn Hi Hj Hy Hx.
  assert (m = 0) by lia. assert (n = 0) by lia. subst m n.
  destruct (act_range g k y x Hy Hx) as [Hay Hax].
  cbn [Nat.mul Nat.add]. unfold identity_kernel.
  rewrite !get_tabulate by solve_in_range.
  cbn [nth]. destruct (i =? j) eqn:E.
  - apply Nat.eqb_eq in E. subst j. rewrite (Hs i Hi). ring.
  - ring.
Qed.

Lemma grade_involution_action :
  blade_action one mul 4 (fun i => i) (grade_involution one (opp one)).
Proof.
  constructor.
  - intros i Hi. exact Hi.
  - intros i j _ _ H. exact H.
  - intros i _. unfold grade_involution.
    destruct ((i =? 1) || (i =? 2)); ring.
Qed.

End IdentityKernel.

(** C1. The composition loses equivariance at an even kernel size:
    [conv_kernel] evaluated in Cl(2,0) on the kernel of size 2 that
    multiplies by the scalar 1 at every sampling point, composed with
    itself.  That kernel is equivariant under the point reflection of the
    grid (acting on the blades by the grade involution), and the call
    returns; but the "SAME" padding of a window of even extent is
    one-sided, so the composed kernel is 4 at one end of the diagonal and
    1 at the other, and it is not equivariant.  Nothing in
    [ComposedCliffordSteerableKernel] excludes an even [kernel_size]. *)
Lemma composed_kernel_even_size_not_equivariant :
  blade_action 1%R Rmult 4 (fun i => i) (grade_involution 1%R (- 1)%R) /\
  equivariant 0%R Rmult 4 1 1 2 point_reflection (fun i => i)
    (grade_involution 1%R (- 1)%R) (identity_kernel 0%R 1%R 2) /\
  exists r,
    conv_kernel 0%R Rplus Rmult cl2
      (identity_kernel 0%R 1%R 2) (identity_kernel 0%R 1%R 2) = Ok r /\
    ~ equivariant 0%R Rmult 4 1 1 2 point_reflection (fun i => i)
        (grade_involution 1%R (- 1)%R) r.
Proof.
  split; [|split].
  - apply (grade_involution_action R 0%R 1%R Rplus Rmult Rminus Ropp RTheory).
  - apply (identity_kernel_equivariant R 0%R 1%R Rplus Rmult Rminus Ropp
             RTheory).
    intros i _. unfold grade_involution.
    destruct ((i =? 1) || (i =? 2)); ring.
  - destruct (conv_kernel_entries R 0%R Rplus Rmult cl2 1 1 2
                ltac:(simpl; lia) ltac:(lia)
                (identity_kernel 0%R 1%R 2) (identity_kernel 0%R 1%R 2)
                eq_refl eq_refl)
      as (r & Hr & _ & Hent).
    exists r. split; [exact Hr|]. intros H.
    specialize (H 0 0 0 0 0 0 ltac:(lia) ltac:(lia) ltac:(lia) ltac:(lia)
                  ltac:(lia) ltac:(lia)).
    pose proof (Hent 0 0 0 0 1 1 ltac:(lia) ltac:(lia) ltac:(simpl; lia)
                  ltac:(simpl; lia) ltac:(lia) ltac:(lia)) as E11.
    pose proof (Hent 0 0 0 0 0 0 ltac:(lia) ltac:(lia) ltac:(simpl; lia)
                  ltac:(simpl; lia) ltac:(lia) ltac:(lia)) as E00.
    unfold sum_over, padded, get, identity_kernel in E11, E00.
    simpl in E11, E00.
    unfold act_y, act_x, flip, point_reflection, grade_involution, get in H.
    simpl in H. rewrite E11, E00 in H. lra.
Qed.

(** X18. At an odd kernel size the composition keeps equivariance.  Take a
    symmetry of the sampling grid (axis reversals and the axis exchange)
    acting on the blades by a signed permutation, and two kernels of odd
    size k = 2p+1 and shape (c_out*n_blades, c_in*n_blades, k, k) that are
    equivariant under it.  Then [conv_kernel] returns a kernel of the same
    shape that is equivariant in the same sense, and so does
    [ComposedCliffordSteerableKernel.__call__] whenever its two
    sub-kernels are such kernels. *)
Theorem composed_kernel_equivariant (T : Type) (zero one : T)
    (add mul sub : T -> T -> T) (opp : T -> T)
    (algebra : CliffordAlgebra) (co ci p : nat) (g : grid_sym)
    (sigma : nat -> nat) (s : nat -> T) (k1 k2 : tensor T) :
  ring_theory zero one add mul sub opp (@eq T) ->
  0 < n_blades algebra ->
  blade_action one mul (n_blades algebra) sigma s ->
  shape k1 = [co * n_blades algebra; ci * n_blades algebra;
              2 * p + 1; 2 * p + 1] ->
  shape k2 = [co * n_blades algebra; ci * n_blades algebra;
              2 * p + 1; 2 * p + 1] ->
  equivariant zero mul (n_blades algebra) co ci (2 * p + 1) g sigma s k1 ->
  equivariant zero mul (n_blades algebra) co ci (2 * p + 1) g sigma s k2 ->
  (exists r,
     conv_kernel zero add mul algebra k1 k2 = Ok r /\
     shape r = [co * n_blades algebra; ci * n_blades algebra;
                2 * p + 1; 2 * p + 1] /\
     equivariant zero mul (n_blades algebra) co ci (2 * p + 1) g sigma s r) /\
  (forall (variables : Type)
          (CliffordSteerableKernel : kernel_params -> variables -> result (tensor T))
          (self : kernel_params) (vars1 vars2 : variables),
      CliffordSteerableKernel self vars1 = Ok k1 ->
      CliffordSteerableKernel self vars2 = Ok k2 ->
      exists r,
        ComposedCliffordSteerableKernel_call zero add mul algebra
          CliffordSteerableKernel self vars1 vars2 = Ok r /\
        equivariant zero mul (n_blades algebra) co ci (2 * p + 1) g sigma s r).
Proof.
  intros Rth Hnb Hact H1 H2 E1 E2.
  destruct (composed_equivariant T zero one add mul sub opp Rth algebra
              co ci p g sigma s Hact Hnb k1 k2 H1 H2 E1 E2)
    as (r & Hr & Hrs & Hre).
  split.
  - exists r. auto.
  - intros variables CSK self v1 v2 C1 C2.
    exists r. unfold ComposedCliffordSteerableKernel_call.
    rewrite C1, C2. cbn [bind]. auto.
Qed.

Lemma composed_kernel_equivariant_witness :
  exists r,
    conv_kernel 0%R Rplus Rmult cl2
      (identity_kernel 0%R 1%R 3) (identity_kernel 0%R 1%R 3) = Ok r /\
    shape r = [4; 4; 3; 3] /\
    equivariant 0%R Rmult 4 1 1 3 point_reflection (fun i => i)
      (grade_involution 1%R (- 1)%R) r.
Proof.
  apply (composed_kernel_equivariant R 0%R 1%R Rplus Rmult Rminus Ropp
           cl2 1 1 1 point_reflection (fun i => i)
           (grade_involution 1%R (- 1)%R)
           (identity_kernel 0%R 1%R 3) (identity_kernel 0%R 1%R 3)).
  - exact RTheory.
  - simpl. lia.
  - apply (grade_involution_action R 0%R 1%R Rplus Rmult Rminus Ropp RTheory).
  - reflexivity.
  - reflexivity.
  - apply (identity_kernel_equivariant R 0%R 1%R Rplus Rmult Rminus Ropp
             RTheory).
    intros i _. unfold grade_involution.
    destruct ((i =? 1) || (i =? 2)); ring.
  - apply (identity_kernel_equivariant R 0%R 1%R Rplus Rmult Rminus Ropp
             RTheory).
    intros i _. unfold grade_involution.
    destruct ((i =? 1) || (i =? 2)); ring.
Defined.

(** * Further properties of [ckernel.py] *)

Lemma divide_dec_mul (a b : nat) : a / b * b = a \/ ~ Nat.divide b a.
Proof.
  destruct (Nat.eq_dec (a / b * b) a) as [E|E]; [left; exact E|right].
  intros [c Hc]. subst a. destruct b as [|b].
  - rewrite Nat.mul_0_r in E. simpl in E. lia.
  - rewrite Nat.div_mul in E by lia. lia.
Qed.

Lemma numel_zero_cases (A B : nat) (dims : list nat) :
  numel (A :: B :: dims) = 0 -> A = 0 \/ B = 0 \/ numel dims = 0.
Proof. simpl. intros H. destruct A, B; try lia; simpl in H; nia. Qed.

(** X1. [reshape_mv_tensor] returns a tensor exactly when the array has at
    least two axes, the blade count is positive, and either the array is
    empty or both leading extents are multiples of the blade count. *)
Theorem reshape_mv_tensor_domain (T : Type) (algebra : CliffordAlgebra)
    (t : tensor T) :
  returns (reshape_mv_tensor algebra t) <->
  exists A B dims,
    shape t = A :: B :: dims /\ 0 < n_blades algebra /\
    (numel (shape t) = 0 \/
     (Nat.divide (n_blades algebra) A /\ Nat.divide (n_blades algebra) B)).
Proof.
  set (nb := n_blades algebra). split.
  - intros Hret.
    destruct (shape t) as [|A [|B dims]] eqn:Hs;
      try (destruct Hret as [r Hr]; unfold reshape_mv_tensor in Hr;
           rewrite Hs in Hr; discriminate).
    exists A, B, dims. split; [reflexivity|].
    assert (Hnb : 0 < nb).
    { destruct (Nat.eq_dec nb 0) as [E|E]; [|lia]. exfalso.
      destruct Hret as [r Hr]. unfold reshape_mv_tensor in Hr.
      rewrite Hs in Hr. fold nb in Hr. rewrite E in Hr. discriminate. }
    split; [exact Hnb|].
    destruct (Nat.eq_dec (numel (A :: B :: dims)) 0) as [E|E]; [left; exact E|].
    right.
    destruct (divide_dec_mul A nb) as [HA|HA];
      [destruct (divide_dec_mul B nb) as [HB|HB]|].
    + split; [exists (A / nb)|exists (B / nb)]; symmetry; assumption.
    + exfalso. apply (raises_not_returns _
        (reshape_mv_tensor_mismatch T algebra t A B dims Hs
           ltac:(rewrite Hs; exact E) (or_intror HB))). exact Hret.
    + exfalso. apply (raises_not_returns _
        (reshape_mv_tensor_mismatch T algebra t A B dims Hs
           ltac:(rewrite Hs; exact E) (or_introl HA))). exact Hret.
  - intros (A & B & dims & Hs & Hnb & [Hz|[[co ->] [ci ->]]]).
    + unfold reshape_mv_tensor. rewrite Hs. fold nb. unfold floordiv.
      destruct (nb =? 0) eqn:E; [apply Nat.eqb_eq in E; lia|].
      cbn [bind]. unfold reshape. rewrite Hs. rewrite Hs in Hz. rewrite Hz.
      assert (Hz' : numel (A / nb :: nb :: B / nb :: nb :: dims) = 0).
      { destruct (numel_zero_cases A B dims Hz) as [->|[->|H0]].
        - rewrite Nat.Div0.div_0_l. reflexivity.
        - rewrite Nat.Div0.div_0_l. simpl. lia.
        - simpl. rewrite H0. lia. }
      rewrite Hz'. simpl. eexists. reflexivity.
    + rewrite (reshape_mv_tensor_ok T algebra t co ci dims Hnb Hs).
      eexists. reflexivity.
Qed.

(** X2. Layout of [reshape_mv_tensor]: the blade index is the fast part of
    each fused channel axis, so entry (m, i, n, j, ...) of the result is
    entry (m*n_blades + i, n*n_blades + j, ...) of the argument. *)
Theorem reshape_mv_tensor_layout (T : Type) (algebra : CliffordAlgebra)
    (zero : T) (t : tensor T) (co ci : nat) (dims : list nat) :
  0 < n_blades algebra ->
  shape t = co * n_blades algebra :: ci * n_blades algebra :: dims ->
  exists r,
    reshape_mv_tensor algebra t = Ok r /\
    shape r = co :: n_blades algebra :: ci :: n_blades algebra :: dims /\
    forall m i n j rest,
      get zero r (m :: i :: n :: j :: rest)
      = get zero t (m * n_blades algebra + i :: n * n_blades algebra + j :: rest).
Proof.
  intros Hnb Hs.
  rewrite (reshape_mv_tensor_ok T algebra t co ci dims Hnb Hs).
  eexists. split; [reflexivity|]. split; [reflexivity|].
  intros m i n j rest. unfold get. simpl shape. simpl data. rewrite Hs.
  f_equal. cbn [offset numel fold_right]. fold (numel dims).
  generalize (numel dims) (offset dims rest) (n_blades algebra).
  intros P o b. ring.
Qed.

Lemma reshape_mv_tensor_layout_witness :
  exists r,
    reshape_mv_tensor cl2 (ones_kernel [4; 8; 3; 3]) = Ok r /\
    shape r = [1; 4; 2; 4; 3; 3].
Proof.
  destruct (reshape_mv_tensor_layout R cl2 0%R (ones_kernel [4; 8; 3; 3])
              1 2 [3; 3] ltac:(simpl; lia) eq_refl) as (r & Hr & Hs & _).
  exists r. split; assumption.
Defined.

(** X3. [reshape_back] ignores the two blade axes it unpacks: on a
    non-empty array of shape (M, x, N, y, ...) it returns a tensor exactly
    when x*y = n_blades^2, whether or not x and y are the blade count. *)
Theorem reshape_back_domain (T : Type) (algebra : CliffordAlgebra)
    (t : tensor T) (M x N y : nat) (dims : list nat) :
  shape t = M :: x :: N :: y :: dims ->
  numel (shape t) <> 0 ->
  (returns (reshape_back algebra t) <->
   x * y = n_blades algebra * n_blades algebra).
Proof.
  intros Hs Hne. set (nb := n_blades algebra).
  unfold reshape_back, reshape, returns.
  rewrite Hs. fold nb. rewrite Hs in Hne. simpl in Hne.
  set (P := numel dims) in *.
  assert (HM : M <> 0) by (intros ->; simpl in Hne; lia).
  assert (Hx : x <> 0) by (intros ->; rewrite ?Nat.mul_0_l, ?Nat.mul_0_r in Hne; lia).
  assert (HN : N <> 0)
    by (intros ->; rewrite ?Nat.mul_0_l, ?Nat.mul_0_r in Hne; lia).
  assert (HP : M * N * P <> 0).
  { intros H0. apply Hne.
    replace (M * (x * (N * (y * P)))) with (M * N * P * (x * y)) by ring.
    rewrite H0. reflexivity. }
  assert (Hnum : numel (M * nb :: N * nb :: dims) = M * N * P * (nb * nb))
    by (simpl; fold P; ring).
  assert (Hold : numel (M :: x :: N :: y :: dims) = M * N * P * (x * y))
    by (simpl; fold P; ring).
  rewrite Hnum, Hold. split.
  - intros [r Hr].
    destruct (M * N * P * (nb * nb) =? M * N * P * (x * y)) eqn:E;
      [|discriminate].
    apply Nat.eqb_eq in E. apply Nat.mul_cancel_l in E; [|exact HP].
    symmetry. exact E.
  - intros ->. rewrite Nat.eqb_refl. eexists. reflexivity.
Qed.

Lemma reshape_back_domain_witness :
  returns (reshape_back cl2 (ones_kernel [1; 2; 1; 8; 3; 3])).
Proof.
  apply (reshape_back_domain R cl2 (ones_kernel [1; 2; 1; 8; 3; 3])
           1 2 1 8 [3; 3]).
  - reflexivity.
  - simpl. lia.
  - reflexivity.
Defined.

(** X4. The round trip in the other direction: on an array of shape
    (M, n_blades, N, n_blades, ...), [reshape_mv_tensor] after
    [reshape_back] returns the very same array. *)
Theorem reshape_back_round_trip (T : Type) (algebra : CliffordAlgebra)
    (t : tensor T) (M N : nat) (dims : list nat) :
  0 < n_blades algebra ->
  shape t = M :: n_blades algebra :: N :: n_blades algebra :: dims ->
  (r <- reshape_back algebra t ;; reshape_mv_tensor algebra r) = Ok t.
Proof.
  intros Hnb Hs.
  rewrite (reshape_back_ok T algebra t M N _ _ dims Hs eq_refl eq_refl).
  cbn [bind].
  rewrite (reshape_mv_tensor_ok T algebra
             (mkTensor (M * n_blades algebra :: N * n_blades algebra :: dims)
                (data t)) M N dims Hnb eq_refl).
  destruct t as [sh d]. simpl in *. subst sh. reflexivity.
Qed.

Lemma reshape_back_round_trip_witness :
  (r <- reshape_back cl2 (ones_kernel [1; 4; 2; 4; 3; 3]) ;;
   reshape_mv_tensor cl2 r)
  = Ok (ones_kernel [1; 4; 2; 4; 3; 3]).
Proof.
  apply (reshape_back_round_trip R cl2 (ones_kernel [1; 4; 2; 4; 3; 3])
           1 2 [3; 3]).
  - simpl. lia.
  - reflexivity.
Defined.

(** ** Composition of kernels of different sizes *)

Section ConvKernelGeneral.

Variable T : Type.
Variable zero : T.
Variable add mul : T -> T -> T.
Variable algebra : CliffordAlgebra.

Let nb := n_blades algebra.

Variables co ci h w kh kw : nat.
Hypothesis Hnb : 0 < nb.
Hypothesis Hkh : 0 < kh.
Hypothesis Hkw : 0 < kw.

Lemma expanded_view_hw (k1 t1 : tensor T) (hh ww : nat) :
  shape k1 = [co * nb; ci * nb; hh; ww] ->
  transpose zero [0; 2; 1; 3; 4; 5]
    (mkTensor [co; nb; ci; nb; hh; ww] (data k1)) = Ok t1 ->
  shape t1 = [co; ci; nb; nb; hh; ww] /\
  forall m n i j y x,
    m < co -> n < ci -> i < nb -> j < nb -> y < hh -> x < ww ->
    get zero (slice0 (slice0 t1 m) n) [i; j; y; x]
    = get zero k1 [m * nb + i; n * nb + j; y; x].
Proof.
  intros H1 Ht.
  destruct (transpose_021345 T zero
              (mkTensor [co; nb; ci; nb; hh; ww] (data k1)) _ _ _ _ _ _ eq_refl)
    as (t & Ht' & Hs & _ & Heq).
  rewrite Ht in Ht'. injection Ht' as <-.
  split; [exact Hs|].
  intros m n i j y x Hm Hn Hi Hj Hy Hx.
  rewrite (get_slice0 T zero (slice0 t1 m) ci [nb; nb; hh; ww])
    by (try solve_in_range; apply (shape_slice0 T t1 co); exact Hs).
  rewrite (get_slice0 T zero t1 co [ci; nb; nb; hh; ww])
    by (try solve_in_range; exact Hs).
  rewrite Heq, get_tabulate by solve_in_range.
  cbn [map seq index_of Nat.eqb nth].
  unfold get. simpl shape. simpl data. rewrite H1. f_equal.
  cbn [offset numel fold_right]. ring.
Qed.

Lemma conv_kernel_11_shape_hw (a b : tensor T) :
  shape a = [nb; nb; h; w] -> shape b = [nb; nb; kh; kw] ->
  exists r, _conv_kernel_11 zero add mul a b = Ok r /\
            shape r = [nb; nb; h; w] /\ wf_tensor r.
Proof.
  intros Ha Hb. unfold _conv_kernel_11.
  eapply lax_conv_same_shape; eauto.
Qed.

Lemma conv_kernel_14_shape_hw (a b : tensor T) :
  shape a = [ci; nb; nb; h; w] -> shape b = [ci; nb; nb; kh; kw] ->
  exists r, _conv_kernel_14 zero add mul a b = Ok r /\
            shape r = [ci; nb; nb; h; w] /\ wf_tensor r.
Proof.
  intros Ha Hb. unfold _conv_kernel_14.
  eapply vmap_shape; eauto.
  intros; apply conv_kernel_11_shape_hw; assumption.
Qed.

Lemma padded_expanded_hw (k1 t1 : tensor T) (m n i j r s : nat) :
  shape k1 = [co * nb; ci * nb; h; w] ->
  shape t1 = [co; ci; nb; nb; h; w] ->
  (forall y x, y < h -> x < w ->
     get zero (slice0 (slice0 t1 m) n) [i; j; y; x]
     = get zero k1 [m * nb + i; n * nb + j; y; x]) ->
  padded zero (slice0 (slice0 t1 m) n) (same_pad_lo kh) (same_pad_lo kw) i j r s
  = padded zero k1 (same_pad_lo kh) (same_pad_lo kw)
      (m * nb + i) (n * nb + j) r s.
Proof.
  intros H1 Hs Hget. unfold padded.
  rewrite (shape_slice0 T (slice0 t1 m) ci [nb; nb; h; w] n)
    by (apply (shape_slice0 T t1 co); exact Hs).
  rewrite H1.
  destruct ((same_pad_lo kh <=? r) && (r <? same_pad_lo kh + h) &&
            (same_pad_lo kw <=? s) && (s <? same_pad_lo kw + w)) eqn:E;
    [|reflexivity].
  apply andb_prop in E. destruct E as [E E4].
  apply andb_prop in E. destruct E as [E E3].
  apply andb_prop in E. destruct E as [E1 E2].
  apply Nat.leb_le in E1, E3. apply Nat.ltb_lt in E2, E4.
  apply Hget; lia.
Qed.

Lemma conv_kernel_entries_hw (k1 k2 : tensor T) :
  shape k1 = [co * nb; ci * nb; h; w] ->
  shape k2 = [co * nb; ci * nb; kh; kw] ->
  exists r,
    conv_kernel zero add mul algebra k1 k2 = Ok r /\
    shape r = [co * nb; ci * nb; h; w] /\ wf_tensor r /\
    forall m n i i' y x,
      m < co -> n < ci -> i < nb -> i' < nb -> y < h -> x < w ->
      get zero r [m * nb + i; n * nb + i'; y; x]
      = sum_over zero add nb (fun j =>
          sum_over zero add kh (fun dy =>
            sum_over zero add kw (fun dx =>
              mul (padded zero k1 (same_pad_lo kh) (same_pad_lo kw)
                     (m * nb + i) (n * nb + j) (y + dy) (x + dx))
                  (get zero k2 [m * nb + i'; n * nb + j; dy; dx])))).
Proof.
  intros H1 H2. unfold conv_kernel.
  rewrite (reshape_mv_tensor_ok T algebra k1 co ci [h; w] Hnb H1). cbn [bind].
  fold nb.
  destruct (transpose_021345 T zero
              (mkTensor [co; nb; ci; nb; h; w] (data k1)) _ _ _ _ _ _ eq_refl)
    as (t1 & Ht1 & _).
  rewrite Ht1. cbn [bind].
  rewrite (reshape_mv_tensor_ok T algebra k2 co ci [kh; kw] Hnb H2). cbn [bind].
  fold nb.
  destruct (transpose_021345 T zero
              (mkTensor [co; nb; ci; nb; kh; kw] (data k2)) _ _ _ _ _ _ eq_refl)
    as (t2 & Ht2 & _).
  rewrite Ht2. cbn [bind].
  destruct (expanded_view_hw k1 t1 h w H1 Ht1) as [Hs1 Hv1].
  destruct (expanded_view_hw k2 t2 kh kw H2 Ht2) as [Hs2 Hv2].
  destruct (vmap_entries T zero (_conv_kernel_14 zero add mul) t1 t2 co
              [ci; nb; nb; h; w] [ci; nb; nb; kh; kw] [ci; nb; nb; h; w]
              Hs1 Hs2)
    as (v & Hv & Hvs & Hvw & Hvget).
  { intros; apply conv_kernel_14_shape_hw; assumption. }
  rewrite Hv. cbn [bind].
  destruct (transpose_021345 T zero v _ _ _ _ _ _ Hvs)
    as (t3 & Ht3 & Hs3 & Hw3 & Heq3).
  rewrite Ht3. cbn [bind].
  rewrite (reshape_back_ok T algebra t3 _ _ _ _ _ Hs3 eq_refl eq_refl).
  eexists. split; [reflexivity|]. split; [reflexivity|]. split.
  { unfold wf_tensor in *. simpl. rewrite Hw3, Hs3. simpl. fold nb. ring. }
  intros m n i i' y x Hm Hn Hi Hi' Hy Hx.
  transitivity (get zero t3 [m; i; n; i'; y; x]).
  { unfold get. simpl shape. simpl data. rewrite Hs3. f_equal. fold nb.
    cbn [offset numel fold_right]. ring. }
  rewrite Heq3, get_tabulate by solve_in_range.
  cbn [map seq index_of Nat.eqb nth].
  destruct (Hvget m [n; i; i'; y; x] Hm ltac:(solve_in_range))
    as (vm & Hvm & ->).
  unfold _conv_kernel_14 in Hvm.
  destruct (vmap_entries T zero (_conv_kernel_11 zero add mul)
              (slice0 t1 m) (slice0 t2 m) ci
              [nb; nb; h; w] [nb; nb; kh; kw] [nb; nb; h; w]
              (shape_slice0 T t1 co _ m Hs1) (shape_slice0 T t2 co _ m Hs2))
    as (vm' & Hvm' & _ & _ & Hvmget).
  { intros; apply conv_kernel_11_shape_hw; assumption. }
  rewrite Hvm in Hvm'. injection Hvm' as <-.
  destruct (Hvmget n [i; i'; y; x] Hn ltac:(solve_in_range))
    as (c & Hc & ->).
  unfold _conv_kernel_11 in Hc.
  destruct (lax_conv_same_entries T zero add mul
              (slice0 (slice0 t1 m) n) (slice0 (slice0 t2 m) n)
              nb nb h w nb kh kw)
    as (c' & Hc' & _ & _ & Hcget); try assumption.
  { apply (shape_slice0 T (slice0 t1 m) ci).
    apply (shape_slice0 T t1 co). exact Hs1. }
  { apply (shape_slice0 T (slice0 t2 m) ci).
    apply (shape_slice0 T t2 co). exact Hs2. }
  rewrite Hc in Hc'. injection Hc' as <-.
  rewrite (Hcget i i' y x Hi Hi' Hy Hx).
  apply sum_over_ext. intros j Hj.
  apply sum_over_ext. intros dy Hdy.
  apply sum_over_ext. intros dx Hdx.
  rewrite (padded_expanded_hw k1 t1 m n i j (y + dy) (x + dx) H1 Hs1)
    by (intros; apply Hv1; assumption).
  rewrite (Hv2 m n i' j dy dx) by assumption.
  reflexivity.
Qed.

End ConvKernelGeneral.

(** X5. Entries of the composed kernel, also for kernels of different
    sizes: when k1 has spatial size h-by-w and k2 has size kh-by-kw, the
    result has the shape of k1, and its entry at output blades (i, i') of
    channel pair (m, n) is the zero-padded ("SAME") cross-correlation of
    the two blocks of that channel pair, summed over the shared input
    blade j. *)
Theorem conv_kernel_cross_correlation (T : Type) (zero : T)
    (add mul : T -> T -> T) (algebra : CliffordAlgebra)
    (co ci h w kh kw : nat) (k1 k2 : tensor T) :
  0 < n_blades algebra -> 0 < kh -> 0 < kw ->
  shape k1 = [co * n_blades algebra; ci * n_blades algebra; h; w] ->
  shape k2 = [co * n_blades algebra; ci * n_blades algebra; kh; kw] ->
  exists r,
    conv_kernel zero add mul algebra k1 k2 = Ok r /\
    shape r = [co * n_blades algebra; ci * n_blades algebra; h; w] /\
    wf_tensor r /\
    forall m n i i' y x,
      m < co -> n < ci -> i < n_blades algebra -> i' < n_blades algebra ->
      y < h -> x < w ->
      get zero r [m * n_blades algebra + i; n * n_blades algebra + i'; y; x]
      = sum_over zero add (n_blades algebra) (fun j =>
          sum_over zero add kh (fun dy =>
            sum_over zero add kw (fun dx =>
              mul (padded zero k1 (same_pad_lo kh) (same_pad_lo kw)
                     (m * n_blades algebra + i) (n * n_blades algebra + j)
                     (y + dy) (x + dx))
                  (get zero k2 [m * n_blades algebra + i';
                                n * n_blades algebra + j; dy; dx])))).
Proof.
  intros Hnb Hkh Hkw H1 H2.
  exact (conv_kernel_entries_hw T zero add mul algebra co ci h w kh kw
           Hnb Hkh Hkw k1 k2 H1 H2).
Qed.

Lemma conv_kernel_cross_correlation_witness :
  exists r,
    conv_kernel 0%R Rplus Rmult cl2
      (ones_kernel [4; 8; 5; 5]) (ones_kernel [4; 8; 3; 3]) = Ok r /\
    shape r = [4; 8; 5; 5].
Proof.
  destruct (conv_kernel_cross_correlation R 0%R Rplus Rmult cl2 1 2 5 5 3 3
              (ones_kernel [4; 8; 5; 5]) (ones_kernel [4; 8; 3; 3])
              ltac:(simpl; lia) ltac:(lia) ltac:(lia) eq_refl eq_refl)
    as (r & Hr & Hs & _).
  exists r. split; assumption.
Defined.

(** X6. Kernels whose channel counts differ cannot be composed: if the
    output-channel counts or the input-channel counts of k1 and k2 differ,
    [conv_kernel] raises a ValueError (from the vectorised map, before any
    convolution is evaluated on data). *)
Theorem conv_kernel_channel_mismatch (T : Type) (zero : T)
    (add mul : T -> T -> T) (algebra : CliffordAlgebra)
    (co ci co' ci' h w kh kw : nat) (k1 k2 : tensor T) :
  0 < n_blades algebra ->
  shape k1 = [co * n_blades algebra; ci * n_blades algebra; h; w] ->
  shape k2 = [co' * n_blades algebra; ci' * n_blades algebra; kh; kw] ->
  co <> co' \/ ci <> ci' ->
  conv_kernel zero add mul algebra k1 k2 = Raise ValueError.
Proof.
  intros Hnb H1 H2 Hne. unfold conv_kernel.
  rewrite (reshape_mv_tensor_ok T algebra k1 co ci [h; w] Hnb H1). cbn [bind].
  destruct (transpose_021345 T zero
              (mkTensor [co; n_blades algebra; ci; n_blades algebra; h; w]
                 (data k1)) _ _ _ _ _ _ eq_refl)
    as (t1 & Ht1 & Hs1 & _).
  rewrite Ht1. cbn [bind].
  rewrite (reshape_mv_tensor_ok T algebra k2 co' ci' [kh; kw] Hnb H2).
  cbn [bind].
  destruct (transpose_021345 T zero
              (mkTensor [co'; n_blades algebra; ci'; n_blades algebra; kh; kw]
                 (data k2)) _ _ _ _ _ _ eq_refl)
    as (t2 & Ht2 & Hs2 & _).
  rewrite Ht2. cbn [bind].
  unfold vmap at 1. rewrite Hs1, Hs2.
  destruct (co =? co') eqn:E; [|reflexivity].
  apply Nat.eqb_eq in E.
  assert (Hci : (ci =? ci') = false) by (apply Nat.eqb_neq; lia).
  unfold _conv_kernel_14 at 1. unfold vmap at 1.
  rewrite !shape_zeros, Hci. reflexivity.
Qed.

Lemma conv_kernel_channel_mismatch_witness :
  conv_kernel 0%R Rplus Rmult cl2
    (ones_kernel [4; 8; 3; 3]) (ones_kernel [4; 4; 3; 3]) = Raise ValueError.
Proof.
  apply (conv_kernel_channel_mismatch R 0%R Rplus Rmult cl2 1 2 1 1 3 3 3 3).
  - simpl. lia.
  - reflexivity.
  - reflexivity.
  - right. lia.
Defined.

Lemma padded_block_ext {T : Type} (zero : T) (k1 k1' : tensor T)
    (a b h w lo_h lo_w n c r s : nat) :
  shape k1 = [a; b; h; w] -> shape k1' = [a; b; h; w] ->
  (forall y x, y < h -> x < w ->
     get zero k1 [n; c; y; x] = get zero k1' [n; c; y; x]) ->
  padded zero k1 lo_h lo_w n c r s = padded zero k1' lo_h lo_w n c r s.
Proof.
  intros H1 H1' Hget. unfold padded. rewrite H1, H1'.
  destruct ((lo_h <=? r) && (r <? lo_h + h) &&
            (lo_w <=? s) && (s <? lo_w + w)) eqn:E; [|reflexivity].
  apply andb_prop in E. destruct E as [E E4].
  apply andb_prop in E. destruct E as [E E3].
  apply andb_prop in E. destruct E as [E1 E2].
  apply Nat.leb_le in E1, E3. apply Nat.ltb_lt in E2, E4.
  apply Hget; lia.
Qed.

(** X7. The composition never mixes channel pairs: the block of the
    composed kernel for output channel m and input channel n is determined
    by the blocks of k1 and k2 for that same channel pair alone. *)
Theorem conv_kernel_channel_local (T : Type) (zero : T)
    (add mul : T -> T -> T) (algebra : CliffordAlgebra)
    (co ci h w kh kw m n : nat) (k1 k1' k2 k2' : tensor T) :
  0 < n_blades algebra -> 0 < kh -> 0 < kw ->
  shape k1 = [co * n_blades algebra; ci * n_blades algebra; h; w] ->
  shape k1' = [co * n_blades algebra; ci * n_blades algebra; h; w] ->
  shape k2 = [co * n_blades algebra; ci * n_blades algebra; kh; kw] ->
  shape k2' = [co * n_blades algebra; ci * n_blades algebra; kh; kw] ->
  m < co -> n < ci ->
  (forall i j y x, i < n_blades algebra -> j < n_blades algebra ->
     y < h -> x < w ->
     get zero k1 [m * n_blades algebra + i; n * n_blades algebra + j; y; x]
     = get zero k1' [m * n_blades algebra + i; n * n_blades algebra + j; y; x]) ->
  (forall i j y x, i < n_blades algebra -> j < n_blades algebra ->
     y < kh -> x < kw ->
     get zero k2 [m * n_blades algebra + i; n * n_blades algebra + j; y; x]
     = get zero k2' [m * n_blades algebra + i; n * n_blades algebra + j; y; x]) ->
  exists r r',
    conv_kernel zero add mul algebra k1 k2 = Ok r /\
    conv_kernel zero add mul algebra k1' k2' = Ok r' /\
    forall i i' y x, i < n_blades algebra -> i' < n_blades algebra ->
      y < h -> x < w ->
      get zero r [m * n_blades algebra + i; n * n_blades algebra + i'; y; x]
      = get zero r' [m * n_blades algebra + i; n * n_blades algebra + i'; y; x].
Proof.
  intros Hnb Hkh Hkw H1 H1' H2 H2' Hm Hn E1 E2.
  destruct (conv_kernel_entries_hw T zero add mul algebra co ci h w kh kw
              Hnb Hkh Hkw k1 k2 H1 H2) as (r & Hr & _ & _ & Hent).
  destruct (conv_kernel_entries_hw T zero add mul algebra co ci h w kh kw
              Hnb Hkh Hkw k1' k2' H1' H2') as (r' & Hr' & _ & _ & Hent').
  exists r, r'. split; [exact Hr|]. split; [exact Hr'|].
  intros i i' y x Hi Hi' Hy Hx.
  rewrite (Hent m n i i' y x), (Hent' m n i i' y x) by assumption.
  apply sum_over_ext. intros j Hj.
  apply sum_over_ext. intros dy Hdy.
  apply sum_over_ext. intros dx Hdx.
  rewrite (E2 i' j dy dx) by assumption.
  f_equal.
  apply (padded_block_ext zero k1 k1' _ _ h w _ _ _ _ _ _ H1 H1').
  intros y0 x0 Hy0 Hx0. apply E1; assumption.
Qed.

Lemma two_channel_kernel_block1 (c : R) (i j y x : nat) :
  i < 4 -> j < 4 -> y < 3 -> x < 3 ->
  get 0%R (two_channel_kernel c) [0 * 4 + i; 1 * 4 + j; y; x] = 1%R.
Proof.
  intros Hi Hj Hy Hx. unfold two_channel_kernel.
  rewrite (get_tabulate R 0%R) by solve_in_range.
  cbn [nth].
  destruct (Nat.ltb_spec (1 * 4 + j) 4) as [H|H]; [lia|reflexivity].
Qed.

Lemma two_channel_kernel_block0 (c : R) :
  get 0%R (two_channel_kernel c) [0; 0; 0; 0] = c.
Proof.
  unfold two_channel_kernel.
  rewrite (get_tabulate R 0%R) by reflexivity. reflexivity.
Qed.

Lemma conv_kernel_channel_local_witness :
  get 0%R (two_channel_kernel 2) [0; 0; 0; 0]
  <> get 0%R (two_channel_kernel 5) [0; 0; 0; 0] /\
  get 0%R (two_channel_kernel 3) [0; 0; 0; 0]
  <> get 0%R (two_channel_kernel 7) [0; 0; 0; 0] /\
  exists r r',
    conv_kernel 0%R Rplus Rmult cl2
      (two_channel_kernel 2) (two_channel_kernel 3) = Ok r /\
    conv_kernel 0%R Rplus Rmult cl2
      (two_channel_kernel 5) (two_channel_kernel 7) = Ok r' /\
    forall i i' y x, i < 4 -> i' < 4 -> y < 3 -> x < 3 ->
      get 0%R r [0 * 4 + i; 1 * 4 + i'; y; x]
      = get 0%R r' [0 * 4 + i; 1 * 4 + i'; y; x].
Proof.
  split; [|split].
  - rewrite !two_channel_kernel_block0. lra.
  - rewrite !two_channel_kernel_block0. lra.
  - apply (conv_kernel_channel_local R 0%R Rplus Rmult cl2 1 2 3 3 3 3 0 1
             (two_channel_kernel 2) (two_channel_kernel 5)
             (two_channel_kernel 3) (two_channel_kernel 7)).
    + simpl. lia.
    + lia.
    + lia.
    + reflexivity.
    + reflexivity.
    + reflexivity.
    + reflexivity.
    + lia.
    + lia.
    + intros i j y x Hi Hj Hy Hx. change (n_blades cl2) with 4 in *.
      rewrite !two_channel_kernel_block1 by assumption. reflexivity.
    + intros i j y x Hi Hj Hy Hx. change (n_blades cl2) with 4 in *.
      rewrite !two_channel_kernel_block1 by assumption. reflexivity.
Defined.

Section ConvKernelAlgebra.

Variable T : Type.
Variables (zero one : T) (add mul sub : T -> T -> T) (opp : T -> T).
Hypothesis Rth : ring_theory zero one add mul sub opp (@eq T).

Add Ring Tring3 : Rth.

Lemma sum_over_one (f : nat -> T) : sum_over zero add 1 f = f 0.
Proof. unfold sum_over. simpl. ring. Qed.

Lemma padded_unpadded (k1 : tensor T) (a b h w n c y x : nat) :
  shape k1 = [a; b; h; w] -> y < h -> x < w ->
  padded zero k1 (same_pad_lo 1) (same_pad_lo 1) n c (y + 0) (x + 0)
  = get zero k1 [n; c; y; x].
Proof.
  intros Hs Hy Hx. change (same_pad_lo 1) with 0.
  rewrite (padded_in T zero k1 a b h w 0 0 n c (y + 0) (x + 0) Hs) by lia.
  rewrite !Nat.add_0_r, !Nat.sub_0_r. reflexivity.
Qed.

Lemma padded_tmap (f : T -> T) (k1 : tensor T) (lo_h lo_w n c r s : nat) :
  f zero = zero ->
  padded zero (tmap f k1) lo_h lo_w n c r s
  = f (padded zero k1 lo_h lo_w n c r s).
Proof.
  intros Hf. unfold padded. simpl shape.
  destruct (shape k1) as [|a [|b [|h [|w [|e l]]]]]; try (symmetry; exact Hf).
  destruct ((lo_h <=? r) && (r <? lo_h + h) &&
            (lo_w <=? s) && (s <? lo_w + w)); [|symmetry; exact Hf].
  apply get_tmap0. exact Hf.
Qed.

Lemma sum_over_scale3 (c : T) (n1 n2 n3 : nat) (f : nat -> nat -> nat -> T) :
  sum_over zero add n1 (fun j =>
    sum_over zero add n2 (fun dy =>
      sum_over zero add n3 (fun dx => mul c (f j dy dx))))
  = mul c (sum_over zero add n1 (fun j =>
             sum_over zero add n2 (fun dy =>
               sum_over zero add n3 (fun dx => f j dy dx)))).
Proof.
  rewrite <- (sum_over_scale T zero one add mul sub opp Rth).
  apply sum_over_ext. intros j _.
  rewrite <- (sum_over_scale T zero one add mul sub opp Rth).
  apply sum_over_ext. intros dy _.
  apply (sum_over_scale T zero one add mul sub opp Rth).
Qed.

Variable algebra : CliffordAlgebra.
Let nb := n_blades algebra.
Variables co ci h w : nat.
Hypothesis Hnb : 0 < nb.

Lemma conv_kernel_tap (k1 k2 : tensor T) :
  shape k1 = [co * nb; ci * nb; h; w] ->
  shape k2 = [co * nb; ci * nb; 1; 1] ->
  exists r,
    conv_kernel zero add mul algebra k1 k2 = Ok r /\
    shape r = [co * nb; ci * nb; h; w] /\
    forall m n i i' y x,
      m < co -> n < ci -> i < nb -> i' < nb -> y < h -> x < w ->
      get zero r [m * nb + i; n * nb + i'; y; x]
      = sum_over zero add nb (fun j =>
          mul (get zero k1 [m * nb + i; n * nb + j; y; x])
              (get zero k2 [m * nb + i'; n * nb + j; 0; 0])).
Proof.
  intros H1 H2.
  destruct (conv_kernel_entries_hw T zero add mul algebra co ci h w 1 1
              Hnb ltac:(lia) ltac:(lia) k1 k2 H1 H2)
    as (r & Hr & Hrs & _ & Hent).
  exists r. split; [exact Hr|]. split; [exact Hrs|].
  intros m n i i' y x Hm Hn Hi Hi' Hy Hx.
  fold nb in Hent. rewrite (Hent m n i i' y x) by assumption.
  apply sum_over_ext. intros j Hj.
  rewrite !sum_over_one.
  rewrite (padded_unpadded k1 _ _ h w _ _ y x H1 Hy Hx). reflexivity.
Qed.

Lemma conv_kernel_scaled (kh kw : nat) (c d : T) (k1 k2 : tensor T) :
  0 < kh -> 0 < kw ->
  shape k1 = [co * nb; ci * nb; h; w] ->
  shape k2 = [co * nb; ci * nb; kh; kw] ->
  exists r rs,
    conv_kernel zero add mul algebra k1 k2 = Ok r /\
    conv_kernel zero add mul algebra (tmap (mul c) k1) (tmap (mul d) k2)
    = Ok rs /\
    shape rs = shape r /\
    forall m n i i' y x,
      m < co -> n < ci -> i < nb -> i' < nb -> y < h -> x < w ->
      get zero rs [m * nb + i; n * nb + i'; y; x]
      = mul (mul c d) (get zero r [m * nb + i; n * nb + i'; y; x]).
Proof.
  intros Hkh Hkw H1 H2.
  destruct (conv_kernel_entries_hw T zero add mul algebra co ci h w kh kw
              Hnb Hkh Hkw k1 k2 H1 H2) as (r & Hr & Hrs & _ & Hent).
  destruct (conv_kernel_entries_hw T zero add mul algebra co ci h w kh kw
              Hnb Hkh Hkw (tmap (mul c) k1) (tmap (mul d) k2) H1 H2)
    as (rs & Hrs' & Hrss & _ & Hents).
  exists r, rs. split; [exact Hr|]. split; [exact Hrs'|].
  split; [congruence|].
  intros m n i i' y x Hm Hn Hi Hi' Hy Hx.
  fold nb in Hent, Hents.
  rewrite (Hents m n i i' y x), (Hent m n i i' y x) by assumption.
  rewrite <- sum_over_scale3.
  apply sum_over_ext. intros j _.
  apply sum_over_ext. intros dy _.
  apply sum_over_ext. intros dx _.
  rewrite (padded_tmap (mul c)) by ring.
  rewrite (get_tmap0 T zero (mul d)) by ring.
  ring.
Qed.

End ConvKernelAlgebra.

(** X8. Composing with a 1-by-1 kernel: when k2 has a single spatial tap,
    every sampling point of the composed kernel is, for each channel pair,
    the blade-matrix product of the block of k1 at that point with the
    transposed block of k2 (entries over a commutative ring). *)
Theorem conv_kernel_single_tap (T : Type) (zero one : T)
    (add mul sub : T -> T -> T) (opp : T -> T)
    (algebra : CliffordAlgebra) (co ci h w : nat) (k1 k2 : tensor T) :
  ring_theory zero one add mul sub opp (@eq T) ->
  0 < n_blades algebra ->
  shape k1 = [co * n_blades algebra; ci * n_blades algebra; h; w] ->
  shape k2 = [co * n_blades algebra; ci * n_blades algebra; 1; 1] ->
  exists r,
    conv_kernel zero add mul algebra k1 k2 = Ok r /\
    shape r = [co * n_blades algebra; ci * n_blades algebra; h; w] /\
    forall m n i i' y x,
      m < co -> n < ci -> i < n_blades algebra -> i' < n_blades algebra ->
      y < h -> x < w ->
      get zero r [m * n_blades algebra + i; n * n_blades algebra + i'; y; x]
      = sum_over zero add (n_blades algebra) (fun j =>
          mul (get zero k1 [m * n_blades algebra + i;
                            n * n_blades algebra + j; y; x])
              (get zero k2 [m * n_blades algebra + i';
                            n * n_blades algebra + j; 0; 0])).
Proof.
  intros Rth Hnb H1 H2.
  exact (conv_kernel_tap T zero one add mul sub opp Rth algebra co ci h w
           Hnb k1 k2 H1 H2).
Qed.

Lemma conv_kernel_single_tap_witness :
  exists r,
    conv_kernel 0%R Rplus Rmult cl2
      (ones_kernel [4; 8; 3; 3]) (ones_kernel [4; 8; 1; 1]) = Ok r /\
    shape r = [4; 8; 3; 3].
Proof.
  destruct (conv_kernel_single_tap R 0%R 1%R Rplus Rmult Rminus Ropp cl2
              1 2 3 3 (ones_kernel [4; 8; 3; 3]) (ones_kernel [4; 8; 1; 1])
              RTheory ltac:(simpl; lia) eq_refl eq_refl)
    as (r & Hr & Hs & _).
  exists r. split; assumption.
Defined.

(** X9. The composition is homogeneous in each kernel: scaling k1 by c and
    k2 by d scales every entry of the composed kernel by c*d, and leaves
    its shape unchanged (entries over a commutative ring). *)
Theorem conv_kernel_homogeneous (T : Type) (zero one : T)
    (add mul sub : T -> T -> T) (opp : T -> T)
    (algebra : CliffordAlgebra) (co ci h w kh kw : nat) (c d : T)
    (k1 k2 : tensor T) :
  ring_theory zero one add mul sub opp (@eq T) ->
  0 < n_blades algebra -> 0 < kh -> 0 < kw ->
  shape k1 = [co * n_blades algebra; ci * n_blades algebra; h; w] ->
  shape k2 = [co * n_blades algebra; ci * n_blades algebra; kh; kw] ->
  exists r rs,
    conv_kernel zero add mul algebra k1 k2 = Ok r /\
    conv_kernel zero add mul algebra (tmap (mul c) k1) (tmap (mul d) k2)
    = Ok rs /\
    shape rs = shape r /\
    forall m n i i' y x,
      m < co -> n < ci -> i < n_blades algebra -> i' < n_blades algebra ->
      y < h -> x < w ->
      get zero rs [m * n_blades algebra + i; n * n_blades algebra + i'; y; x]
      = mul (mul c d)
            (get zero r [m * n_blades algebra + i;
                         n * n_blades algebra + i'; y; x]).
Proof.
  intros Rth Hnb Hkh Hkw H1 H2.
  exact (conv_kernel_scaled T zero one add mul sub opp Rth algebra co ci h w
           Hnb kh kw c d k1 k2 Hkh Hkw H1 H2).
Qed.

Lemma conv_kernel_homogeneous_witness :
  exists r rs,
    conv_kernel 0%R Rplus Rmult cl2
      (ones_kernel [4; 8; 3; 3]) (ones_kernel [4; 8; 3; 3]) = Ok r /\
    conv_kernel 0%R Rplus Rmult cl2
      (tmap (Rmult 2) (ones_kernel [4; 8; 3; 3]))
      (tmap (Rmult 3) (ones_kernel [4; 8; 3; 3])) = Ok rs /\
    shape rs = shape r.
Proof.
  destruct (conv_kernel_homogeneous R 0%R 1%R Rplus Rmult Rminus Ropp cl2
              1 2 3 3 3 3 2%R 3%R
              (ones_kernel [4; 8; 3; 3]) (ones_kernel [4; 8; 3; 3])
              RTheory ltac:(simpl; lia) ltac:(lia) ltac:(lia) eq_refl eq_refl)
    as (r & rs & Hr & Hrs & Hs & _).
  exists r, rs. repeat split; assumption.
Defined.

(** * Further properties of [shell.py] *)

Lemma broadcast_dim_left (d : nat) (r : list nat) (other : result (list nat)) :
  (if 1 =? d then Ok (1 :: r)
   else if 1 =? 1 then Ok (d :: r) else other) = Ok (d :: r).
Proof.
  destruct (1 =? d) eqn:E; [|reflexivity].
  apply Nat.eqb_eq in E. subst. reflexivity.
Qed.

Lemma broadcast_dim_right (n : nat) (r : list nat) :
  (if n =? 1 then Ok (n :: r)
   else if n =? 1 then Ok (1 :: r)
        else if 1 =? 1 then Ok (n :: r) else Raise ValueError) = Ok (n :: r).
Proof. destruct (n =? 1); reflexivity. Qed.

Lemma broadcast_batch_widths (N C L : nat) :
  broadcast_shapes [N; 1; 1] [1; C; L] = Ok [N; C; L].
Proof.
  unfold broadcast_shapes, pad_shape. cbn [length Nat.max Nat.sub repeat app].
  cbn [broadcast_axes bind].
  rewrite broadcast_dim_left. cbn [bind].
  rewrite broadcast_dim_left. cbn [bind].
  apply broadcast_dim_right.
Qed.

Lemma broadcast_positions_widths (P co ci b1 b2 : nat) :
  broadcast_shapes [P; 1; 1; 1; 1] [1; co; ci; b1; b2]
  = Ok [P; co; ci; b1; b2].
Proof.
  unfold broadcast_shapes, pad_shape. cbn [length Nat.max Nat.sub repeat app].
  cbn [broadcast_axes bind].
  rewrite broadcast_dim_left. cbn [bind].
  rewrite broadcast_dim_left. cbn [bind].
  rewrite broadcast_dim_left. cbn [bind].
  rewrite broadcast_dim_left. cbn [bind].
  apply broadcast_dim_right.
Qed.

Lemma clamp_entry (d i : nat) : i < d -> (if d =? 1 then 0 else i) = i.
Proof.
  intros H. destruct (d =? 1) eqn:E; [|reflexivity].
  apply Nat.eqb_eq in E. lia.
Qed.

Lemma bindex_batch (N n c l : nat) :
  n < N -> bindex [N; 1; 1] [n; c; l] = [n; 0; 0].
Proof.
  intros Hn. unfold bindex, clamp. simpl.
  destruct (N =? 1) eqn:E; [|reflexivity].
  apply Nat.eqb_eq in E. f_equal. lia.
Qed.

Lemma bindex_widths (C L n c l : nat) :
  c < C -> l < L -> bindex [1; C; L] [n; c; l] = [0; c; l].
Proof.
  intros Hc Hl. unfold bindex, clamp. simpl.
  destruct (C =? 1) eqn:EC; destruct (L =? 1) eqn:EL;
    try apply Nat.eqb_eq in EC; try apply Nat.eqb_eq in EL;
    repeat f_equal; lia.
Qed.

Section ShellBatch.

Open Scope R_scope.

Variable a : CliffordAlgebra.
Hypothesis Hwf : wf_algebra a.

Lemma compute_scalar_shell_batch_entries (v sigma : tensor R) (N C L : nat) :
  wf_tensor v -> shape v = [N; 1%nat; dim a] -> shape sigma = [1%nat; C; L] ->
  exists out,
    compute_scalar_shell a v sigma = Ok out /\
    shape out = [N; C; L] /\
    forall n c l, (n < N)%nat -> (c < C)%nat -> (l < L)%nat ->
      get 0 out [n; c; l]
      = shell_value (q_at a v n) (get 0 sigma [0%nat; c; l]).
Proof.
  intros Hw Hs Hsig.
  destruct (compute_scalar_shell_entries a Hwf v sigma [N; 1%nat] [N; C; L]
              Hw Hs) as (out & Ho & Hos & _ & Hent).
  { rewrite Hsig. apply broadcast_batch_widths. }
  exists out. split; [exact Ho|]. split; [exact Hos|].
  intros n c l Hn Hc Hl.
  destruct (Hent [n; c; l] ltac:(solve_in_range)) as [_ ->].
  rewrite Hsig.
  change ([N; 1%nat] ++ [1%nat]) with [N; 1%nat; 1%nat].
  rewrite (bindex_batch N n c l Hn), (bindex_widths C L n c l Hc Hl).
  f_equal. f_equal. simpl. lia.
Qed.

Lemma compute_composed_scalar_shell_entries_at
    (v sigma : tensor R) (outer : list nat) (co ci b1 b2 : nat) :
  wf_tensor v -> shape v = outer ++ [dim a] ->
  shape sigma = [1%nat; co; ci; b1; b2] ->
  exists out,
    compute_composed_scalar_shell a v sigma = Ok out /\
    shape out = [numel outer; co; ci; b1; b2] /\
    forall p o i x y,
      (p < numel outer)%nat -> (o < co)%nat -> (i < ci)%nat ->
      (x < b1)%nat -> (y < b2)%nat ->
      get 0 out [p; o; i; x; y]
      = shell_value (q_at a v p) (get 0 sigma [0%nat; o; i; x; y]).
Proof.
  intros Hw Hs Hsig.
  destruct (q_of_embed a Hwf v outer Hw Hs) as (e & He & Hq).
  unfold compute_composed_scalar_shell.
  rewrite He. cbn [bind]. rewrite Hq. cbn [bind].
  rewrite reshape_infer_column. cbn [bind].
  set (P := numel outer).
  set (qv := mkTensor [P; 1; 1; 1; 1]%nat (map (q_at a v) (seq 0 P))).
  assert (Hn : numel [P; 1; 1; 1; 1]%nat = P) by (simpl; lia).
  assert (Hqw : wf_tensor qv).
  { unfold wf_tensor, qv. simpl shape. simpl data.
    rewrite length_map, length_seq, Hn. reflexivity. }
  destruct (shell_core qv sigma [P; co; ci; b1; b2] Hqw)
    as (out & Ho & Hos & _ & Hent).
  { simpl shape. rewrite Hsig. apply broadcast_positions_widths. }
  exists out. split; [exact Ho|]. split; [exact Hos|].
  intros p o i x y Hp Ho' Hi Hx Hy.
  rewrite (Hent [p; o; i; x; y]) by solve_in_range.
  simpl shape. rewrite Hsig.
  assert (B1 : bindex [P; 1; 1; 1; 1]%nat [p; o; i; x; y]
               = [p; 0; 0; 0; 0]%nat).
  { unfold bindex, clamp. simpl.
    destruct (P =? 1)%nat eqn:E; [|reflexivity].
    apply Nat.eqb_eq in E. f_equal. lia. }
  assert (B2 : bindex [1; co; ci; b1; b2]%nat [p; o; i; x; y]
               = [0; o; i; x; y]%nat).
  { unfold bindex, clamp. simpl.
    rewrite !clamp_entry by assumption. reflexivity. }
  rewrite B1, B2. f_equal.
  unfold qv. rewrite <- Hn at 2.
  rewrite get_map_seq by solve_in_range.
  f_equal. simpl. lia.
Qed.

End ShellBatch.

Lemma get_Forall {T : Type} (zero : T) (P : T -> Prop) (t : tensor T)
    (idx : list nat) :
  wf_tensor t -> in_range (shape t) idx = true ->
  Forall P (data t) -> P (get zero t idx).
Proof.
  intros Hw Hr HP. unfold get.
  apply (proj1 (Forall_forall P (data t)) HP).
  apply nth_In. rewrite Hw. apply offset_lt. exact Hr.
Qed.

Section ShellRealMore.

Open Scope R_scope.

Lemma exp_le_mono (x y : R) : x <= y -> exp x <= exp y.
Proof.
  intros [H|H]; [left; apply exp_increasing; exact H|subst; lra].
Qed.


Lemma shell_value_init_bounds (qv s : R) :
  0.4 <= s < 0.6 ->
  exp (- Rabs qv / 0.32) <= Rabs (shell_value qv s) <= exp (- Rabs qv / 0.72).
Proof.
  intros Hs. rewrite shell_value_abs.
  pose proof (Rabs_pos qv) as Hq.
  assert (Hlo : 0.32 <= 2 * s ^ 2) by (simpl; nra).
  assert (Hhi : 2 * s ^ 2 <= 0.72) by (simpl; nra).
  assert (I1 : / (2 * s ^ 2) <= / 0.32) by (apply Rinv_le_contravar; lra).
  assert (I2 : / 0.72 <= / (2 * s ^ 2)) by (apply Rinv_le_contravar; lra).
  split; apply exp_le_mono; unfold Rdiv; nra.
Qed.

Lemma shell_value_even (qv s : R) : shell_value qv (- s) = shell_value qv s.
Proof.
  unfold shell_value. replace ((- s) ^ 2) with (s ^ 2) by ring. reflexivity.
Qed.

Lemma shell_value_odd (qv s : R) :
  qv <> 0 -> shell_value (- qv) s = - shell_value qv s.
Proof.
  intros Hq. unfold shell_value, sign_plus. rewrite Rabs_Ropp.
  destruct (Rlt_dec (- qv) 0), (Rlt_dec qv 0); try lra.
Qed.

End ShellRealMore.

Section ShellExtras.

Open Scope R_scope.

(** X10. On the documented shapes -- offsets of shape (N, 1, dim) and
    widths of shape (1, C, L) -- [compute_scalar_shell] returns an array of
    shape (N, C, L) whose entry (n, c, l) is the shell of the n-th offset
    at the width (0, c, l); the last extent L of the widths is not
    restricted to 1 or 2^dim. *)
Theorem compute_scalar_shell_batch (a : CliffordAlgebra) (v sigma : tensor R)
    (N C L : nat) :
  wf_algebra a -> wf_tensor v ->
  shape v = [N; 1%nat; dim a] -> shape sigma = [1%nat; C; L] ->
  exists out,
    compute_scalar_shell a v sigma = Ok out /\
    shape out = [N; C; L] /\
    forall n c l, (n < N)%nat -> (c < C)%nat -> (l < L)%nat ->
      get 0 out [n; c; l]
      = shell_value (q_at a v n) (get 0 sigma [0%nat; c; l]).
Proof.
  intros Hwf Hw Hs Hsig.
  exact (compute_scalar_shell_batch_entries a Hwf v sigma N C L Hw Hs Hsig).
Qed.

Lemma compute_scalar_shell_batch_witness :
  exists out,
    compute_scalar_shell cl2 offsets_example sigma_example = Ok out /\
    shape out = [2; 1; 4]%nat.
Proof.
  destruct (compute_scalar_shell_batch cl2 offsets_example sigma_example
              2 1 4 cl2_wf eq_refl eq_refl eq_refl) as (out & Ho & Hs & _).
  exists out. split; assumption.
Defined.

(** X11. [ScalarShell.__call__] end to end: on offsets of shape
    (N, 1, dim) and a stored width parameter of shape
    (c_out, c_in, n_subspaces) it returns an array of shape
    (N, c_out*c_in, n_blades) whose entry (n, o*c_in + i, b) is the shell
    of the n-th offset at the width raw[o, i, grade of b] + 0.4. *)
Theorem ScalarShell_call_spec (a : CliffordAlgebra) (self : shell_attrs)
    (p x : tensor R) (N : nat) :
  wf_algebra a ->
  wf_tensor p ->
  shape p = [shell_c_out self; shell_c_in self; n_subspaces a] ->
  wf_tensor x -> shape x = [N; 1%nat; dim a] ->
  exists out,
    ScalarShell_call a self p x = Ok out /\
    shape out = [N; (shell_c_out self * shell_c_in self)%nat; n_blades a] /\
    forall n o i b,
      (n < N)%nat -> (o < shell_c_out self)%nat ->
      (i < shell_c_in self)%nat -> (b < n_blades a)%nat ->
      get 0 out [n; (o * shell_c_in self + i)%nat; b]
      = shell_value (q_at a x n)
          (get 0 p [o; i; grade_of (subspaces a) b] + 0.4).
Proof.
  intros Hwf Hw Hs Hxw Hxs.
  destruct (ScalarShell_kernel_width_spec a Hwf self p Hw Hs)
    as (kw & Hk & Hks & _ & Hkget).
  unfold ScalarShell_call. rewrite Hk. cbn [bind].
  destruct (compute_scalar_shell_batch_entries a Hwf x kw N _ _ Hxw Hxs Hks)
    as (out & Ho & Hos & Hent).
  exists out. split; [exact Ho|]. split; [exact Hos|].
  intros n o i b Hn Ho' Hi Hb.
  rewrite (Hent n (o * shell_c_in self + i)%nat b) by (try assumption; nia).
  rewrite (Hkget o i b) by assumption. reflexivity.
Qed.

Lemma ScalarShell_call_spec_witness :
  exists out,
    ScalarShell_call cl2 (mkShellAttrs 1 1) zero_width_param offsets_example
    = Ok out /\
    shape out = [2; 1; 4]%nat.
Proof.
  destruct (ScalarShell_call_spec cl2 (mkShellAttrs 1 1) zero_width_param
              offsets_example 2 cl2_wf eq_refl eq_refl eq_refl eq_refl)
    as (out & Ho & Hs & _).
  exists out. split; assumption.
Defined.

(** X12. [ComposedScalarShell.__call__] end to end: the offsets are
    flattened to P positions (the product of their leading extents), and
    the result has shape (P, c_out, c_in, n_blades, n_blades) with entry
    (p, o, i, b1, b2) the shell of the p-th offset at the width
    raw[o, i, grade of b1, grade of b2] + 0.4. *)
Theorem ComposedScalarShell_call_spec (a : CliffordAlgebra)
    (self : shell_attrs) (p x : tensor R) (outer : list nat) :
  wf_algebra a ->
  wf_tensor p ->
  shape p = [shell_c_out self; shell_c_in self;
             n_subspaces a; n_subspaces a] ->
  wf_tensor x -> shape x = outer ++ [dim a] ->
  exists out,
    ComposedScalarShell_call a self p x = Ok out /\
    shape out = [numel outer; shell_c_out self; shell_c_in self;
                 n_blades a; n_blades a] /\
    forall n o i b1 b2,
      (n < numel outer)%nat -> (o < shell_c_out self)%nat ->
      (i < shell_c_in self)%nat ->
      (b1 < n_blades a)%nat -> (b2 < n_blades a)%nat ->
      get 0 out [n; o; i; b1; b2]
      = shell_value (q_at a x n)
          (get 0 p [o; i; grade_of (subspaces a) b1;
                    grade_of (subspaces a) b2] + 0.4).
Proof.
  intros Hwf Hw Hs Hxw Hxs.
  destruct (ComposedScalarShell_kernel_width_spec a Hwf self p Hw Hs)
    as (kw & Hk & Hks & _ & Hkget).
  unfold ComposedScalarShell_call. rewrite Hk. cbn [bind].
  destruct (compute_composed_scalar_shell_entries_at a Hwf x kw outer
              _ _ _ _ Hxw Hxs Hks) as (out & Ho & Hos & Hent).
  exists out. split; [exact Ho|]. split; [exact Hos|].
  intros n o i b1 b2 Hn Ho' Hi Hb1 Hb2.
  rewrite (Hent n o i b1 b2) by assumption.
  rewrite (Hkget o i b1 b2) by assumption. reflexivity.
Qed.

Lemma ComposedScalarShell_call_spec_witness :
  exists out,
    ComposedScalarShell_call cl2 (mkShellAttrs 1 1)
      zero_composed_width_param offsets_example = Ok out /\
    shape out = [2; 1; 1; 4; 4]%nat.
Proof.
  destruct (ComposedScalarShell_call_spec cl2 (mkShellAttrs 1 1)
              zero_composed_width_param offsets_example [2; 1]%nat
              cl2_wf eq_refl eq_refl eq_refl eq_refl)
    as (out & Ho & Hs & _).
  exists out. split; assumption.
Defined.

(** X13. The mask right after initialization: with every raw width in
    [0, 0.2), every entry of the [ScalarShell] output has an absolute
    value between exp(-|q|/0.32) and exp(-|q|/0.72), q being the quadratic
    form of the offset; in particular no entry is masked out entirely. *)
Theorem ScalarShell_init_mask (a : CliffordAlgebra) (self : shell_attrs)
    (p x : tensor R) (N : nat) :
  wf_algebra a ->
  wf_tensor p ->
  shape p = [shell_c_out self; shell_c_in self; n_subspaces a] ->
  Forall (fun r => 0 <= r < 0.2) (data p) ->
  wf_tensor x -> shape x = [N; 1%nat; dim a] ->
  exists out,
    ScalarShell_call a self p x = Ok out /\
    forall n o i b,
      (n < N)%nat -> (o < shell_c_out self)%nat ->
      (i < shell_c_in self)%nat -> (b < n_blades a)%nat ->
      exp (- Rabs (q_at a x n) / 0.32)
      <= Rabs (get 0 out [n; (o * shell_c_in self + i)%nat; b])
      <= exp (- Rabs (q_at a x n) / 0.72) /\
      get 0 out [n; (o * shell_c_in self + i)%nat; b] <> 0.
Proof.
  intros Hwf Hw Hs Hp Hxw Hxs.
  destruct (ScalarShell_kernel_width_spec a Hwf self p Hw Hs)
    as (kw & Hk & Hks & _ & Hkget).
  unfold ScalarShell_call. rewrite Hk. cbn [bind].
  destruct (compute_scalar_shell_batch_entries a Hwf x kw N _ _ Hxw Hxs Hks)
    as (out & Ho & Hos & Hent).
  exists out. split; [exact Ho|].
  intros n o i b Hn Ho' Hi Hb.
  rewrite (Hent n (o * shell_c_in self + i)%nat b) by (try assumption; nia).
  rewrite (Hkget o i b) by assumption.
  assert (Hg : (grade_of (subspaces a) b < n_subspaces a)%nat).
  { rewrite <- (wf_n_subspaces Hwf). apply grade_of_lt.
    rewrite (wf_subspaces Hwf). exact Hb. }
  pose proof (get_Forall 0 _ p [o; i; grade_of (subspaces a) b] Hw
                ltac:(rewrite Hs; solve_in_range) Hp) as Hraw.
  cbv beta in Hraw.
  split.
  - apply shell_value_init_bounds. lra.
  - apply shell_value_bounds. lra.
Qed.

Lemma ScalarShell_init_mask_witness :
  exists out,
    ScalarShell_call cl2 (mkShellAttrs 1 1) zero_width_param offsets_example
    = Ok out.
Proof.
  assert (Hz : Forall (fun r => 0 <= r < 0.2) (data zero_width_param)).
  { simpl. repeat constructor; lra. }
  destruct (ScalarShell_init_mask cl2 (mkShellAttrs 1 1) zero_width_param
              offsets_example 2 cl2_wf eq_refl eq_refl Hz eq_refl eq_refl)
    as (out & Ho & _).
  exists out. exact Ho.
Defined.

(** X14. Only the square of the width matters: negating every width
    leaves the result of [compute_scalar_shell] and of
    [compute_composed_scalar_shell] unchanged. *)
Theorem scalar_shell_width_sign (a : CliffordAlgebra) (v sigma : tensor R) :
  compute_scalar_shell a v (tmap Ropp sigma) = compute_scalar_shell a v sigma /\
  compute_composed_scalar_shell a v (tmap Ropp sigma)
  = compute_composed_scalar_shell a v sigma.
Proof.
  assert (Hsq : tmap (fun s => s ^ 2) (tmap Ropp sigma)
                = tmap (fun s => s ^ 2) sigma).
  { unfold tmap. simpl. f_equal. rewrite map_map.
    apply map_ext. intros s. ring. }
  unfold compute_scalar_shell, compute_composed_scalar_shell.
  rewrite Hsq. split; reflexivity.
Qed.





(** X16. Polarity across the null cone: two offsets of one batch whose
    quadratic forms are opposite and nonzero get shells of the same
    magnitude and opposite sign, at every width. *)
Theorem scalar_shell_polarity (a : CliffordAlgebra) (v sigma : tensor R)
    (N C L : nat) :
  wf_algebra a -> wf_tensor v ->
  shape v = [N; 1%nat; dim a] -> shape sigma = [1%nat; C; L] ->
  exists out,
    compute_scalar_shell a v sigma = Ok out /\
    forall n1 n2 c l,
      (n1 < N)%nat -> (n2 < N)%nat -> (c < C)%nat -> (l < L)%nat ->
      q_at a v n1 <> 0 -> q_at a v n2 = - q_at a v n1 ->
      get 0 out [n2; c; l] = - get 0 out [n1; c; l].
Proof.
  intros Hwf Hw Hs Hsig.
  destruct (compute_scalar_shell_batch_entries a Hwf v sigma N C L Hw Hs Hsig)
    as (out & Ho & _ & Hent).
  exists out. split; [exact Ho|].
  intros n1 n2 c l Hn1 Hn2 Hc Hl Hne Hq.
  rewrite (Hent n1 c l), (Hent n2 c l) by assumption.
  rewrite Hq. apply shell_value_odd. exact Hne.
Qed.

Lemma hyperbolic_offsets_q :
  q_at cl11 hyperbolic_offsets_example 0 = 1 /\
  q_at cl11 hyperbolic_offsets_example 1 = - (1).
Proof. unfold q_at, block. simpl. split; lra. Qed.

Lemma scalar_shell_polarity_witness :
  q_at cl11 hyperbolic_offsets_example 0 <> 0 /\
  q_at cl11 hyperbolic_offsets_example 1
  = - q_at cl11 hyperbolic_offsets_example 0 /\
  exists out,
    compute_scalar_shell cl11 hyperbolic_offsets_example sigma_example
    = Ok out /\
    forall c l, (c < 1)%nat -> (l < 4)%nat ->
      get 0 out [1%nat; c; l] = - get 0 out [0%nat; c; l].
Proof.
  destruct hyperbolic_offsets_q as [Q0 Q1].
  assert (Hne : q_at cl11 hyperbolic_offsets_example 0 <> 0)
    by (rewrite Q0; lra).
  assert (Hop : q_at cl11 hyperbolic_offsets_example 1
                = - q_at cl11 hyperbolic_offsets_example 0)
    by (rewrite Q0, Q1; reflexivity).
  split; [exact Hne|]. split; [exact Hop|].
  destruct (scalar_shell_polarity cl11 hyperbolic_offsets_example
              sigma_example 2 1 4 cl11_wf eq_refl eq_refl eq_refl)
    as (out & Ho & H).
  exists out. split; [exact Ho|].
  intros c l Hc Hl.
  apply (H 0%nat 1%nat c l); try assumption; lia.
Defined.

End ShellExtras.

(** * A property of [csresmnist.py] *)

(** X17. [CSResNetMnist.__call__] never returns a value: the classifying
    layer is built from [self.out_features], which is not a field of the
    class, so a call in which every preceding layer succeeds ends in an
    AttributeError; otherwise it ends in the exception of the layer that
    failed. *)
Theorem CSResNetMnist_call_never_returns (X padding_mode_t : Type)
    (CliffordSteerableConv : conv_args padding_mode_t -> X -> result X)
    (MVLayerNorm : CliffordAlgebra -> X -> result X)
    (MVGELU : X -> result X)
    (GradeNorm : CliffordAlgebra -> X -> result X)
    (field_add : X -> X -> result X)
    (flatten_batch : X -> result X)
    (Dense : nat -> X -> result X)
    (self : CSResNetMnist padding_mode_t) (x : X) :
  let call :=
    CSResNetMnist_call CliffordSteerableConv MVLayerNorm MVGELU GradeNorm
      field_add flatten_batch Dense self x in
  (forall y, call <> Returned y) /\
  ((exists e, call = LayerRaised e) \/ call = AttributeError out_features).
Proof.
  intros call.
  assert (H : (exists e, call = LayerRaised e)
              \/ call = AttributeError out_features).
  { unfold call, CSResNetMnist_call. cbv zeta.
    repeat match goal with
           | |- context [obind (of_layer ?r) _] =>
               destruct r; cbn [of_layer obind];
               [|left; eexists; reflexivity]
           end.
    right. reflexivity. }
  split; [|exact H].
  intros y Hy. destruct H as [[e He]|He]; rewrite He in Hy; discriminate.
Qed.
